(** * EcoFlow: the client-side end-of-life recalculation

    A shallow embedding of [frontend/lib/eol-recalc.ts]: the constant
    tables [EOL_METHOD_FACTORS] and [EOL_SCENARIOS] and the function
    [recalculateEOL], which re-derives the end-of-life phase, the total and
    the eol-to-total edge of a previously computed analysis; and of what
    the page and its components do with them.

    Numbers.  A JavaScript [number] is an IEEE double, and the function is
    embedded twice.  [Binary64.recalculateEOL] computes in doubles (the
    primitive floats, binary64 with round-to-nearest-even): a decimal
    literal is the nearest double, [+], [*] and [/] round as they do in
    JavaScript, and [Binary64.Math_round] is [Math.round].  Whatever is
    said about the value of an emitted number is said of this function,
    with [=] on doubles.  [recalculateEOL] computes in exact rationals
    ([Q]): a decimal literal is the rational it denotes and [Math.round]
    is "nearest integer, a tie going toward plus infinity".  It carries
    what does not depend on how numbers round: the fields that are kept,
    the mix a selector finds, zero weight, the order of two results.
    There numeric results are compared with [==] ([Qeq]) and values
    carried over unchanged with [=].  [Binary64.to_Q] is the rational a
    finite double denotes: bounds on an emitted number are bounds on it.

    Objects.  An object literal used as a string-keyed map is the list of
    its own enumerable entries in enumeration order, the order
    [Object.entries] and [Object.values] follow.  A property read also
    sees the members inherited from [Object.prototype]. *)

From Stdlib Require Import QArith Qround Qabs Qpower Lqa ZArith Lia.
From Stdlib Require Import String List Bool.
From Stdlib Require Import PrimFloat FloatOps SpecFloat FloatAxioms Uint63.
From Stdlib Require Import Ascii Qminmax Permutation Sorted.
Import ListNotations.

Local Open Scope string_scope.
Local Open Scope Q_scope.

(** ** JavaScript property access *)

Module JS.

(** Own entry of an object for key [k]. *)
Fixpoint assoc {A : Type} (k : string) (o : list (string * A)) : option A :=
  match o with
  | [] => None
  | (k', a) :: o' => if String.eqb k' k then Some a else assoc k o'
  end.

(** The property names every object literal inherits from
    [Object.prototype] (ECMAScript 2024, 20.1.3 and Annex B.2.2). *)
Definition object_prototype_keys : list string :=
  [ "constructor"; "hasOwnProperty"; "isPrototypeOf";
    "propertyIsEnumerable"; "toLocaleString"; "toString"; "valueOf";
    "__proto__"; "__defineGetter__"; "__defineSetter__";
    "__lookupGetter__"; "__lookupSetter__" ].

Definition is_prototype_key (k : string) : bool :=
  existsb (String.eqb k) object_prototype_keys.

(** A value that is neither [null] nor [undefined].  [Inherited] is a
    member found on [Object.prototype]: a built-in function, or
    [Object.prototype] itself for ["__proto__"].  It is not a number and
    it has no own enumerable property. *)
Inductive value (A : Type) : Type :=
| Own (a : A)
| Inherited.
Arguments Own {A} a.
Arguments Inherited {A}.

(** [o[k]]: an own entry first, then the prototype; [None] is
    [undefined]. *)
Definition get {A : Type} (o : list (string * A)) (k : string)
  : option (value A) :=
  match assoc k o with
  | Some a => Some (Own a)
  | None => if is_prototype_key k then Some Inherited else None
  end.

(** [v ?? d]: [d] only when [v] is [undefined]. *)
Definition nullish {A : Type} (v : option (value A)) (d : value A)
  : value A :=
  match v with
  | Some x => x
  | None => d
  end.

(** [Object.entries v]. *)
Definition entries {A : Type} (v : value (list (string * A)))
  : list (string * A) :=
  match v with
  | Own o => o
  | Inherited => []
  end.

(** [Object.values o]. *)
Definition values {A : Type} (o : list (string * A)) : list A :=
  map snd o.

(** The operand [v] of [fraction * v].  With an inherited member the
    product is NaN, which the rationals lack; [scenario_methods_own]
    shows that no mix selected by [recalculateEOL] has such a key. *)
Definition operand (v : value Q) : Q :=
  match v with
  | Own q => q
  | Inherited => 0
  end.

(** [Math.round]: the nearest integer, a tie going toward plus
    infinity. *)
Definition Math_round (x : Q) : Q := inject_Z (Qfloor (x + 0.5)).

Definition Math_abs (x : Q) : Q := Qabs x.

End JS.

(** ** Types (the response shape of the backend) *)

Record SankeyNode : Type := mkSankeyNode {
  id : string;
  label : string;
  phase : string
}.

Record SankeyLink : Type := mkSankeyLink {
  source : string;
  target : string;
  value : Q
}.

Record Breakdown : Type := mkBreakdown {
  materials : Q;
  manufacturing : Q;
  transport : Q;
  use : Q;
  end_of_life : Q
}.

Record Summary : Type := mkSummary {
  total_co2e_kg : Q;
  breakdown : Breakdown;
  weight_kg : Q;
  category : string;
  eol_scenario : string
}.

Record MaterialDetail : Type := mkMaterialDetail {
  name : string;
  fraction : Q;
  detail_weight_kg : Q;
  impact_kg_co2e : Q;
  factor : Q
}.

Record SankeyData : Type := mkSankeyData {
  nodes : list SankeyNode;
  links : list SankeyLink;
  summary : Summary;
  per_material_weights : list (string * Q);
  material_details : list MaterialDetail
}.

(** ** EOL constants *)

Definition EOL_METHOD_FACTORS : list (string * Q) :=
  [ ("landfill", 0.5);
    ("incineration", 1.0);
    ("recycling", -0.3) ].

Definition EOL_SCENARIOS : list (string * list (string * Q)) :=
  [ ("baseline",
     [ ("landfill", 0.6); ("incineration", 0.2); ("recycling", 0.2) ]);
    ("best_case",
     [ ("landfill", 0.1); ("incineration", 0.1); ("recycling", 0.8) ]);
    ("worst_case",
     [ ("landfill", 0.8); ("incineration", 0.2); ("recycling", 0.0) ]) ].

(** [EOL_SCENARIOS.baseline]: a static access to an own entry
    ([EOL_SCENARIOS_baseline_get]). *)
Definition EOL_SCENARIOS_baseline : list (string * Q) :=
  [ ("landfill", 0.6); ("incineration", 0.2); ("recycling", 0.2) ].

(** ** Recalculation function *)

(** [EOL_SCENARIOS[scenario] ?? EOL_SCENARIOS.baseline] *)
Definition selected_mix (scenario : string) : JS.value (list (string * Q)) :=
  JS.nullish (JS.get EOL_SCENARIOS scenario) (JS.Own EOL_SCENARIOS_baseline).

(** The callback [(sum, [method, fraction]) =>
      sum + fraction * (EOL_METHOD_FACTORS[method] ?? 0)] *)
Definition method_step (sum : Q) (entry : string * Q) : Q :=
  let '(method, fraction) := entry in
  sum + fraction
        * JS.operand
            (JS.nullish (JS.get EOL_METHOD_FACTORS method) (JS.Own 0)).

(** [Object.entries(mix).reduce(..., 0)] *)
Definition blendedFactor (mix : JS.value (list (string * Q))) : Q :=
  fold_left method_step (JS.entries mix) 0.

(** [Object.values(weights).reduce((sum, weight) =>
      sum + weight * blendedFactor, 0)] *)
Definition newEol (weights : list (string * Q)) (blendedFactor : Q) : Q :=
  fold_left (fun sum weight => sum + weight * blendedFactor)
            (JS.values weights) 0.

(** [link.source === "eol" && link.target === "total"] *)
Definition is_eol_edge (link : SankeyLink) : bool :=
  (source link =? "eol")%string && (target link =? "total")%string.

Definition recalculateEOL (original : SankeyData) (scenario : string)
  : SankeyData :=
  let mix := selected_mix scenario in
  (* Compute blended EOL factor for this scenario *)
  let blendedFactor := blendedFactor mix in
  (* Compute new EOL total from per-material weights *)
  let newEol := newEol (per_material_weights original) blendedFactor in
  (* Compute new total *)
  let b := breakdown (summary original) in
  let newTotal :=
    materials b + manufacturing b + transport b + use b + newEol in
  (* Clone and update links *)
  let newLinks :=
    map (fun link =>
           if is_eol_edge link
           then {| source := source link;
                   target := target link;
                   value :=
                     JS.Math_round (JS.Math_abs newEol * 10000) / 10000 |}
           else link)
        (links original) in
  (* Clone and update summary *)
  let newSummary :=
    {| total_co2e_kg := JS.Math_round (newTotal * 10000) / 10000;
       breakdown :=
         {| materials := materials b;
            manufacturing := manufacturing b;
            transport := transport b;
            use := use b;
            end_of_life := JS.Math_round (newEol * 10000) / 10000 |};
       weight_kg := weight_kg (summary original);
       category := category (summary original);
       eol_scenario := scenario |} in
  {| nodes := nodes original;
     links := newLinks;
     summary := newSummary;
     per_material_weights := per_material_weights original;
     material_details := material_details original |}.

(** ** Quantities the statements name *)

(** [Math.round(x * 10000) / 10000], the expression [recalculateEOL]
    applies to each of the three numbers it emits. *)
Definition round4 (x : Q) : Q := JS.Math_round (x * 10000) / 10000.

(** The values of the locals [newEol] and [newTotal]. *)
Definition exact_eol (original : SankeyData) (scenario : string) : Q :=
  newEol (per_material_weights original)
         (blendedFactor (selected_mix scenario)).


(** The values of the eol-to-total links of a result. *)
Definition eol_edge_values (data : SankeyData) : list Q :=
  map value (filter is_eol_edge (links data)).

(** The fields a scenario decides, its name apart. *)
Definition numeric_outcome (data : SankeyData) : Q * Q * list SankeyLink :=
  (end_of_life (breakdown (summary data)),
   total_co2e_kg (summary data),
   links data).

(** ** The specification's reading *)

Module Spec.

(** Section 6: disposal-method factors (kg CO2e per kg). *)
Definition method_factors : list (string * Q) :=
  [ ("landfill", 0.5); ("incineration", 1.0); ("recycling", -0.3) ].

(** Section 6: predefined scenario table. *)
Definition predefined_scenarios : list (string * list (string * Q)) :=
  [ ("baseline",
     [ ("landfill", 0.6); ("incineration", 0.2); ("recycling", 0.2) ]);
    ("best_case",
     [ ("landfill", 0.1); ("incineration", 0.1); ("recycling", 0.8) ]);
    ("worst_case",
     [ ("landfill", 0.8); ("incineration", 0.2); ("recycling", 0.0) ]) ].

Definition scenario_names : list string :=
  [ "baseline"; "best_case"; "worst_case" ].

(** Section 4.1: a lookup either resolves or is the error
    [UnknownFactorKey]. *)
Inductive result (A : Type) : Type :=
| Ok (a : A)
| UnknownFactorKey (key : string).
Arguments Ok {A} a.
Arguments UnknownFactorKey {A} key.

(** Sum of a list of numbers. *)
Definition sum (xs : list Q) : Q := fold_right Qplus 0 xs.

(** Section 4.2: EOL impact, the sum over the materials of weight times
    blended factor. *)
Definition eol_impact (weights : list Q) (blended : Q) : Q :=
  sum (map (fun weight => weight * blended) weights).

End Spec.


(** ** The function over IEEE doubles *)

(** A decimal literal denotes the nearest double, as it does in
    JavaScript. *)
Set Warnings "-inexact-float".

Module Binary64.

Local Open Scope float_scope.

(** *** Numbers *)

(** The sign bit of a double; NaN has none. *)
Definition is_negative (x : float) : bool :=
  match Prim2SF x with
  | S754_zero s | S754_infinity s | S754_finite s _ _ => s
  | S754_nan => false
  end.

(** The double [(-1)^s * m * 2^e] lies half-way between two consecutive
    integers: below the binary point it has the single bit 1/2. *)
Definition half_way (x : float) : bool :=
  match Prim2SF x with
  | S754_finite _ m e =>
      (e <? 0)%Z && (Z.pos m mod 2 ^ (- e) =? 2 ^ (- e - 1))%Z
  | _ => false
  end.

(** The floor of [(-1)^s * m * 2^e + 1/2] for [e < 0], taken exactly. *)
Definition nearest (s : bool) (m : positive) (e : Z) : Z :=
  let n := if s then Z.neg m else Z.pos m in
  Z.shiftr (n + Z.shiftl 1 (- e - 1)) (- e).

(** The double of a natural number below 2^63, exact below 2^53. *)
Definition of_integer (z : Z) : float := of_uint63 (Uint63.of_Z z).

(** [Math.round] on a double [(-1)^s * m * 2^e]: an integer already when
    [0 <= e]; otherwise the floor of [x + 1/2], taken exactly, with the
    sign of [x] when that is zero.  NaN, the infinities and the zeros are
    returned as they are. *)
Definition Math_round (x : float) : float :=
  match Prim2SF x with
  | S754_finite s m e =>
      if (0 <=? e)%Z then x
      else
        let z := nearest s m e in
        if s then - of_integer (- z) else of_integer z
  | _ => x
  end.

Definition Math_abs (x : float) : float := abs x.

(** The rational number a double denotes; 0 for NaN and the infinities,
    which [is_finite] tells apart. *)
Definition SFvalue (x : spec_float) : Q :=
  match x with
  | S754_finite s m e =>
      (inject_Z (if s then Z.neg m else Z.pos m) * 2 ^ e)%Q
  | _ => 0%Q
  end.

Definition SFfinite (x : spec_float) : bool :=
  match x with
  | S754_zero _ | S754_finite _ _ _ => true
  | _ => false
  end.

Definition to_Q (x : float) : Q := SFvalue (Prim2SF x).

Definition is_finite (x : float) : bool := SFfinite (Prim2SF x).

(** A weight as an analysis gives it: a finite double that is not
    negative. *)
Definition is_weight (w : float) : bool :=
  is_finite w && Qle_bool 0 (to_Q w).

(** The relative error of one rounding, with room to spare, and the
    absolute error where a result is subnormal. *)
Definition eps : Q := (2 ^ (-51))%Q.

Definition tiny : Q := ((3 # 2) * 2 ^ (-1074))%Q.

(** Where the exact number [X] lies with respect to the integer part [m]
    kept in a shift record of [SpecFloat]: [m <= X < m + 1], the round bit
    tells whether [X] has reached [m + 1/2], the sticky bit whether it is
    neither [m] nor [m + 1/2]. *)
Definition located (mrs : shr_record) (X : Q) : Prop :=
  (inject_Z (shr_m mrs) <= X < inject_Z (shr_m mrs) + 1
   /\ (shr_r mrs = true <-> inject_Z (shr_m mrs) + (1 # 2) <= X)
   /\ (shr_s mrs = true <->
       ~ (X == inject_Z (shr_m mrs)
          \/ X == inject_Z (shr_m mrs) + (1 # 2))))%Q.

(** The same for a location. *)
Definition located_loc (m : Z) (l : location) (X : Q) : Prop :=
  match l with
  | loc_Exact => (X == inject_Z m)%Q
  | loc_Inexact Lt => (inject_Z m < X < inject_Z m + (1 # 2))%Q
  | loc_Inexact Eq => (X == inject_Z m + (1 # 2))%Q
  | loc_Inexact Gt => (inject_Z m + (1 # 2) < X < inject_Z m + 1)%Q
  end.

(** *** Types *)

Record SankeyLink : Type := mkSankeyLink {
  source : string;
  target : string;
  value : float
}.

Record Breakdown : Type := mkBreakdown {
  materials : float;
  manufacturing : float;
  transport : float;
  use : float;
  end_of_life : float
}.

Record Summary : Type := mkSummary {
  total_co2e_kg : float;
  breakdown : Breakdown;
  weight_kg : float;
  category : string;
  eol_scenario : string
}.

Record MaterialDetail : Type := mkMaterialDetail {
  name : string;
  fraction : float;
  detail_weight_kg : float;
  impact_kg_co2e : float;
  factor : float
}.

Record SankeyData : Type := mkSankeyData {
  nodes : list SankeyNode;
  links : list SankeyLink;
  summary : Summary;
  per_material_weights : list (string * float);
  material_details : list MaterialDetail
}.

(** *** EOL constants *)

Definition EOL_METHOD_FACTORS : list (string * float) :=
  [ ("landfill", 0.5);
    ("incineration", 1.0);
    ("recycling", -0.3) ].

Definition EOL_SCENARIOS : list (string * list (string * float)) :=
  [ ("baseline",
     [ ("landfill", 0.6); ("incineration", 0.2); ("recycling", 0.2) ]);
    ("best_case",
     [ ("landfill", 0.1); ("incineration", 0.1); ("recycling", 0.8) ]);
    ("worst_case",
     [ ("landfill", 0.8); ("incineration", 0.2); ("recycling", 0.0) ]) ].

(** [EOL_SCENARIOS.baseline] *)
Definition EOL_SCENARIOS_baseline : list (string * float) :=
  [ ("landfill", 0.6); ("incineration", 0.2); ("recycling", 0.2) ].

(** *** Recalculation function *)

(** [EOL_SCENARIOS[scenario] ?? EOL_SCENARIOS.baseline] *)
Definition selected_mix (scenario : string)
  : JS.value (list (string * float)) :=
  JS.nullish (JS.get EOL_SCENARIOS scenario) (JS.Own EOL_SCENARIOS_baseline).

(** The operand [v] of [fraction * v]: a member inherited from
    [Object.prototype] is a function or an object, whose conversion to a
    number is NaN. *)
Definition operand (v : JS.value float) : float :=
  match v with
  | JS.Own f => f
  | JS.Inherited => nan
  end.

(** The callback [(sum, [method, fraction]) =>
      sum + fraction * (EOL_METHOD_FACTORS[method] ?? 0)] *)
Definition method_step (sum : float) (entry : string * float) : float :=
  let '(method, fraction) := entry in
  sum + fraction
        * operand (JS.nullish (JS.get EOL_METHOD_FACTORS method) (JS.Own 0)).

(** [Object.entries(mix).reduce(..., 0)] *)
Definition blendedFactor (mix : JS.value (list (string * float))) : float :=
  fold_left method_step (JS.entries mix) 0.

(** [Object.values(weights).reduce((sum, weight) =>
      sum + weight * blendedFactor, 0)] *)
Definition newEol (weights : list (string * float)) (blendedFactor : float)
  : float :=
  fold_left (fun sum weight => sum + weight * blendedFactor)
            (JS.values weights) 0.

(** [link.source === "eol" && link.target === "total"] *)
Definition is_eol_edge (link : SankeyLink) : bool :=
  (source link =? "eol")%string && (target link =? "total")%string.

Definition recalculateEOL (original : SankeyData) (scenario : string)
  : SankeyData :=
  let mix := selected_mix scenario in
  (* Compute blended EOL factor for this scenario *)
  let blendedFactor := blendedFactor mix in
  (* Compute new EOL total from per-material weights *)
  let newEol := newEol (per_material_weights original) blendedFactor in
  (* Compute new total *)
  let b := breakdown (summary original) in
  let newTotal :=
    materials b + manufacturing b + transport b + use b + newEol in
  (* Clone and update links *)
  let newLinks :=
    map (fun link =>
           if is_eol_edge link
           then {| source := source link;
                   target := target link;
                   value := Math_round (Math_abs newEol * 10000) / 10000 |}
           else link)
        (links original) in
  (* Clone and update summary *)
  let newSummary :=
    {| total_co2e_kg := Math_round (newTotal * 10000) / 10000;
       breakdown :=
         {| materials := materials b;
            manufacturing := manufacturing b;
            transport := transport b;
            use := use b;
            end_of_life := Math_round (newEol * 10000) / 10000 |};
       weight_kg := weight_kg (summary original);
       category := category (summary original);
       eol_scenario := scenario |} in
  {| nodes := nodes original;
     links := newLinks;
     summary := newSummary;
     per_material_weights := per_material_weights original;
     material_details := material_details original |}.

(** *** Quantities the statements name *)

(** [Math.round(x * 10000) / 10000] *)
Definition round4 (x : float) : float := Math_round (x * 10000) / 10000.

(** [Math.round(x * 10000)], the number of units of the fourth decimal
    that [round4] divides by 10000. *)
Definition units4 (x : float) : float := Math_round (x * 10000).

(** The sum of the numbers that a list of doubles denotes, without any
    rounding. *)
Definition exact_sum (xs : list float) : Q :=
  fold_right (fun x sum => (to_Q x + sum)%Q) 0%Q xs.

(** The values of the locals [newEol] and [newTotal]. *)
Definition local_newEol (original : SankeyData) (scenario : string) : float :=
  newEol (per_material_weights original)
         (blendedFactor (selected_mix scenario)).

Definition local_newTotal (original : SankeyData) (scenario : string)
  : float :=
  let b := breakdown (summary original) in
  materials b + manufacturing b + transport b + use b
  + local_newEol original scenario.

(** The values of the eol-to-total links of a result. *)
Definition eol_edge_values (data : SankeyData) : list float :=
  map value (filter is_eol_edge (links data)).

(** *** Sample data *)

(** The concrete scenario example of the specification: 1.0 kg of a single
    material with extraction factor 2.0, analysed with the baseline mix. *)
Definition sample : SankeyData :=
  {| nodes :=
       [ mkSankeyNode "steel" "Steel" "materials";
         mkSankeyNode "materials" "Raw Materials" "materials";
         mkSankeyNode "eol" "End of Life" "end_of_life";
         mkSankeyNode "total" "Total" "total" ];
     links :=
       [ mkSankeyLink "steel" "materials" 2.0;
         mkSankeyLink "materials" "total" 2.0;
         mkSankeyLink "eol" "total" 0.44 ];
     summary :=
       {| total_co2e_kg := 3.34;
          breakdown := mkBreakdown 2.0 0.3 0.5 0.1 0.44;
          weight_kg := 1.0;
          category := "tools";
          eol_scenario := "baseline" |};
     per_material_weights := [ ("steel", 1.0) ];
     material_details := [ mkMaterialDetail "steel" 1.0 1.0 2.0 2.0 ] |}.

(** A product of 5.795 kg in two materials: under best_case the product
    of its end-of-life value by 10000 is the double -5215.5. *)
Definition tie_sample : SankeyData :=
  {| nodes :=
       [ mkSankeyNode "aluminum" "Aluminum" "materials";
         mkSankeyNode "polypropylene" "Polypropylene" "materials";
         mkSankeyNode "materials" "Raw Materials" "materials";
         mkSankeyNode "eol" "End of Life" "end_of_life";
         mkSankeyNode "total" "Total" "total" ];
     links :=
       [ mkSankeyLink "aluminum" "materials" 22.44;
         mkSankeyLink "polypropylene" "materials" 5.98;
         mkSankeyLink "materials" "total" 28.42;
         mkSankeyLink "eol" "total" 2.5498 ];
     summary :=
       {| total_co2e_kg := 39.6623;
          breakdown := mkBreakdown 28.42 5.795 2.8975 0 2.5498;
          weight_kg := 5.795;
          category := "furniture";
          eol_scenario := "baseline" |};
     per_material_weights := [ ("aluminum", 2.805); ("polypropylene", 2.99) ];
     material_details :=
       [ mkMaterialDetail "aluminum" 0.484 2.805 22.44 8.0;
         mkMaterialDetail "polypropylene" 0.516 2.99 5.98 2.0 ] |}.

(** [data] with other per-material weights and other values of the four
    phases that a recalculation keeps. *)
Definition with_inputs (data : SankeyData) (weights : list (string * float))
  (materials manufacturing transport use : float) : SankeyData :=
  {| nodes := nodes data;
     links := links data;
     summary :=
       {| total_co2e_kg := total_co2e_kg (summary data);
          breakdown :=
            mkBreakdown materials manufacturing transport use
                        (end_of_life (breakdown (summary data)));
          weight_kg := weight_kg (summary data);
          category := category (summary data);
          eol_scenario := eol_scenario (summary data) |};
     per_material_weights := weights;
     material_details := material_details data |}.


(** 0.035 kg with the phases of the specification's example. *)
Definition light_sample : SankeyData :=
  with_inputs sample [ ("steel", 0.035) ] 2 0.3 0.5 0.1.


(** Inputs outside the magnitudes of an analysis.  Weights of 1e17, 1.0
    and -1e17 kg, which add up to 1.0 kg; materials of 1e16 with 1.0 kg;
    and materials of 1000000000039.63 with 0.035 kg. *)
Definition cancelling_sample : SankeyData :=
  with_inputs sample
    [ ("steel", 1e17); ("copper", 1.0); ("glass", -1e17) ] 2 0.3 0.5 0.1.

Definition absorbing_sample : SankeyData :=
  with_inputs sample [ ("steel", 1.0) ] 1e16 0 0 0.

Definition coarse_sample : SankeyData :=
  with_inputs sample [ ("steel", 0.035) ] 1000000000039.63 0 0 0.

(** Three materials of 1.61625 kg in all, enumerated in two orders. *)
Definition three_materials : SankeyData :=
  with_inputs sample
    [ ("steel", 0.64988); ("copper", 0.09305); ("glass", 0.87332) ]
    2 0.3 0.5 0.1.

Definition three_materials_reordered : SankeyData :=
  with_inputs sample
    [ ("steel", 0.64988); ("glass", 0.87332); ("copper", 0.09305) ]
    2 0.3 0.5 0.1.

End Binary64.

(** ** The specification's reading, in doubles *)

Module Spec64.

Local Open Scope float_scope.

(** Section 6: disposal-method factors (kg CO2e per kg). *)
Definition method_factors : list (string * float) :=
  [ ("landfill", 0.5); ("incineration", 1.0); ("recycling", -0.3) ].




(** Section 4.2: EOL impact, the sum over the materials of weight times
    blended factor, added up from 0 in the order of the weights. *)
Definition eol_impact (weights : list float) (blended : float) : float :=
  fold_left (fun sum weight => sum + weight * blended) weights 0.

(** Section 4.4: round-half-away-from-zero at 4 decimals: the sign of [x]
    times round-half-up of [|x|].  Round-half-up of a number that is not
    negative is nearest, a tie going up, which [Binary64.round4] is. *)
Definition round_half_away4 (x : float) : float :=
  if Binary64.is_negative x then - Binary64.round4 (abs x)
  else Binary64.round4 (abs x).


End Spec64.

(** ** Sample data *)

(** The concrete scenario example of the specification: 1.0 kg of a single
    material with extraction factor 2.0, analysed with the baseline mix. *)
Definition sample : SankeyData :=
  {| nodes :=
       [ mkSankeyNode "steel" "Steel" "materials";
         mkSankeyNode "materials" "Raw Materials" "materials";
         mkSankeyNode "eol" "End of Life" "end_of_life";
         mkSankeyNode "total" "Total" "total" ];
     links :=
       [ mkSankeyLink "steel" "materials" 2.0;
         mkSankeyLink "materials" "total" 2.0;
         mkSankeyLink "eol" "total" 0.44 ];
     summary :=
       {| total_co2e_kg := 3.34;
          breakdown := mkBreakdown 2.0 0.3 0.5 0.1 0.44;
          weight_kg := 1.0;
          category := "tools";
          eol_scenario := "baseline" |};
     per_material_weights := [ ("steel", 1.0) ];
     material_details := [ mkMaterialDetail "steel" 1.0 1.0 2.0 2.0 ] |}.

(** A product of 5.795 kg in two materials: under best_case its exact
    end-of-life value is -0.52155, half-way between two 4-decimal
    numbers. *)
Definition tie_sample : SankeyData :=
  {| nodes :=
       [ mkSankeyNode "aluminum" "Aluminum" "materials";
         mkSankeyNode "polypropylene" "Polypropylene" "materials";
         mkSankeyNode "materials" "Raw Materials" "materials";
         mkSankeyNode "eol" "End of Life" "end_of_life";
         mkSankeyNode "total" "Total" "total" ];
     links :=
       [ mkSankeyLink "aluminum" "materials" 22.44;
         mkSankeyLink "polypropylene" "materials" 5.98;
         mkSankeyLink "materials" "total" 28.42;
         mkSankeyLink "eol" "total" 2.5498 ];
     summary :=
       {| total_co2e_kg := 39.6623;
          breakdown := mkBreakdown 28.42 5.795 2.8975 0 2.5498;
          weight_kg := 5.795;
          category := "furniture";
          eol_scenario := "baseline" |};
     per_material_weights := [ ("aluminum", 2.805); ("polypropylene", 2.99) ];
     material_details :=
       [ mkMaterialDetail "aluminum" 0.484 2.805 22.44 8.0;
         mkMaterialDetail "polypropylene" 0.516 2.99 5.98 2.0 ] |}.

(** ** Library functions the components use *)

Module JSLib.

(** [Math.max(...xs, last)]: the largest of the numbers. *)
Definition Math_max (xs : list Q) (last : Q) : Q := fold_right Qmax last xs.

(** [arr.sort(compare)]: a stable sort; [compare a b < 0] puts [a] before
    [b], [0] keeps their order.  For a consistent comparator the result
    is the one a stable insertion sort gives. *)
Fixpoint insert {A : Type} (compare : A -> A -> Q) (x : A) (l : list A)
  : list A :=
  match l with
  | [] => [x]
  | y :: l' =>
      if Qle_bool (compare x y) 0 then x :: y :: l'
      else y :: insert compare x l'
  end.

Definition Array_sort {A : Type} (compare : A -> A -> Q) (l : list A)
  : list A :=
  fold_right (insert compare) [] l.

(** [s.replace(/_/g, " ")] *)
Fixpoint replace_underscores (s : string) : string :=
  match s with
  | EmptyString => EmptyString
  | String c s' =>
      String (if Ascii.eqb c "_"%char then " "%char else c)
             (replace_underscores s')
  end.

(** [x > y] on numbers. *)
Definition gt (x y : Q) : bool := negb (Qle_bool x y).

End JSLib.

(** ** [SCENARIO_LABELS] of [lib/eol-recalc.ts] *)

Definition SCENARIO_LABELS : list (string * string) :=
  [ ("baseline", "Baseline");
    ("best_case", "Best Case (Recycling)");
    ("worst_case", "Worst Case (Landfill)") ].

(** ** [SankeyChart]: what is handed to the layout

    The node and link lists the component builds from its data before it
    calls the d3 layout; the layout itself and the drawing are left
    out. *)

Module SankeyChart.

(** [nodeMap], a [Map<string, number>] that is only written with [set] and
    read with [get]: the list of its [set] calls, the latest first. *)
Definition Map_set (k : string) (v : nat) (m : list (string * nat))
  : list (string * nat) :=
  (k, v) :: m.

Definition Map_get (m : list (string * nat)) (k : string) : option nat :=
  JS.assoc k m.

(** [{ ...n, nodeIndex: i }] *)
Record Node : Type := mkNode {
  node : SankeyNode;
  nodeIndex : nat
}.

(** [data.nodes.map((n, i) => { nodeMap.set(n.id, i); return {...} })],
    from index [i] on and with the map [m] written so far. *)
Fixpoint index_nodes (i : nat) (ns : list SankeyNode)
  (m : list (string * nat)) : list Node * list (string * nat) :=
  match ns with
  | [] => ([], m)
  | n :: rest =>
      let '(out, m') := index_nodes (S i) rest (Map_set (id n) i m) in
      (mkNode n i :: out, m')
  end.

Definition nodeMap (data : SankeyData) : list (string * nat) :=
  snd (index_nodes 0 (nodes data) []).

Definition nodes (data : SankeyData) : list Node :=
  fst (index_nodes 0 (nodes data) []).

Record Link : Type := mkLink {
  source : nat;
  target : nat;
  value : Q
}.

(** [nodeMap.get(k) ?? 0] *)
Definition index_or_zero (m : list (string * nat)) (k : string) : nat :=
  match Map_get m k with
  | Some i => i
  | None => 0%nat
  end.

(** [data.links.filter((l) => l.value > 0.001).map((l) => ({...}))] *)
Definition links (data : SankeyData) : list Link :=
  map (fun l =>
         let '(mkSankeyLink s t v) := l in
         {| source := index_or_zero (nodeMap data) s;
            target := index_or_zero (nodeMap data) t;
            value := v |})
      (filter (fun l => let '(mkSankeyLink _ _ v) := l in JSLib.gt v 0.001)
              (links data)).

End SankeyChart.

(** ** [SummaryCard]: the phase bars and the material rows

    The numbers behind each bar and the order of the rows; the text
    formatting ([toFixed]) and the styling are left out. *)

Module SummaryCard.

(** [Object.entries(breakdown)], the keys in the order of the interface. *)
Definition entries (b : Breakdown) : list (string * Q) :=
  [ ("materials", materials b);
    ("manufacturing", manufacturing b);
    ("transport", transport b);
    ("use", use b);
    ("end_of_life", end_of_life b) ].

(** [([, a], [, b]) => Math.abs(b) - Math.abs(a)] *)
Definition compare_phases (x y : string * Q) : Q :=
  JS.Math_abs (snd y) - JS.Math_abs (snd x).

Definition phases (entries : list (string * Q)) : list (string * Q) :=
  JSLib.Array_sort compare_phases entries.

(** [Math.max(...phases.map(([, v]) => Math.abs(v)), 0.01)] *)
Definition maxPhaseValue (phases : list (string * Q)) : Q :=
  JSLib.Math_max (map (fun p => JS.Math_abs (snd p)) phases) 0.01.

(** One bar: the number printed, the share of the widest bar, the
    [width] style in percent, and whether the value is a credit. *)
Record Bar : Type := mkBar {
  phase : string;
  value : Q;
  pct : Q;
  isNegative : bool;
  width : Q
}.

Definition bar (maxPhaseValue : Q) (p : string * Q) : Bar :=
  let '(phase, value) := p in
  let absValue := JS.Math_abs value in
  let pct := (absValue / maxPhaseValue) * 100 in
  {| phase := phase;
     value := value;
     pct := pct;
     isNegative := JSLib.gt 0 value;
     width := Qmax pct 2 |}.

Definition bars (entries : list (string * Q)) : list Bar :=
  let phases := phases entries in
  map (bar (maxPhaseValue phases)) phases.

(** [(a, b) => Math.abs(b.impact_kg_co2e) - Math.abs(a.impact_kg_co2e)] *)
Definition compare_materials (a b : MaterialDetail) : Q :=
  JS.Math_abs (impact_kg_co2e b) - JS.Math_abs (impact_kg_co2e a).

(** [material_details.sort(...)], the order of the rows. *)
Definition sorted_materials (details : list MaterialDetail)
  : list MaterialDetail :=
  JSLib.Array_sort compare_materials details.

(** The name printed in a row. *)
Definition shown_name (m : MaterialDetail) : string :=
  JSLib.replace_underscores (name m).

End SummaryCard.

(** ** [WhatIfSlider]: the scenario buttons and the mix shown

    Which buttons exist and which is pressed, and the rows of the mix
    panel; icons, colours and text formatting are left out. *)

Module WhatIfSlider.

Record Button : Type := mkButton {
  key : string;
  label : string;
  isActive : bool
}.

(** [Object.entries(SCENARIO_LABELS).map(([key, label]) => ...)] *)
Definition buttons (activeScenario : string) : list Button :=
  map (fun '(key, label) =>
         {| key := key;
            label := label;
            isActive := (activeScenario =? key)%string |})
      SCENARIO_LABELS.

(** [EOL_SCENARIOS[activeScenario] ?? EOL_SCENARIOS.baseline] *)
Definition currentMix (activeScenario : string)
  : JS.value (list (string * Q)) :=
  JS.nullish (JS.get EOL_SCENARIOS activeScenario)
             (JS.Own EOL_SCENARIOS_baseline).

Record MixRow : Type := mkMixRow {
  method : string;
  pct : Q;
  factor : JS.value Q
}.

(** [Object.entries(currentMix).map(([method, fraction]) => ...)] *)
Definition rows (activeScenario : string) : list MixRow :=
  map (fun '(method, fraction) =>
         {| method := method;
            pct := fraction * 100;
            factor :=
              JS.nullish (JS.get EOL_METHOD_FACTORS method) (JS.Own 0) |})
      (JS.entries (currentMix activeScenario)).

End WhatIfSlider.

(** ** [Home]: the state of the page and its handlers

    The [useState] cells of [app/page.tsx] as one record.  The state
    updates a handler makes in one synchronous stretch are applied
    together, as React batches them; an [await] ends the stretch. *)

Module Home.

Record State : Type := mkState {
  asin : string;
  description : string;
  loading : bool;
  error : option string;
  originalData : option SankeyData;
  displayData : option SankeyData;
  activeScenario : string
}.

(** The [useState] initial values. *)
Definition initial : State :=
  {| asin := "";
     description := "";
     loading := false;
     error := None;
     originalData := None;
     displayData := None;
     activeScenario := "baseline" |}.

(** [handleScenarioChange]: nothing without [originalData]; otherwise the
    selector is stored and the display recomputed from [originalData]. *)
Definition handleScenarioChange (st : State) (scenario : string) : State :=
  match originalData st with
  | None => st
  | Some original =>
      {| asin := asin st;
         description := description st;
         loading := loading st;
         error := error st;
         originalData := originalData st;
         displayData := Some (recalculateEOL original scenario);
         activeScenario := scenario |}
  end.

(** [handleAnalyze] up to its first [await].  [blank] tells whether
    [asin.trim()] is the empty string. *)
Definition handleAnalyze_begin (blank : bool) (st : State) : State :=
  if blank then
    {| asin := asin st;
       description := description st;
       loading := loading st;
       error := Some "Please enter a product ASIN to get started.";
       originalData := originalData st;
       displayData := displayData st;
       activeScenario := activeScenario st |}
  else
    {| asin := asin st;
       description := description st;
       loading := true;
       error := None;
       originalData := None;
       displayData := None;
       activeScenario := "baseline" |}.

(** How the request ends: the parsed body of a successful response, or
    the message of the error thrown on the way. *)
Inductive Outcome : Type :=
| Succeeded (data : SankeyData)
| Failed (message : string).

(** [handleAnalyze] after the [await]s: the [try] body or the [catch],
    then the [finally]. *)
Definition handleAnalyze_end (outcome : Outcome) (st : State) : State :=
  match outcome with
  | Succeeded data =>
      {| asin := asin st;
         description := description st;
         loading := false;
         error := error st;
         originalData := Some data;
         displayData := Some data;
         activeScenario := activeScenario st |}
  | Failed message =>
      {| asin := asin st;
         description := description st;
         loading := false;
         error := Some message;
         originalData := originalData st;
         displayData := displayData st;
         activeScenario := activeScenario st |}
  end.

(** What can happen to the page.  A scenario button exists for each key
    of [SCENARIO_LABELS] and only those; a request may end at any time
    (several can be in flight, since the Enter key starts one while
    another is loading). *)
Inductive Event : Type :=
| SetAsin (text : string)
| SetDescription (text : string)
| AnalyzeBegin (blank : bool)
| AnalyzeEnd (outcome : Outcome)
| ScenarioButton (key : string).

Definition enabled (st : State) (e : Event) : Prop :=
  match e with
  | ScenarioButton key =>
      In key (map fst SCENARIO_LABELS) /\ displayData st <> None
  | _ => True
  end.

Definition step (st : State) (e : Event) : State :=
  match e with
  | SetAsin text =>
      {| asin := text;
         description := description st;
         loading := loading st;
         error := error st;
         originalData := originalData st;
         displayData := displayData st;
         activeScenario := activeScenario st |}
  | SetDescription text =>
      {| asin := asin st;
         description := text;
         loading := loading st;
         error := error st;
         originalData := originalData st;
         displayData := displayData st;
         activeScenario := activeScenario st |}
  | AnalyzeBegin blank => handleAnalyze_begin blank st
  | AnalyzeEnd outcome => handleAnalyze_end outcome st
  | ScenarioButton key => handleScenarioChange st key
  end.

(** The states the page can be in. *)
Inductive reachable : State -> Prop :=
| reachable_initial : reachable initial
| reachable_step (st : State) (e : Event) :
    reachable st -> enabled st e -> reachable (step st e).

End Home.

(** * Properties *)

(** ** Rounding to 4 decimals *)





#[global] Instance Math_round_comp : Proper (Qeq ==> Qeq) JS.Math_round.
Proof.
  intros x y Hxy. unfold JS.Math_round.
  now rewrite (Qfloor_comp (x + 0.5) (y + 0.5)) by (rewrite Hxy; reflexivity).
Qed.


Section Rounding.

Variable x : Q.


End Rounding.

(** ** The two reductions *)

Section WeightLoop.

Variable blended : Q.





End WeightLoop.

Lemma method_loop_acc (mix : list (string * Q)) (acc : Q) :
  fold_left method_step mix acc == acc + fold_left method_step mix 0.
Proof.
  revert acc. induction mix as [| [method fraction] mix IH]; intros acc.
  - simpl. ring.
  - simpl. rewrite IH, (IH (0 + _)). ring.
Qed.

(** ** The scenario table *)

Lemma EOL_SCENARIOS_baseline_get :
  JS.get EOL_SCENARIOS "baseline" = Some (JS.Own EOL_SCENARIOS_baseline).
Proof. reflexivity. Qed.

(** Deciding a selector against the three keys of the table: one goal
    per key, with the selector replaced by it, and one for a selector that
    is none of them. *)
Ltac compare_keys scenario :=
  unfold EOL_SCENARIOS; cbn [JS.assoc];
  let E := fresh "E" in
  destruct ("baseline" =? scenario)%string eqn:E;
  [ apply String.eqb_eq in E; subst scenario
  | let E := fresh "E" in
    destruct ("best_case" =? scenario)%string eqn:E;
    [ apply String.eqb_eq in E; subst scenario
    | let E := fresh "E" in
      destruct ("worst_case" =? scenario)%string eqn:E;
      [ apply String.eqb_eq in E; subst scenario | ] ] ].

(** The mix is one of the three of the table, or an inherited member, or
    the baseline by default. *)
Lemma selected_mix_cases (scenario : string) :
  (exists mix, In (scenario, mix) EOL_SCENARIOS
               /\ selected_mix scenario = JS.Own mix)
  \/ (JS.assoc scenario EOL_SCENARIOS = None
      /\ JS.is_prototype_key scenario = true
      /\ selected_mix scenario = JS.Inherited)
  \/ (JS.get EOL_SCENARIOS scenario = None
      /\ selected_mix scenario = JS.Own EOL_SCENARIOS_baseline).
Proof.
  unfold selected_mix, JS.get. compare_keys scenario.
  1-3: left; eexists; split; [| reflexivity]; simpl; tauto.
  right. destruct (JS.is_prototype_key scenario); [left | right]; auto.
Qed.

Lemma predefined_own (scenario : string) :
  In scenario Spec.scenario_names ->
  exists mix, JS.assoc scenario EOL_SCENARIOS = Some mix
              /\ selected_mix scenario = JS.Own mix.
Proof.
  simpl. intros [<- | [<- | [<- | []]]]; eexists; split; reflexivity.
Qed.

Lemma not_predefined (scenario : string) :
  ~ In scenario Spec.scenario_names ->
  JS.assoc scenario EOL_SCENARIOS = None.
Proof.
  intros H. compare_keys scenario.
  1-3: exfalso; apply H; simpl; tauto.
  reflexivity.
Qed.

(** Every method of a selected mix is an own key of the factor table:
    neither the default [?? 0] nor an inherited member is ever read by
    [recalculateEOL]. *)
Lemma scenario_methods_own (scenario : string) :
  Forall (fun entry =>
            exists f, JS.get EOL_METHOD_FACTORS (fst entry) = Some (JS.Own f))
         (JS.entries (selected_mix scenario)).
Proof.
  destruct (selected_mix_cases scenario)
    as [(mix & Hin & ->) | [(_ & _ & ->) | (_ & ->)]]; simpl.
  - simpl in Hin.
    destruct Hin as [[= _ <-] | [[= _ <-] | [[= _ <-] | []]]];
      repeat constructor; eexists; reflexivity.
  - constructor.
  - repeat constructor; eexists; reflexivity.
Qed.




(** ** What [recalculateEOL] writes and what it keeps *)

Section Recalculation.

Variable original : SankeyData.
Variable scenario : string.



Lemma recalculateEOL_links :
  links (recalculateEOL original scenario)
  = map (fun link =>
           if is_eol_edge link
           then mkSankeyLink (source link) (target link)
                             (round4 (Qabs (exact_eol original scenario)))
           else link)
        (links original).
Proof. reflexivity. Qed.


End Recalculation.


(** Patching a patched link: the end points decide, and they are kept. *)
Lemma patch_twice (v1 v2 : Q) (link : SankeyLink) :
  let patch v l :=
    if is_eol_edge l then mkSankeyLink (source l) (target l) v else l in
  patch v2 (patch v1 link) = patch v2 link.
Proof.
  cbv beta zeta. destruct (is_eol_edge link) eqn:E; [| now rewrite E].
  unfold is_eol_edge in *. simpl. now rewrite E.
Qed.

(** Recalculating a recalculated result forgets the first scenario: every
    input of the computation is carried over unchanged. *)
Lemma recalculateEOL_absorb (original : SankeyData) (s1 s2 : string) :
  recalculateEOL (recalculateEOL original s1) s2 = recalculateEOL original s2.
Proof.
  unfold recalculateEOL; simpl. f_equal.
  rewrite map_map. apply map_ext. intros link. apply patch_twice.
Qed.

(** ** Doubles: signs *)

Section SpecFloatSigns.

Variables prec emax : Z.

Lemma SFopp_involutive (x : spec_float) : SFopp (SFopp x) = x.
Proof.
  destruct x as [s | s | | s m e]; simpl; now rewrite ?negb_involutive.
Qed.

Lemma SFabs_SFopp (x : spec_float) : SFabs (SFopp x) = SFabs x.
Proof. now destruct x. Qed.

(** The sign given to [binary_round_aux] is the sign of its result and
    decides nothing else. *)
Lemma binary_round_aux_sign (s s' : bool) (m e : Z) (l : location) :
  binary_round_aux prec emax s' m e l
  = match binary_round_aux prec emax s m e l with
    | S754_zero _ => S754_zero s'
    | S754_infinity _ => S754_infinity s'
    | S754_nan => S754_nan
    | S754_finite _ m' e' => S754_finite s' m' e'
    end.
Proof.
  unfold binary_round_aux.
  destruct (shr_fexp prec emax m e l) as [mrs e1].
  destruct (shr_fexp prec emax _ e1 loc_Exact) as [mrs' e2].
  destruct (shr_m mrs'); [reflexivity | | reflexivity].
  now destruct (e2 <=? emax - prec)%Z.
Qed.

(** A mantissa that is not negative stays so under the shifts, so that
    rounding it never gives NaN. *)
Lemma shr_1_nonneg (mrs : shr_record) :
  (0 <= shr_m mrs)%Z -> (0 <= shr_m (shr_1 mrs))%Z.
Proof.
  destruct mrs as [m r s]. simpl.
  destruct m as [| [p | p |] | [p | p |]]; simpl; lia.
Qed.

Lemma iter_pos_invariant {A : Type} (P : A -> Prop) (f : A -> A) :
  (forall a, P a -> P (f a)) ->
  forall (n : positive) (a : A), P a -> P (iter_pos f n a).
Proof.
  intros Hf. induction n as [n IH | n IH |]; intros a Ha; simpl; auto.
Qed.

Lemma shr_fexp_nonneg (m e : Z) (l : location) :
  (0 <= m)%Z -> (0 <= shr_m (fst (shr_fexp prec emax m e l)))%Z.
Proof.
  intros Hm. unfold shr_fexp, shr.
  assert (H0 : (0 <= shr_m (shr_record_of_loc m l))%Z)
    by (destruct l as [| []]; exact Hm).
  destruct (fexp prec emax (Zdigits2 m + e) - e)%Z; simpl; try exact H0.
  apply (iter_pos_invariant (fun mrs => (0 <= shr_m mrs)%Z));
    [exact shr_1_nonneg | exact H0].
Qed.

Lemma round_nearest_even_nonneg (m : Z) (l : location) :
  (0 <= m)%Z -> (0 <= round_nearest_even m l)%Z.
Proof.
  intros Hm. destruct l as [| []]; simpl; try lia.
  destruct (Z.even m); lia.
Qed.

Lemma binary_round_aux_not_nan (s : bool) (m e : Z) (l : location) :
  (0 <= m)%Z -> binary_round_aux prec emax s m e l <> S754_nan.
Proof.
  intros Hm. unfold binary_round_aux.
  pose proof (shr_fexp_nonneg m e l Hm) as H1.
  destruct (shr_fexp prec emax m e l) as [mrs e1]. simpl in H1.
  pose proof (shr_fexp_nonneg _ e1 loc_Exact
                (round_nearest_even_nonneg _ (loc_of_shr_record mrs) H1))
    as H2.
  destruct (shr_fexp prec emax _ e1 loc_Exact) as [mrs' e2]. simpl in H2.
  destruct (shr_m mrs'); [discriminate | | lia].
  destruct (e2 <=? emax - prec)%Z; discriminate.
Qed.

Lemma SFopp_binary_round_aux (s : bool) (m e : Z) (l : location) :
  SFopp (binary_round_aux prec emax s m e l)
  = binary_round_aux prec emax (negb s) m e l.
Proof.
  pose proof (binary_round_aux_sign s s m e l) as Hs.
  rewrite (binary_round_aux_sign s (negb s)).
  destruct (binary_round_aux prec emax s m e l); simpl; congruence.
Qed.

Lemma SFabs_binary_round_aux (s : bool) (m e : Z) (l : location) :
  SFabs (binary_round_aux prec emax s m e l)
  = binary_round_aux prec emax false m e l.
Proof.
  pose proof (binary_round_aux_sign s s m e l) as Hs.
  rewrite (binary_round_aux_sign s false).
  now destruct (binary_round_aux prec emax s m e l).
Qed.


Lemma SFdiv_SFopp_l (x y : spec_float) :
  SFdiv prec emax (SFopp x) y = SFopp (SFdiv prec emax x y).
Proof.
  destruct x as [sx | sx | | sx mx ex], y as [sy | sy | | sy my ey];
    simpl; rewrite ?negb_xorb_l; try reflexivity.
  destruct (SFdiv_core_binary prec emax (Z.pos mx) ex (Z.pos my) ey)
    as [[mz ez] lz].
  now rewrite SFopp_binary_round_aux, negb_xorb_l.
Qed.

(** Multiplying or dividing a magnitude by a positive finite number. *)
Lemma SFmul_SFabs_l (x : spec_float) (my : positive) (ey : Z) :
  SFmul prec emax (SFabs x) (S754_finite false my ey)
  = SFabs (SFmul prec emax x (S754_finite false my ey)).
Proof.
  destruct x as [sx | sx | | sx mx ex]; simpl;
    rewrite ?SFabs_binary_round_aux, ?xorb_false_r; reflexivity.
Qed.

Lemma SFdiv_SFabs_l (x : spec_float) (my : positive) (ey : Z) :
  SFdiv prec emax (SFabs x) (S754_finite false my ey)
  = SFabs (SFdiv prec emax x (S754_finite false my ey)).
Proof.
  destruct x as [sx | sx | | sx mx ex]; simpl; try reflexivity.
  destruct (SFdiv_core_binary prec emax (Z.pos mx) ex (Z.pos my) ey)
    as [[mz ez] lz].
  now rewrite SFabs_binary_round_aux.
Qed.

End SpecFloatSigns.

(** The integer [Math.round] takes: below zero it mirrors the one above
    zero, except at a tie, which goes up on both sides. *)
Section Nearest.

Variable m : positive.
Variable e : Z.
Hypothesis negative_exponent : (e < 0)%Z.

Let K : Z := (2 ^ (- e))%Z.
Let h : Z := (2 ^ (- e - 1))%Z.

Lemma nearest_div (s : bool) :
  Binary64.nearest s m e
  = (((if s then Z.neg m else Z.pos m) + h) / K)%Z.
Proof.
  unfold Binary64.nearest, K, h.
  rewrite Z.shiftr_div_pow2, Z.shiftl_1_l by lia. reflexivity.
Qed.

Lemma two_halves : (K = 2 * h /\ 0 < h)%Z.
Proof.
  unfold K, h. split.
  - rewrite <- Z.pow_succ_r by lia. f_equal. lia.
  - apply Z.pow_pos_nonneg; lia.
Qed.

Lemma nearest_mirrored :
  (Z.pos m mod K <> h)%Z ->
  Binary64.nearest true m e = (- Binary64.nearest false m e)%Z.
Proof.
  intros Hno. rewrite !nearest_div.
  destruct two_halves as [HK Hh].
  set (a := (Z.pos m + h)%Z).
  pose proof (Z.div_mod a K ltac:(lia)) as Ha.
  pose proof (Z.mod_pos_bound a K ltac:(lia)) as Hr.
  assert (Hnz : (a mod K <> 0)%Z).
  { intros Hz. apply Hno.
    symmetry. apply (Z.mod_unique _ _ (a / K - 1)); lia. }
  symmetry. apply (Z.div_unique _ _ _ (K - a mod K)); lia.
Qed.

Lemma nearest_tie :
  (Z.pos m mod K = h)%Z ->
  exists j : Z,
    (0 <= j)%Z
    /\ Binary64.nearest true m e = (- j)%Z
    /\ Binary64.nearest false m e = (j + 1)%Z.
Proof.
  intros Htie. rewrite !nearest_div.
  destruct two_halves as [HK Hh].
  pose proof (Z.div_mod (Z.pos m) K ltac:(lia)) as Hm.
  rewrite Htie in Hm.
  exists (Z.pos m / K)%Z. split; [| split].
  - apply Z.div_pos; lia.
  - symmetry. apply (Z.div_unique _ _ _ 0); lia.
  - symmetry. apply (Z.div_unique _ _ _ 0); lia.
Qed.

End Nearest.

(** ** Doubles: opposite and magnitude *)

Section DoubleSigns.

Local Open Scope float_scope.

Lemma opp_involutive (x : float) : - - x = x.
Proof.
  apply Prim2SF_inj. rewrite !FloatAxioms.opp_spec.
  apply SFopp_involutive.
Qed.

Lemma abs_opp (x : float) : abs (- x) = abs x.
Proof.
  apply Prim2SF_inj. rewrite !FloatAxioms.abs_spec, FloatAxioms.opp_spec.
  apply SFabs_SFopp.
Qed.

Lemma abs_negative (x : float) :
  Binary64.is_negative x = true -> abs x = - x.
Proof.
  unfold Binary64.is_negative. intros H.
  apply Prim2SF_inj. rewrite FloatAxioms.abs_spec, FloatAxioms.opp_spec.
  destruct (Prim2SF x) as [s | s | | s m e]; subst; reflexivity.
Qed.

Lemma abs_nonnegative (x : float) :
  Binary64.is_negative x = false -> abs x = x.
Proof.
  unfold Binary64.is_negative. intros H.
  apply Prim2SF_inj. rewrite FloatAxioms.abs_spec.
  destruct (Prim2SF x) as [s | s | | s m e]; subst; reflexivity.
Qed.



Lemma div_opp_l (x y : float) : (- x) / y = - (x / y).
Proof.
  apply Prim2SF_inj.
  rewrite FloatAxioms.opp_spec, !FloatAxioms.div_spec, FloatAxioms.opp_spec.
  apply SFdiv_SFopp_l.
Qed.

(** 10000 is [5497558138880000 * 2^-39]. *)
Lemma Prim2SF_10000 :
  Prim2SF 10000 = S754_finite false 5497558138880000 (-39).
Proof. vm_compute. reflexivity. Qed.

Lemma abs_mul_10000 (x : float) : abs x * 10000 = abs (x * 10000).
Proof.
  apply Prim2SF_inj.
  rewrite FloatAxioms.abs_spec, !FloatAxioms.mul_spec, FloatAxioms.abs_spec.
  rewrite Prim2SF_10000.
  apply SFmul_SFabs_l.
Qed.

Lemma abs_div_10000 (x : float) : abs x / 10000 = abs (x / 10000).
Proof.
  apply Prim2SF_inj.
  rewrite FloatAxioms.abs_spec, !FloatAxioms.div_spec, FloatAxioms.abs_spec.
  rewrite Prim2SF_10000.
  apply SFdiv_SFabs_l.
Qed.

(** A double made from an unsigned integer has no sign. *)
Lemma abs_of_uint63 (n : int) : abs (of_uint63 n) = of_uint63 n.
Proof.
  apply Prim2SF_inj. rewrite FloatAxioms.abs_spec, FloatAxioms.of_uint63_spec.
  unfold binary_normalize.
  pose proof (Uint63.to_Z_bounded n) as Hn.
  destruct (Uint63.to_Z n) as [| p | p]; [reflexivity | | lia].
  unfold binary_round.
  destruct (shl_align p 0 _) as [mz ez].
  apply SFabs_binary_round_aux.
Qed.

End DoubleSigns.

(** ** Doubles: [Math.round] and the rounding to 4 decimals *)

Section MathRound.

Local Open Scope float_scope.

Lemma abs_of_integer (z : Z) :
  abs (Binary64.of_integer z) = Binary64.of_integer z.
Proof. apply abs_of_uint63. Qed.

(** Off the ties [Math.round] is odd. *)
Lemma Math_round_opp (x : float) :
  Binary64.half_way x = false ->
  Binary64.Math_round (- x) = - Binary64.Math_round x.
Proof.
  unfold Binary64.half_way, Binary64.Math_round.
  rewrite FloatAxioms.opp_spec.
  destruct (Prim2SF x) as [s | s | | s m e]; simpl; try reflexivity.
  destruct (0 <=? e)%Z eqn:He; [reflexivity |].
  apply Z.leb_gt in He. apply Z.ltb_lt in He as Hb. rewrite Hb. simpl.
  intros Hno. apply Z.eqb_neq in Hno.
  pose proof (nearest_mirrored m e He Hno) as Hm.
  destruct s; simpl; rewrite Hm, Z.opp_involutive.
  - now rewrite opp_involutive.
  - reflexivity.
Qed.

Lemma abs_Math_round_nonnegative (x : float) :
  Binary64.is_negative x = false ->
  abs (Binary64.Math_round x) = Binary64.Math_round x.
Proof.
  intros H. pose proof (abs_nonnegative x H) as Hx.
  unfold Binary64.is_negative in H. unfold Binary64.Math_round.
  destruct (Prim2SF x) as [s | s | | s m e]; try exact Hx.
  subst s. destruct (0 <=? e)%Z; [exact Hx | apply abs_of_integer].
Qed.

Lemma abs_Math_round_negative (x : float) :
  Binary64.is_negative x = true ->
  abs (Binary64.Math_round x) = - Binary64.Math_round x.
Proof.
  intros H. pose proof (abs_negative x H) as Hx.
  unfold Binary64.is_negative in H. unfold Binary64.Math_round.
  destruct (Prim2SF x) as [s | s | | s m e]; try exact Hx.
  subst s. destruct (0 <=? e)%Z; [exact Hx |].
  now rewrite abs_opp, abs_of_integer, opp_involutive.
Qed.

(** [Math.round] of a magnitude is the magnitude of [Math.round], unless
    the number is negative and half-way between two integers. *)
Lemma Math_round_abs (x : float) :
  Binary64.is_negative x && Binary64.half_way x = false ->
  Binary64.Math_round (abs x) = abs (Binary64.Math_round x).
Proof.
  destruct (Binary64.is_negative x) eqn:N; simpl; intros H.
  - now rewrite (abs_negative x N), (Math_round_opp x H),
      (abs_Math_round_negative x N).
  - now rewrite (abs_nonnegative x N), (abs_Math_round_nonnegative x N).
Qed.

(** At such a number, [-(j + 1/2)], [Math.round] gives [-j] and the
    magnitude is rounded to [j + 1]. *)
Lemma Math_round_negative_tie (x : float) :
  Binary64.is_negative x = true -> Binary64.half_way x = true ->
  exists j : Z,
    (0 <= j)%Z
    /\ Binary64.Math_round x = - Binary64.of_integer j
    /\ Binary64.Math_round (abs x) = Binary64.of_integer (j + 1).
Proof.
  intros N. rewrite (abs_negative x N). revert N.
  unfold Binary64.is_negative, Binary64.half_way, Binary64.Math_round.
  rewrite FloatAxioms.opp_spec.
  destruct (Prim2SF x) as [s | s | | s m e]; try discriminate.
  intros -> H. apply andb_prop in H as [He Htie].
  apply Z.ltb_lt in He. apply Z.eqb_eq in Htie.
  destruct (nearest_tie m e He Htie) as (j & Hj & Hneg & Hpos).
  exists j. simpl.
  assert (Hle : (0 <=? e)%Z = false) by (apply Z.leb_gt; exact He).
  rewrite Hle, Hneg, Hpos, Z.opp_involutive. auto.
Qed.

(** Multiplying by 10000 keeps the sign. *)
Lemma is_negative_mul_10000 (x : float) :
  Binary64.is_negative (x * 10000) = Binary64.is_negative x.
Proof.
  unfold Binary64.is_negative.
  rewrite FloatAxioms.mul_spec, Prim2SF_10000.
  destruct (Prim2SF x) as [s | s | | s m e]; simpl;
    rewrite ?xorb_false_r; try reflexivity.
  pose proof (binary_round_aux_not_nan prec emax s
                (Z.pos (m * 5497558138880000)) (e + -39) loc_Exact
                ltac:(lia)) as Hnan.
  rewrite (binary_round_aux_sign _ _ s s).
  now destruct (binary_round_aux prec emax s _ _ _).
Qed.


Lemma binary64_round4_abs (x : float) :
  Binary64.is_negative x && Binary64.half_way (x * 10000) = false ->
  Binary64.round4 (abs x) = abs (Binary64.round4 x).
Proof.
  intros H. unfold Binary64.round4.
  rewrite abs_mul_10000, Math_round_abs, abs_div_10000; [reflexivity |].
  now rewrite is_negative_mul_10000.
Qed.


(** ... where it is one unit of the fourth decimal above it. *)
Lemma binary64_round4_negative_tie (x : float) :
  Binary64.is_negative x = true ->
  Binary64.half_way (x * 10000) = true ->
  exists j : Z,
    (0 <= j)%Z
    /\ Binary64.round4 x = - (Binary64.of_integer j / 10000)
    /\ Binary64.round4 (abs x) = Binary64.of_integer (j + 1) / 10000
    /\ Spec64.round_half_away4 x
       = - (Binary64.of_integer (j + 1) / 10000).
Proof.
  intros N H.
  assert (Np : Binary64.is_negative (x * 10000) = true)
    by now rewrite is_negative_mul_10000.
  destruct (Math_round_negative_tie _ Np H) as (j & Hj & Hr & Ha).
  exists j. unfold Spec64.round_half_away4, Binary64.round4.
  rewrite N, abs_mul_10000, Hr, Ha, div_opp_l. auto.
Qed.

End MathRound.

(** ** Doubles: integers *)

Section Integers.

Lemma digits2_pos_size (p : positive) : digits2_pos p = Pos.size p.
Proof. induction p; simpl; congruence. Qed.

Lemma digits2_pos_bounds (p : positive) :
  (2 ^ (Z.pos (digits2_pos p) - 1) <= Z.pos p < 2 ^ Z.pos (digits2_pos p))%Z.
Proof.
  induction p as [p IH | p IH |]; cbn [digits2_pos].
  - rewrite Pos2Z.inj_succ. change (Z.pos p~1) with (2 * Z.pos p + 1)%Z.
    replace (Z.succ (Z.pos (digits2_pos p)) - 1)%Z
      with (Z.succ (Z.pos (digits2_pos p) - 1))%Z by lia.
    rewrite !Z.pow_succ_r by lia.
    set (a := (2 ^ (Z.pos (digits2_pos p) - 1))%Z) in *.
    set (b := (2 ^ Z.pos (digits2_pos p))%Z) in *.
    clearbody a b. lia.
  - rewrite Pos2Z.inj_succ. change (Z.pos p~0) with (2 * Z.pos p)%Z.
    replace (Z.succ (Z.pos (digits2_pos p)) - 1)%Z
      with (Z.succ (Z.pos (digits2_pos p) - 1))%Z by lia.
    rewrite !Z.pow_succ_r by lia.
    set (a := (2 ^ (Z.pos (digits2_pos p) - 1))%Z) in *.
    set (b := (2 ^ Z.pos (digits2_pos p))%Z) in *.
    clearbody a b. lia.
  - simpl. lia.
Qed.

Lemma iter_xO_digits (p k : positive) :
  digits2_pos (Pos.iter xO p k) = (digits2_pos p + k)%positive.
Proof.
  induction k as [| k IH] using Pos.peano_ind.
  - simpl. lia.
  - rewrite Pos.iter_succ. cbn [digits2_pos]. rewrite IH. lia.
Qed.

Lemma iter_xO_value (p k : positive) :
  Z.pos (Pos.iter xO p k) = (Z.pos p * 2 ^ Z.pos k)%Z.
Proof.
  induction k as [| k IH] using Pos.peano_ind.
  - simpl. lia.
  - rewrite Pos.iter_succ, Pos2Z.inj_xO, IH, Pos2Z.inj_succ,
      Z.pow_succ_r by lia.
    lia.
Qed.

(** A mantissa that already fits its exponent is rounded to itself. *)
Lemma binary_round_aux_canonical (s : bool) (m : positive) (e : Z) :
  bounded prec emax m e = true ->
  binary_round_aux prec emax s (Z.pos m) e loc_Exact = S754_finite s m e.
Proof.
  unfold bounded, canonical_mantissa. intros H.
  apply andb_prop in H as [Hc He]. apply Z.eqb_eq in Hc.
  unfold binary_round_aux, shr_fexp. cbn [Zdigits2 shr_record_of_loc].
  rewrite Hc, Z.sub_diag. cbn [shr shr_m loc_of_shr_record round_nearest_even].
  cbn [Zdigits2]. rewrite Hc, Z.sub_diag. cbn [shr shr_m]. now rewrite He.
Qed.

(** The double of a positive integer below 2^53 is that integer. *)
Lemma of_integer_exact (z : Z) :
  (0 < z < 2 ^ 53)%Z ->
  exists (m : positive) (e : Z),
    Prim2SF (Binary64.of_integer z) = S754_finite false m e
    /\ (e <= 0)%Z /\ (Z.pos m = z * 2 ^ (- e))%Z.
Proof.
  intros Hz. unfold Binary64.of_integer.
  rewrite FloatAxioms.of_uint63_spec, Uint63.of_Z_spec.
  rewrite Z.mod_small
    by (split; [lia |]; apply Z.lt_trans with (2 ^ 53)%Z;
        [lia | reflexivity]).
  destruct z as [| p | p]; try lia.
  unfold binary_normalize, binary_round.
  pose proof (digits2_pos_bounds p) as Hd.
  assert (Hd53 : (Z.pos (digits2_pos p) <= 53)%Z).
  { destruct (Z.le_gt_cases (Z.pos (digits2_pos p)) 53) as [H | H];
      [exact H | exfalso].
    assert (2 ^ 53 <= 2 ^ (Z.pos (digits2_pos p) - 1))%Z
      by (apply Z.pow_le_mono_r; lia).
    lia. }
  assert (Hf : fexp prec emax (Z.pos (digits2_pos p) + 0)
               = (Z.pos (digits2_pos p) - 53)%Z)
    by (unfold fexp, SpecFloat.emin, FloatOps.prec, FloatOps.emax; lia).
  rewrite Hf. unfold shl_align.
  destruct (Z.pos (digits2_pos p) - 53 - 0)%Z as [| k | k] eqn:Hk; try lia.
  - exists p, 0%Z. split; [| split; [lia | simpl; lia]].
    apply binary_round_aux_canonical.
    unfold bounded, canonical_mantissa. rewrite Hf.
    apply andb_true_intro. split; [apply Z.eqb_eq; lia | reflexivity].
  - exists (Pos.iter xO p k), (Z.pos (digits2_pos p) - 53)%Z.
    split; [| split; [lia |]].
    + apply binary_round_aux_canonical.
      unfold bounded, canonical_mantissa.
      rewrite iter_xO_digits.
      apply andb_true_intro. split.
      * apply Z.eqb_eq.
        unfold fexp, SpecFloat.emin, FloatOps.prec, FloatOps.emax. lia.
      * apply Z.leb_le. unfold FloatOps.prec, FloatOps.emax. lia.
    + rewrite iter_xO_value. f_equal. f_equal. lia.
Qed.

End Integers.

(** [Math.round] takes the integer nearest to [n * 2^e], the upper one of
    two that are equally near: [z - 1/2 <= n * 2^e < z + 1/2]. *)
Lemma nearest_bounds (s : bool) (m : positive) (e : Z) :
  (e < 0)%Z ->
  let n := if s then Z.neg m else Z.pos m in
  let z := Binary64.nearest s m e in
  ((2 * z - 1) * 2 ^ (- e - 1) <= n < (2 * z + 1) * 2 ^ (- e - 1))%Z.
Proof.
  intros He n z. unfold z. rewrite (nearest_div m e He). fold n.
  destruct (two_halves e He) as [HK Hh].
  set (h := (2 ^ (- e - 1))%Z) in *. set (K := (2 ^ (- e))%Z) in *.
  pose proof (Z.div_mod (n + h) K ltac:(lia)) as Hd.
  pose proof (Z.mod_pos_bound (n + h) K ltac:(lia)) as Hr.
  nia.
Qed.

Section RoundedInteger.

Local Open Scope float_scope.

(** The mantissa of a double has at most 53 bits. *)
Lemma mantissa_bound (x : float) (s : bool) (m : positive) (e : Z) :
  Prim2SF x = S754_finite s m e -> (Z.pos m < 2 ^ 53)%Z.
Proof.
  intros Hx. pose proof (Prim2SF_valid x) as Hv. rewrite Hx in Hv.
  unfold SpecFloat.valid_binary, bounded, canonical_mantissa in Hv.
  apply andb_prop in Hv as [Hc _]. apply Z.eqb_eq in Hc.
  unfold fexp, SpecFloat.emin, FloatOps.prec, FloatOps.emax in Hc.
  pose proof (digits2_pos_bounds m) as [_ Hm].
  apply Z.lt_le_trans with (1 := Hm).
  apply Z.pow_le_mono_r; lia.
Qed.

Lemma of_integer_zero : Binary64.of_integer 0 = 0.
Proof. reflexivity. Qed.

(** [Math.round] of a double that is no integer, [(-1)^s * m * 2^e] with
    [e < 0]: the double of the integer [z] nearest to it, the upper one of
    two; a zero with the sign of the argument when [z] is 0. *)
Lemma Math_round_exact (x : float) (s : bool) (m : positive) (e : Z) :
  Prim2SF x = S754_finite s m e -> (e < 0)%Z ->
  let n := if s then Z.neg m else Z.pos m in
  exists z : Z,
    ((2 * z - 1) * 2 ^ (- e - 1) <= n < (2 * z + 1) * 2 ^ (- e - 1))%Z
    /\ match z with
       | Z0 => Prim2SF (Binary64.Math_round x) = S754_zero s
       | _ =>
           exists (m' : positive) (e' : Z),
             Prim2SF (Binary64.Math_round x) = S754_finite s m' e'
             /\ (e' <= 0)%Z /\ (Z.pos m' = Z.abs z * 2 ^ (- e'))%Z
       end.
Proof.
  intros Hx He n. exists (Binary64.nearest s m e).
  pose proof (nearest_bounds s m e He) as Hb. cbv zeta in Hb. fold n in Hb.
  split; [exact Hb |].
  pose proof (mantissa_bound x s m e Hx) as Hm.
  assert (Hh : (1 <= 2 ^ (- e - 1))%Z)
    by (apply (Z.pow_le_mono_r 2 0); lia).
  set (h := (2 ^ (- e - 1))%Z) in *. clearbody h.
  set (z := Binary64.nearest s m e) in *.
  assert (Hle : (0 <=? e)%Z = false) by (apply Z.leb_gt; exact He).
  unfold Binary64.Math_round. rewrite Hx, Hle. fold z.
  destruct s; unfold n in Hb.
  - (* a negative double: [z <= 0] *)
    assert (Hz : (- 2 ^ 53 < z <= 0)%Z) by nia.
    rewrite FloatAxioms.opp_spec.
    destruct z as [| p | p]; try lia.
    + reflexivity.
    + destruct (of_integer_exact (Z.pos p) ltac:(lia))
        as (m' & e' & Hr & He' & Hv).
      change (- Z.neg p)%Z with (Z.pos p). rewrite Hr.
      exists m', e'. auto.
  - (* a positive double: [0 <= z] *)
    assert (Hz : (0 <= z < 2 ^ 53)%Z) by nia.
    destruct z as [| p | p]; try lia.
    + reflexivity.
    + destruct (of_integer_exact (Z.pos p) ltac:(lia))
        as (m' & e' & Hr & He' & Hv).
      rewrite Hr. exists m', e'. auto.
Qed.

End RoundedInteger.

(** ** [Binary64.recalculateEOL]: what it writes and what it keeps *)

Section RecalculationInDoubles.

Local Open Scope float_scope.

Variable original : Binary64.SankeyData.
Variable scenario : string.

Lemma binary64_end_of_life :
  Binary64.end_of_life
    (Binary64.breakdown
       (Binary64.summary (Binary64.recalculateEOL original scenario)))
  = Binary64.round4 (Binary64.local_newEol original scenario).
Proof. reflexivity. Qed.


Lemma binary64_links :
  Binary64.links (Binary64.recalculateEOL original scenario)
  = map (fun link =>
           if Binary64.is_eol_edge link
           then Binary64.mkSankeyLink
                  (Binary64.source link) (Binary64.target link)
                  (Binary64.round4
                     (abs (Binary64.local_newEol original scenario)))
           else link)
        (Binary64.links original).
Proof. reflexivity. Qed.

(** The eol-to-total links of a result all carry the rounded magnitude. *)
Lemma binary64_edge_written :
  Forall (fun link =>
            Binary64.is_eol_edge link = true ->
            Binary64.value link
            = Binary64.round4
                (abs (Binary64.local_newEol original scenario)))
         (Binary64.links (Binary64.recalculateEOL original scenario)).
Proof.
  rewrite binary64_links. apply Forall_forall. intros link' Hin.
  apply in_map_iff in Hin as (link & <- & _).
  destruct (Binary64.is_eol_edge link) eqn:E; [reflexivity |].
  intros E'. congruence.
Qed.

End RecalculationInDoubles.



(** Two doubles with different bits. *)
Ltac floats_differ :=
  let H := fresh "H" in
  intros H; apply (f_equal Prim2SF) in H; vm_compute in H; discriminate.

(** Deciding a selector against the three keys of the table of
    doubles. *)
Ltac compare_keys64 scenario :=
  unfold Binary64.EOL_SCENARIOS; cbn [JS.assoc];
  let E := fresh "E" in
  destruct ("baseline" =? scenario)%string eqn:E;
  [ apply String.eqb_eq in E; subst scenario
  | let E := fresh "E" in
    destruct ("best_case" =? scenario)%string eqn:E;
    [ apply String.eqb_eq in E; subst scenario
    | let E := fresh "E" in
      destruct ("worst_case" =? scenario)%string eqn:E;
      [ apply String.eqb_eq in E; subst scenario | ] ] ].

(** The mix is one of the three of the table, or an inherited member
    without entries, or the baseline by default. *)
Lemma binary64_selected_mix_cases (scenario : string) :
  (exists mix, In (scenario, mix) Binary64.EOL_SCENARIOS
               /\ Binary64.selected_mix scenario = JS.Own mix)
  \/ Binary64.selected_mix scenario = JS.Inherited
  \/ Binary64.selected_mix scenario = JS.Own Binary64.EOL_SCENARIOS_baseline.
Proof.
  unfold Binary64.selected_mix, JS.get. compare_keys64 scenario.
  1-3: left; eexists; split; [| reflexivity]; simpl; tauto.
  right. destruct (JS.is_prototype_key scenario); [left | right]; auto.
Qed.

(** ** The error of one rounding

    The operations of binary64 are those of [SpecFloat]: the exact result,
    a mantissa with a location, goes through [binary_round_aux].  What
    follows bounds the distance between the double returned and the exact
    result by [Binary64.eps] times the result plus [Binary64.tiny]. *)

(** *** Shift records *)

Lemma inject_Z_xO (p : positive) :
  inject_Z (Z.pos p~0) == 2 * inject_Z (Z.pos p).
Proof.
  change (Z.pos p~0) with (2 * Z.pos p)%Z. now rewrite inject_Z_mult.
Qed.

Lemma inject_Z_xI (p : positive) :
  inject_Z (Z.pos p~1) == 2 * inject_Z (Z.pos p) + 1.
Proof.
  change (Z.pos p~1) with (2 * Z.pos p + 1)%Z.
  now rewrite inject_Z_plus, inject_Z_mult.
Qed.

Ltac settle_location :=
  match goal with
  | r : bool, s : bool |- _ =>
      destruct r, s; cbn [orb];
      (split; [lra | split; split; intros ?;
         try discriminate; try reflexivity; try lra; try tauto])
  end.

(** One shift to the right halves the number. *)
Lemma shr_1_located (mrs : shr_record) (X : Q) :
  (0 <= shr_m mrs)%Z -> Binary64.located mrs X ->
  Binary64.located (shr_1 mrs) (X / 2).
Proof.
  destruct mrs as [m r s]. unfold Binary64.located. cbn [shr_m shr_r shr_s].
  intros Hm (Hin & Hr & Hs).
  assert (Hhalf : X / 2 == X * (1 # 2)) by field.
  rewrite Hhalf. clear Hhalf.
  destruct m as [| [p | p |] | p]; try lia; cbn [shr_1 shr_m shr_r shr_s];
    rewrite ?inject_Z_xO, ?inject_Z_xI in *;
    change (inject_Z 1) with 1 in *; change (inject_Z 0) with 0 in *.
  - settle_location.
  - set (P := inject_Z (Z.pos p)) in *; clearbody P. settle_location.
  - set (P := inject_Z (Z.pos p)) in *; clearbody P. settle_location.
  - settle_location.
Qed.

Lemma pow2_pos (e : Z) : 0 < 2 ^ e.
Proof. apply Qpower_0_lt. reflexivity. Qed.

Lemma pow2_plus (a b : Z) : 2 ^ (a + b) == 2 ^ a * 2 ^ b.
Proof. apply Qpower_plus. discriminate. Qed.

Lemma pow2_succ (a : Z) : 2 ^ (a + 1) == 2 * 2 ^ a.
Proof. rewrite pow2_plus. change (2 ^ 1) with 2. ring. Qed.

Lemma pow2_le (a b : Z) : (a <= b)%Z -> 2 ^ a <= 2 ^ b.
Proof. intros H. apply Qpower_le_compat_l; [exact H | discriminate]. Qed.

Lemma pow2_lt (a b : Z) : (a < b)%Z -> 2 ^ a < 2 ^ b.
Proof. intros H. apply Qpower_lt_compat_l; [exact H | reflexivity]. Qed.

(** [n] shifts divide by [2^n]. *)
Lemma iter_shr_1_located (n : positive) :
  forall (mrs : shr_record) (X : Q),
    (0 <= shr_m mrs)%Z -> Binary64.located mrs X ->
    (0 <= shr_m (iter_pos shr_1 n mrs))%Z
    /\ Binary64.located (iter_pos shr_1 n mrs) (X / 2 ^ Z.pos n).
Proof.
  assert (Hstep : forall mrs X,
             (0 <= shr_m mrs)%Z -> Binary64.located mrs X ->
             (0 <= shr_m (shr_1 mrs))%Z
             /\ Binary64.located (shr_1 mrs) (X / 2)).
  { intros mrs X Hm HX. split.
    - destruct mrs as [m r s]. simpl in *.
      destruct m as [| [p | p |] | p]; simpl; lia.
    - now apply shr_1_located. }
  assert (Hcomp : forall mrs (X Y : Q),
             X == Y -> Binary64.located mrs X -> Binary64.located mrs Y).
  { intros mrs X Y E. unfold Binary64.located. now rewrite E. }
  induction n as [n IH | n IH |]; intros mrs X Hm HX; cbn [iter_pos].
  - destruct (Hstep mrs X Hm HX) as [H1 L1].
    destruct (IH _ _ H1 L1) as [H2 L2].
    destruct (IH _ _ H2 L2) as [H3 L3].
    split; [exact H3 |]. revert L3. apply Hcomp.
    replace (Z.pos n~1) with (Z.pos n + Z.pos n + 1)%Z by lia.
    rewrite pow2_succ, pow2_plus.
    pose proof (pow2_pos (Z.pos n)). field. lra.
  - destruct (IH _ _ Hm HX) as [H2 L2].
    destruct (IH _ _ H2 L2) as [H3 L3].
    split; [exact H3 |]. revert L3. apply Hcomp.
    replace (Z.pos n~0) with (Z.pos n + Z.pos n)%Z by lia.
    rewrite pow2_plus.
    pose proof (pow2_pos (Z.pos n)). field. lra.
  - destruct (Hstep mrs X Hm HX) as [H1 L1].
    split; [exact H1 |]. revert L1. apply Hcomp. reflexivity.
Qed.

(** [shr] by [n] places moves the exponent by as much and keeps the
    number, [X * 2^e]. *)
Lemma shr_located (mrs : shr_record) (e n : Z) (X : Q) :
  (0 <= shr_m mrs)%Z -> Binary64.located mrs X ->
  let '(mrs', e') := shr mrs e n in
  (0 <= shr_m mrs')%Z
  /\ e' = Z.max e (e + n)
  /\ exists X' : Q, Binary64.located mrs' X' /\ X' * 2 ^ e' == X * 2 ^ e
                    /\ X' == X / 2 ^ (e' - e).
Proof.
  intros Hm HX. unfold shr. destruct n as [| n | n].
  - split; [exact Hm | split; [lia |]].
    exists X. split; [exact HX | split; [reflexivity |]].
    rewrite Z.sub_diag. change (2 ^ 0) with 1. field.
  - destruct (iter_shr_1_located n mrs X Hm HX) as [H1 L1].
    split; [exact H1 | split; [lia |]].
    exists (X / 2 ^ Z.pos n). split; [exact L1 |].
    pose proof (pow2_pos (Z.pos n)). pose proof (pow2_pos e).
    split.
    + rewrite pow2_plus. field. lra.
    + replace (e + Z.pos n - e)%Z with (Z.pos n) by lia. reflexivity.
  - split; [exact Hm | split; [lia |]].
    exists X. split; [exact HX | split; [reflexivity |]].
    rewrite Z.sub_diag. change (2 ^ 0) with 1. field.
Qed.

Lemma located_of_loc (m : Z) (l : location) (X : Q) :
  Binary64.located_loc m l X -> Binary64.located (shr_record_of_loc m l) X.
Proof.
  unfold Binary64.located, Binary64.located_loc.
  destruct l as [| []]; cbn [shr_record_of_loc shr_m shr_r shr_s]; intros H;
    (split; [lra | split; split; intros ?;
       try discriminate; try reflexivity; try lra; try tauto]).
Qed.

Lemma loc_of_located (mrs : shr_record) (X : Q) :
  Binary64.located mrs X ->
  Binary64.located_loc (shr_m mrs) (loc_of_shr_record mrs) X.
Proof.
  destruct mrs as [m r s]. unfold Binary64.located, Binary64.located_loc.
  cbn [shr_m shr_r shr_s loc_of_shr_record].
  intros (Hin & Hr & Hs).
  destruct r, s; cbn.
  - destruct Hr as [Hr _]. destruct Hs as [Hs _].
    specialize (Hr eq_refl). specialize (Hs eq_refl).
    split; [| lra].
    destruct (Qlt_le_dec (inject_Z m + (1 # 2)) X) as [H | H]; [exact H |].
    exfalso. apply Hs. right. lra.
  - destruct Hr as [Hr _]. specialize (Hr eq_refl).
    destruct (Qeq_dec X (inject_Z m + (1 # 2))) as [H | H]; [exact H |].
    exfalso. destruct Hs as [_ Hs].
    assert (false = true) by (apply Hs; intros [H1 | H1]; [lra | tauto]).
    discriminate.
  - destruct Hs as [Hs _]. specialize (Hs eq_refl).
    assert (Hlt : X < inject_Z m + (1 # 2)).
    { apply Qnot_le_lt. intros H. destruct Hr as [_ Hr].
      specialize (Hr H). discriminate. }
    split; [| exact Hlt].
    destruct (Qeq_dec X (inject_Z m)) as [H | H]; [exfalso; tauto |].
    destruct (Qlt_le_dec (inject_Z m) X) as [H' | H']; [exact H' |].
    exfalso. apply H. lra.
  - destruct (Qeq_dec X (inject_Z m)) as [H | H]; [exact H |].
    exfalso. destruct Hs as [_ Hs].
    assert (false = true).
    { apply Hs. intros [H1 | H1]; [tauto |].
      destruct Hr as [_ Hr]. assert (false = true) by (apply Hr; lra).
      discriminate. }
    discriminate.
Qed.

(** Rounding to nearest, ties to even: within one half. *)
Lemma round_nearest_even_bound (m : Z) (l : location) (X : Q) :
  Binary64.located_loc m l X ->
  let r := round_nearest_even m l in
  (m <= r <= m + 1)%Z
  /\ inject_Z r - (1 # 2) <= X <= inject_Z r + (1 # 2).
Proof.
  unfold Binary64.located_loc, round_nearest_even.
  destruct l as [| []]; intros H; cbv zeta.
  - split; [lia | lra].
  - destruct (Z.even m).
    + split; [lia | lra].
    + rewrite inject_Z_plus. change (inject_Z 1) with 1.
      split; [lia | lra].
  - split; [lia | lra].
  - rewrite inject_Z_plus. change (inject_Z 1) with 1.
    split; [lia | lra].
Qed.

Section RoundingSteps.

Variables prec emax : Z.

Local Abbreviation fexp := (fexp prec emax).

(** What [binary_round_aux] computes from a mantissa [m], an exponent [e]
    and the place of the exact number [X] in [[m, m + 1)]: a first shift to
    the exponent [e1], the mantissa [m1] nearest to the exact number
    there, and a second shift to the exponent [e2] if [m1] has one bit too
    many. *)
Lemma binary_round_aux_steps (s : bool) (m e : Z) (l : location) (X : Q) :
  (0 <= m)%Z -> Binary64.located_loc m l X ->
  exists e1 m1 e2 m2 : Z,
    e1 = Z.max e (fexp (Zdigits2 m + e))
    /\ (0 <= m1)%Z
    /\ (inject_Z m1 - (1 # 2)) * 2 ^ e1 <= X * 2 ^ e
    /\ X * 2 ^ e <= (inject_Z m1 + (1 # 2)) * 2 ^ e1
    /\ (inject_Z m1 <= X / 2 ^ (e1 - e) + 1)
    /\ e2 = Z.max e1 (fexp (Zdigits2 m1 + e1))
    /\ (0 <= m2)%Z
    /\ inject_Z m2 * 2 ^ e2 <= inject_Z m1 * 2 ^ e1
    /\ inject_Z m1 * 2 ^ e1 < (inject_Z m2 + 1) * 2 ^ e2
    /\ binary_round_aux prec emax s m e l
       = match m2 with
         | Z0 => S754_zero s
         | Zpos p =>
             if (e2 <=? emax - prec)%Z then S754_finite s p e2
             else S754_infinity s
         | Zneg _ => S754_nan
         end.
Proof.
  intros Hm HX. unfold binary_round_aux, shr_fexp.
  pose proof (shr_located (shr_record_of_loc m l) e
                (fexp (Zdigits2 m + e) - e) X) as H1.
  assert (Hm0 : (0 <= shr_m (shr_record_of_loc m l))%Z)
    by (destruct l as [| []]; exact Hm).
  specialize (H1 Hm0 (located_of_loc m l X HX)).
  destruct (shr (shr_record_of_loc m l) e (fexp (Zdigits2 m + e) - e))
    as [mrs1 e1].
  destruct H1 as (Hm1 & He1 & X1 & L1 & V1 & D1).
  pose proof (round_nearest_even_bound _ _ _ (loc_of_located _ _ L1)) as R.
  cbv zeta in R.
  set (m1 := round_nearest_even (shr_m mrs1) (loc_of_shr_record mrs1)) in *.
  destruct R as [Rm RX].
  pose proof (shr_located (shr_record_of_loc m1 loc_Exact) e1
                (fexp (Zdigits2 m1 + e1) - e1) (inject_Z m1)) as H2.
  assert (Hm1' : (0 <= m1)%Z) by lia.
  specialize (H2 Hm1' (located_of_loc m1 loc_Exact _ (Qeq_refl _))).
  destruct (shr (shr_record_of_loc m1 loc_Exact) e1
              (fexp (Zdigits2 m1 + e1) - e1)) as [mrs2 e2].
  destruct H2 as (Hm2 & He2 & X2 & L2 & V2 & _).
  exists e1, m1, e2, (shr_m mrs2).
  pose proof (pow2_pos e1) as P1. pose proof (pow2_pos e2) as P2.
  pose proof (pow2_pos e) as P0.
  split; [lia |]. split; [exact Hm1' |].
  split; [| split; [| split; [| split; [lia | split; [exact Hm2 |]]]]].
  - rewrite <- V1. nra.
  - rewrite <- V1. nra.
  - rewrite <- D1. lra.
  - destruct L2 as ((Lo & Hi) & _). rewrite <- V2.
    split; [nra | split; [nra | reflexivity]].
Qed.

End RoundingSteps.

(** *** Digits *)

Lemma inject_Z_pow2 (k : Z) : (0 <= k)%Z -> inject_Z (2 ^ k) == 2 ^ k.
Proof. intros Hk. now rewrite Zpower_Qpower. Qed.

(** A positive integer lies between two powers of 2 that its number of
    binary digits gives. *)
Lemma Zdigits2_bounds (m : Z) :
  (1 <= m)%Z ->
  (1 <= Zdigits2 m)%Z
  /\ 2 ^ (Zdigits2 m - 1) <= inject_Z m /\ inject_Z m < 2 ^ Zdigits2 m.
Proof.
  intros Hm. destruct m as [| p | p]; try lia. cbn [Zdigits2].
  pose proof (digits2_pos_bounds p) as [Hlo Hhi].
  split; [lia | split].
  - rewrite <- inject_Z_pow2 by lia. now rewrite <- Zle_Qle.
  - rewrite <- inject_Z_pow2 by lia. now rewrite <- Zlt_Qlt.
Qed.

Lemma Zdigits2_nonneg (m : Z) : (0 <= Zdigits2 m)%Z.
Proof. destruct m; simpl; lia. Qed.

Lemma pow2_le_inv (a b : Z) : 2 ^ a <= 2 ^ b -> (a <= b)%Z.
Proof. intros H. now apply (Qpower_le_compat_l_inv 2). Qed.

Lemma pow2_lt_inv (a b : Z) : 2 ^ a < 2 ^ b -> (a < b)%Z.
Proof. intros H. now apply (Qpower_lt_compat_l_inv 2). Qed.

(** *** Rounding to binary64 *)

Lemma fexp_binary64 (k : Z) :
  SpecFloat.fexp prec emax k = Z.max (k - 53) (-1074).
Proof. reflexivity. Qed.

(** A valid mantissa is normal, with 53 bits, or has the least
    exponent. *)
Lemma bounded_cases (p : positive) (e : Z) :
  bounded prec emax p e = true ->
  (e <= 971)%Z
  /\ ((2 ^ 52 <= inject_Z (Z.pos p) /\ (-1074 <= e)%Z) \/ e = (-1074)%Z).
Proof.
  unfold bounded, canonical_mantissa. intros H.
  apply andb_prop in H as [Hc He].
  apply Z.eqb_eq in Hc. apply Z.leb_le in He.
  rewrite fexp_binary64 in Hc.
  split; [exact He |].
  destruct (Z.max_spec (Z.pos (digits2_pos p) + e - 53) (-1074))
    as [[Hlt Hmax] | [Hle Hmax]]; rewrite Hmax in Hc.
  - right. lia.
  - left. split; [| lia].
    assert (Hd : Z.pos (digits2_pos p) = 53%Z) by lia.
    pose proof (digits2_pos_bounds p) as [Hlo _]. rewrite Hd in Hlo.
    change (2 ^ 52) with (inject_Z (2 ^ 52)). now rewrite <- Zle_Qle.
Qed.

Lemma binary_round_aux_error
  (s : bool) (m e : Z) (l : location) (X : Q) (K : Z) :
  (1 <= m)%Z -> Binary64.located_loc m l X ->
  (e <= 971)%Z -> X * 2 ^ e <= 2 ^ K -> (K <= 1022)%Z ->
  valid_binary (binary_round_aux prec emax s m e l) = true ->
  (binary_round_aux prec emax s m e l = S754_zero s
   /\ X * 2 ^ e <= (3 # 2) * 2 ^ (-1074))
  \/ (exists (p : positive) (e2 : Z),
         binary_round_aux prec emax s m e l = S754_finite s p e2
         /\ Qabs (inject_Z (Z.pos p) * 2 ^ e2 - X * 2 ^ e)
            <= 2 ^ (-51) * (X * 2 ^ e) + (3 # 2) * 2 ^ (-1074)).
Proof.
  intros Hm HX He HK HK' Hvalid.
  destruct (binary_round_aux_steps prec emax s m e l X ltac:(lia) HX)
    as (e1 & m1 & e2 & m2 & He1 & Hm1 & Flo & Fhi & _ & He2 & Hm2
        & Glo & Ghi & Hres).
  rewrite !fexp_binary64 in *.
  set (Y := X * 2 ^ e) in *.
  (* the exact number is at least [2^(d - 1 + e)] *)
  destruct (Zdigits2_bounds m Hm) as (Hd & Hdlo & _).
  set (d := Zdigits2 m) in *.
  assert (HXm : inject_Z m <= X)
    by (unfold Binary64.located_loc in HX; destruct l as [| []]; lra).
  assert (HY : 2 ^ (d - 1 + e) <= Y).
  { unfold Y. rewrite pow2_plus. pose proof (pow2_pos e).
    pose proof (pow2_pos (d - 1)). nra. }
  assert (HdK : (d - 1 + e <= K)%Z)
    by (apply pow2_le_inv; lra).
  assert (He1' : (e <= e1 <= 971)%Z) by lia.
  assert (P12 : 2 ^ e1 <= 2 ^ e2) by (apply pow2_le; lia).
  pose proof (pow2_pos e1) as P1. pose proof (pow2_pos e2) as P2.
  (* the second exponent does not overflow *)
  assert (He2' : (e2 <= 971)%Z).
  { destruct (Z.eq_dec m1 0) as [-> | Hne].
    - cbn [Zdigits2] in He2. lia.
    - destruct (Zdigits2_bounds m1 ltac:(lia)) as (Hd1 & Hd1lo & _).
      set (d1 := Zdigits2 m1) in *.
      assert (H : 2 ^ (d1 - 1 + e1) < 2 ^ 1023).
      { rewrite pow2_plus.
        assert (2 ^ K <= 2 ^ 1022) by (apply pow2_le; lia).
        assert (2 ^ e1 <= 2 ^ 971) by (apply pow2_le; lia).
        assert (E : 2 ^ 1023 == 2 * 2 ^ 1022) by reflexivity.
        assert (E' : 2 ^ 971 <= 2 ^ 1022) by (apply pow2_le; lia).
        pose proof (pow2_pos (d1 - 1)).
        rewrite E. nra. }
      apply pow2_lt_inv in H. lia. }
  (* the error before the magnitude is known *)
  assert (Herr : inject_Z m2 * 2 ^ e2 - (3 # 2) * 2 ^ e2 <= Y
                 /\ Y <= inject_Z m2 * 2 ^ e2 + (3 # 2) * 2 ^ e2)
    by (split; nra).
  rewrite Hres in *.
  destruct m2 as [| p | p]; [left | right | lia].
  - split; [reflexivity |].
    assert (E2 : e2 = (-1074)%Z).
    { destruct (Z.eq_dec e2 e1) as [E | E].
      - assert (Hz : m1 = 0%Z).
        { rewrite E in Ghi. change (inject_Z 0) with 0 in Ghi.
          assert (inject_Z m1 < 1) by nra.
          change 1 with (inject_Z 1) in H. rewrite <- Zlt_Qlt in H. lia. }
        subst m1. change (inject_Z 0) with 0 in Fhi.
        assert (H : 2 ^ (d - 1 + e) <= 2 ^ (e1 - 1)).
        { replace e1 with (e1 - 1 + 1)%Z in Fhi by lia.
          rewrite pow2_succ in Fhi. lra. }
        apply pow2_le_inv in H. lia.
      - destruct (Z.eq_dec m1 0) as [-> | Hne].
        + cbn [Zdigits2] in He2. lia.
        + destruct (Zdigits2_bounds m1 ltac:(lia)) as (Hd1 & Hd1lo & _).
          set (d1 := Zdigits2 m1) in *.
          assert (H : 2 ^ (d1 - 1 + e1) < 2 ^ e2).
          { rewrite pow2_plus. change (inject_Z 0) with 0 in Ghi.
            pose proof (pow2_pos (d1 - 1)). nra. }
          apply pow2_lt_inv in H. lia. }
    rewrite E2 in Herr. change (inject_Z 0) with 0 in Herr. lra.
  - replace (e2 <=? emax - prec)%Z with true in *
      by (symmetry; apply Z.leb_le; exact He2').
    exists p, e2. split; [reflexivity |].
    cbn [valid_binary] in Hvalid.
    destruct (bounded_cases p e2 Hvalid) as (_ & [[Hn _] | Hs]).
    + assert (E51 : 2 ^ (-51) == 1 # 2251799813685248) by reflexivity.
      assert (E52 : (2 : Q) ^ 52 == 4503599627370496) by reflexivity.
      assert (0 <= (3 # 2) * 2 ^ (-1074))
        by (pose proof (pow2_pos (-1074)); lra).
      set (U := 2 ^ e2) in *. set (M := inject_Z (Z.pos p)) in *.
      set (T := (3 # 2) * 2 ^ (-1074)) in *.
      rewrite E51. rewrite E52 in Hn.
      apply Qabs_Qle_condition. split; nra.
    + rewrite Hs in *. apply Qabs_Qle_condition.
      assert (0 <= 2 ^ (-51) * Y).
      { assert (0 < 2 ^ (-51)) by apply pow2_pos.
        assert (0 <= Y) by (pose proof (pow2_pos (d - 1 + e)); lra).
        nra. }
      split; lra.
Qed.

(** ** The value of a double *)

Lemma eps_pos : 0 < Binary64.eps.
Proof. reflexivity. Qed.

Lemma tiny_pos : 0 < Binary64.tiny.
Proof. reflexivity. Qed.

Lemma inject_Z_neg (p : positive) : inject_Z (Z.neg p) == - inject_Z (Z.pos p).
Proof. reflexivity. Qed.

Lemma SFvalue_abs (s : bool) (m : positive) (e : Z) :
  Qabs (Binary64.SFvalue (S754_finite s m e)) == inject_Z (Z.pos m) * 2 ^ e.
Proof.
  cbn [Binary64.SFvalue]. pose proof (pow2_pos e) as P.
  assert (0 < inject_Z (Z.pos m))
    by (change 0 with (inject_Z 0); rewrite <- Zlt_Qlt; lia).
  destruct s.
  - rewrite inject_Z_neg. rewrite Qabs_neg by nra. ring.
  - apply Qabs_pos. nra.
Qed.

(** The result of rounding, with the sign put back. *)
Lemma signed_error (s : bool) (p : positive) (e2 : Z) (Y bound : Q) :
  0 <= Y ->
  Qabs (inject_Z (Z.pos p) * 2 ^ e2 - Y) <= bound ->
  Qabs (Binary64.SFvalue (S754_finite s p e2) - (if s then - Y else Y))
  <= bound.
Proof.
  intros HY H. cbn [Binary64.SFvalue]. destruct s.
  - rewrite inject_Z_neg.
    assert (E : - inject_Z (Z.pos p) * 2 ^ e2 - - Y
                == - (inject_Z (Z.pos p) * 2 ^ e2 - Y)) by ring.
    now rewrite E, Qabs_opp.
  - exact H.
Qed.

(** A double is valid. *)
Lemma Prim2SF_bounded (x : float) (s : bool) (m : positive) (e : Z) :
  Prim2SF x = S754_finite s m e -> bounded prec emax m e = true.
Proof.
  intros H. pose proof (Prim2SF_valid x) as Hv. now rewrite H in Hv.
Qed.


(** *** Multiplication *)

(** The product by a double whose exponent is not positive, one below
    2^53. *)
Lemma mul_error (x y : float) (sy : bool) (my : positive) (ey K : Z) :
  Binary64.is_finite x = true ->
  Prim2SF y = S754_finite sy my ey -> (ey <= 0)%Z ->
  Qabs (Binary64.to_Q x * Binary64.to_Q y) <= 2 ^ K -> (K <= 1022)%Z ->
  Binary64.is_finite (x * y) = true
  /\ Qabs (Binary64.to_Q (x * y) - Binary64.to_Q x * Binary64.to_Q y)
     <= Binary64.eps * Qabs (Binary64.to_Q x * Binary64.to_Q y)
        + Binary64.tiny.
Proof.
  unfold Binary64.is_finite, Binary64.to_Q. intros Hf Ey Hey.
  rewrite FloatAxioms.mul_spec, Ey.
  pose proof (Prim2SF_valid (x * y)) as Hvalid.
  rewrite FloatAxioms.mul_spec, Ey in Hvalid.
  pose proof eps_pos as Heps. pose proof tiny_pos as Htiny.
  destruct (Prim2SF x) as [sx | sx | | sx mx ex] eqn:Ex; try discriminate;
    intros HK HK'.
  - cbn. split; [reflexivity |]. vm_compute. discriminate.
  - cbn [SF64mul SFmul] in *.
    pose proof (Prim2SF_bounded x sx mx ex Ex) as Hb.
    destruct (bounded_cases mx ex Hb) as (Hex & _).
    set (m := Z.pos (mx * my)) in *.
    set (Y := inject_Z m * 2 ^ (ex + ey)).
    assert (EY : Y == (inject_Z (Z.pos mx) * 2 ^ ex)
                      * (inject_Z (Z.pos my) * 2 ^ ey)).
    { unfold Y, m. rewrite Pos2Z.inj_mul, inject_Z_mult, pow2_plus. ring. }
    assert (Ha : Qabs (Binary64.SFvalue (S754_finite sx mx ex)
                       * Binary64.SFvalue (S754_finite sy my ey)) == Y).
    { rewrite Qabs_Qmult, !SFvalue_abs. symmetry. exact EY. }
    rewrite Ha in *.
    assert (HY0 : 0 <= Y) by (rewrite <- Ha; apply Qabs_nonneg).
    assert (Hv : Binary64.SFvalue (S754_finite sx mx ex)
                 * Binary64.SFvalue (S754_finite sy my ey)
                 == if xorb sx sy then - Y else Y).
    { cbn [Binary64.SFvalue].
      destruct sx, sy; cbn [xorb]; rewrite EY, ?inject_Z_neg; ring. }
    rewrite Hv.
    destruct (binary_round_aux_error (xorb sx sy) m (ex + ey) loc_Exact
                (inject_Z m) K ltac:(unfold m; lia) (Qeq_refl _)
                ltac:(lia) HK HK' Hvalid)
      as [[-> Hz] | (p & e2 & -> & Herr)].
    + split; [reflexivity |]. cbn [Binary64.SFvalue].
      fold Y in Hz. unfold Binary64.eps, Binary64.tiny in *.
      assert (0 <= 2 ^ (-51) * Y) by nra.
      apply Qabs_Qle_condition. destruct (xorb sx sy); split; lra.
    + split; [reflexivity |].
      fold Y in Herr. exact (signed_error _ p e2 Y _ HY0 Herr).
Qed.

Lemma value_10000 : Binary64.to_Q 10000%float == 10000.
Proof. reflexivity. Qed.

Lemma mul_10000_error (x : float) (K : Z) :
  Binary64.is_finite x = true ->
  Qabs (Binary64.to_Q x) <= 2 ^ K -> (K <= 1000)%Z ->
  Binary64.is_finite (x * 10000) = true
  /\ Qabs (Binary64.to_Q (x * 10000) - 10000 * Binary64.to_Q x)
     <= Binary64.eps * (10000 * Qabs (Binary64.to_Q x)) + Binary64.tiny.
Proof.
  intros Hf HK HK'.
  assert (Ea : Qabs (Binary64.to_Q x * Binary64.to_Q 10000%float)
               == 10000 * Qabs (Binary64.to_Q x)).
  { rewrite value_10000, Qabs_Qmult. change (Qabs 10000) with 10000. ring. }
  assert (Hp : Qabs (Binary64.to_Q x * Binary64.to_Q 10000%float)
               <= 2 ^ (K + 14)).
  { rewrite Ea, pow2_plus. change (2 ^ 14) with 16384.
    pose proof (pow2_pos K). pose proof (Qabs_nonneg (Binary64.to_Q x)).
    lra. }
  destruct (mul_error x 10000%float _ _ _ (K + 14) Hf Prim2SF_10000
              ltac:(lia) Hp ltac:(lia)) as [Hfm Hm].
  split; [exact Hfm |].
  rewrite Ea in Hm. rewrite value_10000 in Hm.
  assert (E : 10000 * Binary64.to_Q x == Binary64.to_Q x * 10000) by ring.
  rewrite E. exact Hm.
Qed.

(** *** Addition *)

Lemma inject_Z_pos_pos (p : positive) : 0 < inject_Z (Z.pos p).
Proof. change 0 with (inject_Z 0). rewrite <- Zlt_Qlt. lia. Qed.

(** Aligning a mantissa on a lower exponent keeps the number. *)
Lemma shl_align_value (m : positive) (e e' : Z) :
  let '(m', e'') := shl_align m e e' in
  e'' = Z.min e e'
  /\ inject_Z (Z.pos m') * 2 ^ e'' == inject_Z (Z.pos m) * 2 ^ e.
Proof.
  unfold shl_align. destruct (e' - e)%Z as [| d | d] eqn:Hd.
  - split; [lia | reflexivity].
  - split; [lia | reflexivity].
  - split; [lia |].
    rewrite iter_xO_value, inject_Z_mult, inject_Z_pow2 by lia.
    assert (E : 2 ^ e == 2 ^ e' * 2 ^ Z.pos d)
      by (rewrite <- pow2_plus; replace (e' + Z.pos d)%Z with e by lia;
          reflexivity).
    rewrite E. ring.
Qed.

Lemma shl_align_fst (m : positive) (e e' : Z) :
  (e' <= e)%Z ->
  inject_Z (Z.pos (fst (shl_align m e e'))) * 2 ^ e'
  == inject_Z (Z.pos m) * 2 ^ e.
Proof.
  intros H. pose proof (shl_align_value m e e') as Hs.
  destruct (shl_align m e e') as [m' e'']. destruct Hs as [-> Hv].
  cbn [fst]. now rewrite Z.min_r in Hv by exact H.
Qed.

(** Rounding a positive integer mantissa. *)
Lemma binary_round_error (s : bool) (p : positive) (e K : Z) :
  (e <= 971)%Z -> inject_Z (Z.pos p) * 2 ^ e <= 2 ^ K -> (K <= 1022)%Z ->
  valid_binary (binary_round prec emax s p e) = true ->
  Binary64.SFfinite (binary_round prec emax s p e) = true
  /\ Qabs (Binary64.SFvalue (binary_round prec emax s p e)
           - (if s then - (inject_Z (Z.pos p) * 2 ^ e)
              else inject_Z (Z.pos p) * 2 ^ e))
     <= Binary64.eps * (inject_Z (Z.pos p) * 2 ^ e) + Binary64.tiny.
Proof.
  intros He HK HK'. unfold binary_round.
  pose proof (shl_align_value p e
                (SpecFloat.fexp prec emax (Z.pos (digits2_pos p) + e))) as Hs.
  destruct (shl_align p e _) as [mz ez]. destruct Hs as [Hez Hv].
  set (Y := inject_Z (Z.pos p) * 2 ^ e) in *.
  assert (HY0 : 0 <= Y)
    by (unfold Y; pose proof (pow2_pos e); pose proof (inject_Z_pos_pos p);
        nra).
  intros Hvalid.
  destruct (binary_round_aux_error s (Z.pos mz) ez loc_Exact
              (inject_Z (Z.pos mz)) K ltac:(lia) (Qeq_refl _) ltac:(lia)
              ltac:(rewrite Hv; exact HK) HK' Hvalid)
    as [[-> Hz] | (q & e2 & -> & Herr)].
  - split; [reflexivity |]. cbn [Binary64.SFvalue].
    rewrite Hv in Hz. unfold Binary64.eps, Binary64.tiny.
    assert (0 <= 2 ^ (-51) * Y)
      by (assert (0 < 2 ^ (-51)) by apply pow2_pos; nra).
    apply Qabs_Qle_condition. destruct s; split; lra.
  - split; [reflexivity |]. rewrite Hv in Herr.
    exact (signed_error s q e2 Y _ HY0 Herr).
Qed.

Lemma cond_Zopp_value (s : bool) (m : positive) (e : Z) :
  inject_Z (cond_Zopp s (Z.pos m)) * 2 ^ e
  == Binary64.SFvalue (S754_finite s m e).
Proof. destruct s; reflexivity. Qed.

Lemma add_error (x y : float) (K : Z) :
  Binary64.is_finite x = true -> Binary64.is_finite y = true ->
  Qabs (Binary64.to_Q x + Binary64.to_Q y) <= 2 ^ K -> (K <= 1022)%Z ->
  Binary64.is_finite (x + y) = true
  /\ Qabs (Binary64.to_Q (x + y) - (Binary64.to_Q x + Binary64.to_Q y))
     <= Binary64.eps * Qabs (Binary64.to_Q x + Binary64.to_Q y)
        + Binary64.tiny.
Proof.
  unfold Binary64.is_finite, Binary64.to_Q.
  rewrite FloatAxioms.add_spec.
  pose proof (Prim2SF_valid (x + y)) as Hvalid.
  rewrite FloatAxioms.add_spec in Hvalid.
  pose proof eps_pos as Heps. pose proof tiny_pos as Htiny.
  assert (Hexact : forall v : Q,
             Qabs (v - v) <= Binary64.eps * Qabs v + Binary64.tiny).
  { intros v. pose proof (Qabs_nonneg v).
    assert (E : v - v == 0) by ring. rewrite E. cbn [Qabs Z.abs].
    change (0 # 1) with 0. nra. }
  destruct (Prim2SF x) as [sx | sx | | sx mx ex] eqn:Ex; try discriminate;
    destruct (Prim2SF y) as [sy | sy | | sy my ey] eqn:Ey; try discriminate;
    intros _ _ HK HK'.
  - split; [destruct sx, sy; reflexivity |].
    assert (E : Binary64.SFvalue (SF64add (S754_zero sx) (S754_zero sy)) = 0)
      by (destruct sx, sy; reflexivity).
    rewrite E. apply (Hexact 0).
  - split; [reflexivity |]. cbn [SF64add SFadd].
    assert (E : Binary64.SFvalue (S754_zero sx)
                + Binary64.SFvalue (S754_finite sy my ey)
                == Binary64.SFvalue (S754_finite sy my ey))
      by (cbn [Binary64.SFvalue]; ring).
    rewrite E. apply Hexact.
  - split; [reflexivity |]. cbn [SF64add SFadd].
    assert (E : Binary64.SFvalue (S754_finite sx mx ex)
                + Binary64.SFvalue (S754_zero sy)
                == Binary64.SFvalue (S754_finite sx mx ex))
      by (cbn [Binary64.SFvalue]; ring).
    rewrite E. apply Hexact.
  - pose proof (Prim2SF_bounded x sx mx ex Ex) as Hbx.
    pose proof (Prim2SF_bounded y sy my ey Ey) as Hby.
    destruct (bounded_cases mx ex Hbx) as (Hex & _).
    destruct (bounded_cases my ey Hby) as (Hey & _).
    unfold SF64add, SFadd in *.
    set (ez := Z.min ex ey) in *.
    set (N := (cond_Zopp sx (Z.pos (fst (shl_align mx ex ez)))
               + cond_Zopp sy (Z.pos (fst (shl_align my ey ez))))%Z) in *.
    assert (EN : inject_Z N * 2 ^ ez
                 == Binary64.SFvalue (S754_finite sx mx ex)
                    + Binary64.SFvalue (S754_finite sy my ey)).
    { unfold N. rewrite inject_Z_plus, Qmult_plus_distr_l.
      pose proof (shl_align_fst mx ex ez ltac:(unfold ez; lia)) as Hx.
      pose proof (shl_align_fst my ey ez ltac:(unfold ez; lia)) as Hy.
      cbn [Binary64.SFvalue].
      destruct sx, sy; cbn [cond_Zopp]; rewrite ?inject_Z_neg;
        change (inject_Z (- Z.pos ?p)) with (- inject_Z (Z.pos p));
        nra. }
    rewrite <- EN in *.
    unfold binary_normalize in *.
    destruct N as [| p | p].
    + split; [reflexivity |]. cbn [Binary64.SFvalue].
      change (inject_Z 0) with 0.
      assert (E : 0 * 2 ^ ez == 0) by ring. rewrite E. apply (Hexact 0).
    + assert (HY : inject_Z (Z.pos p) * 2 ^ ez <= 2 ^ K).
      { rewrite Qabs_pos in HK; [exact HK |].
        pose proof (pow2_pos ez). pose proof (inject_Z_pos_pos p). nra. }
      destruct (binary_round_error false p ez K ltac:(unfold ez; lia)
                  HY HK' Hvalid) as [Hf Herr].
      split; [exact Hf |].
      rewrite (Qabs_pos (inject_Z (Z.pos p) * 2 ^ ez))
        by (pose proof (pow2_pos ez); pose proof (inject_Z_pos_pos p); nra).
      exact Herr.
    + assert (Hneg : inject_Z (Z.neg p) * 2 ^ ez
                     == - (inject_Z (Z.pos p) * 2 ^ ez))
        by (rewrite inject_Z_neg; ring).
      rewrite Hneg in *. rewrite Qabs_opp in *.
      assert (HY : inject_Z (Z.pos p) * 2 ^ ez <= 2 ^ K).
      { rewrite Qabs_pos in HK; [exact HK |].
        pose proof (pow2_pos ez). pose proof (inject_Z_pos_pos p). nra. }
      destruct (binary_round_error true p ez K ltac:(unfold ez; lia)
                  HY HK' Hvalid) as [Hf Herr].
      split; [exact Hf |].
      rewrite (Qabs_pos (inject_Z (Z.pos p) * 2 ^ ez))
        by (pose proof (pow2_pos ez); pose proof (inject_Z_pos_pos p); nra).
      exact Herr.
Qed.

(** *** Division by 10000 *)

Lemma new_location_even_located (M q r : Z) :
  (0 < M)%Z -> (0 <= r < M)%Z ->
  Binary64.located_loc q (new_location_even M r)
              (inject_Z q + inject_Z r / inject_Z M).
Proof.
  intros HM Hr. unfold new_location_even, Binary64.located_loc.
  assert (HMq : 0 < inject_Z M)
    by (change 0 with (inject_Z 0); rewrite <- Zlt_Qlt; exact HM).
  assert (E : inject_Z r / inject_Z M * inject_Z M == inject_Z r)
    by (field; lra).
  set (f := inject_Z r / inject_Z M) in *. clearbody f.
  destruct (Z.eqb_spec r 0) as [-> | Hne].
  - change (inject_Z 0) with 0 in E. nra.
  - assert (Hrq : 0 < inject_Z r)
      by (change 0 with (inject_Z 0); rewrite <- Zlt_Qlt; lia).
    assert (H1 : inject_Z r < inject_Z M) by (rewrite <- Zlt_Qlt; lia).
    destruct (Z.compare_spec (2 * r) M) as [Heq | Hlt | Hgt].
    + assert (E2 : inject_Z M == 2 * inject_Z r)
        by (rewrite <- Heq, inject_Z_mult; reflexivity).
      nra.
    + assert (H2 : 2 * inject_Z r < inject_Z M)
        by (change 2 with (inject_Z 2); rewrite <- inject_Z_mult, <- Zlt_Qlt;
            exact Hlt).
      split; nra.
    + assert (H2 : inject_Z M < 2 * inject_Z r)
        by (change 2 with (inject_Z 2); rewrite <- inject_Z_mult, <- Zlt_Qlt;
            exact Hgt).
      split; nra.
Qed.

Lemma div_core_10000 (mx : positive) (ex : Z) :
  bounded prec emax mx ex = true ->
  1 <= inject_Z (Z.pos mx) * 2 ^ ex ->
  let '(q, e', l) :=
    SFdiv_core_binary prec emax (Z.pos mx) ex 5497558138880000 (-39) in
  (1 <= q)%Z /\ (e' <= 971)%Z
  /\ exists X : Q,
       Binary64.located_loc q l X
       /\ X * 2 ^ e' * 10000 == inject_Z (Z.pos mx) * 2 ^ ex.
Proof.
  intros Hb H1.
  destruct (bounded_cases mx ex Hb) as (Hex & _).
  pose proof (digits2_pos_bounds mx) as [Hdlo Hdhi].
  assert (Hd53 : (Z.pos (digits2_pos mx) <= 53)%Z).
  { unfold bounded, canonical_mantissa in Hb.
    apply andb_prop in Hb as [Hc _]. apply Z.eqb_eq in Hc.
    rewrite fexp_binary64 in Hc. lia. }
  set (d := Z.pos (digits2_pos mx)) in *.
  assert (Hde : (1 <= d + ex)%Z).
  { assert (H : 2 ^ 0 < 2 ^ (d + ex)).
    { change (2 ^ 0) with 1. rewrite pow2_plus.
      assert (inject_Z (Z.pos mx) < 2 ^ d).
      { rewrite <- inject_Z_pow2 by (unfold d; lia).
        now rewrite <- Zlt_Qlt. }
      pose proof (pow2_pos ex). nra. }
    apply pow2_lt_inv in H. lia. }
  unfold SFdiv_core_binary. cbn [Zdigits2].
  change (Z.pos (digits2_pos 5497558138880000)) with 53%Z.
  fold d. rewrite fexp_binary64.
  replace (Z.min (Z.max (d + ex - (53 + -39) - 53) (-1074)) (ex - -39))
    with (d + ex - 67)%Z by lia.
  replace (ex - -39 - (d + ex - 67))%Z with (106 - d)%Z by lia.
  destruct (106 - d)%Z as [| s | s] eqn:Hs; try lia.
  rewrite Z.shiftl_mul_pow2 by lia.
  set (M := 5497558138880000%Z).
  assert (HM : (2 ^ 52 <= M < 2 ^ 53)%Z) by (unfold M; lia).
  set (m' := (Z.pos mx * 2 ^ Z.pos s)%Z).
  pose proof (Z_div_mod m' M ltac:(lia)) as Hdm.
  destruct (Z.div_eucl m' M) as [q r]. destruct Hdm as [Hm' Hr].
  assert (Hm'lo : (2 ^ 105 <= m')%Z).
  { unfold m'. replace 105%Z with ((d - 1) + Z.pos s)%Z by lia.
    rewrite Z.pow_add_r by lia.
    apply Z.mul_le_mono_nonneg_r; [apply Z.pow_nonneg; lia | exact Hdlo]. }
  split; [| split; [lia |]].
  - assert (M * 1 <= M * q + r)%Z; [| nia].
    rewrite <- Hm'. apply Z.le_trans with (2 ^ 105)%Z; [| exact Hm'lo].
    apply Z.le_trans with (2 ^ 53)%Z; [lia | apply Z.pow_le_mono_r; lia].
  - exists (inject_Z q + inject_Z r / inject_Z M). split.
    + change (new_location M r) with (new_location_even M r).
      apply new_location_even_located; lia.
    + assert (HMq : 0 < inject_Z M)
        by (change 0 with (inject_Z 0); rewrite <- Zlt_Qlt; lia).
      assert (E1 : (inject_Z q + inject_Z r / inject_Z M) * inject_Z M
                   == inject_Z m').
      { rewrite Hm', inject_Z_plus, inject_Z_mult. field. lra. }
      assert (E2 : inject_Z m' == inject_Z (Z.pos mx) * 2 ^ Z.pos s)
        by (unfold m'; rewrite inject_Z_mult, inject_Z_pow2 by lia;
            reflexivity).
      assert (E3 : 2 ^ ex == 2 ^ Z.pos s * 2 ^ (d + ex - 67) * 2 ^ (-39)).
      { rewrite <- !pow2_plus.
        replace (Z.pos s + (d + ex - 67) + -39)%Z with ex by lia.
        reflexivity. }
      assert (E4 : inject_Z M * 2 ^ (-39) == 10000) by reflexivity.
      set (X := inject_Z q + inject_Z r / inject_Z M) in *.
      rewrite E3, <- E4. rewrite E2 in E1.
      set (A := 2 ^ (d + ex - 67)) in *. set (B := 2 ^ (-39)) in *.
      set (C := 2 ^ Z.pos s) in *.
      transitivity (X * inject_Z M * (A * B)); [ring |].
      rewrite E1. ring.
Qed.

Lemma div_10000_error (x : float) (K : Z) :
  Binary64.is_finite x = true ->
  Binary64.to_Q x == 0 \/ 1 <= Qabs (Binary64.to_Q x) ->
  Qabs (Binary64.to_Q x) <= 2 ^ K -> (K <= 1022)%Z ->
  Binary64.is_finite (x / 10000) = true
  /\ Qabs (Binary64.to_Q (x / 10000) - Binary64.to_Q x / 10000)
     <= Binary64.eps * (Qabs (Binary64.to_Q x) / 10000) + Binary64.tiny.
Proof.
  unfold Binary64.is_finite, Binary64.to_Q.
  rewrite FloatAxioms.div_spec, Prim2SF_10000.
  pose proof (Prim2SF_valid (x / 10000)) as Hvalid.
  rewrite FloatAxioms.div_spec, Prim2SF_10000 in Hvalid.
  destruct (Prim2SF x) as [sx | sx | | sx mx ex] eqn:Ex; try discriminate;
    intros _ Hone HK HK'.
  - cbn. split; [reflexivity |]. vm_compute. discriminate.
  - pose proof (Prim2SF_bounded x sx mx ex Ex) as Hb.
    rewrite SFvalue_abs in *.
    set (A := inject_Z (Z.pos mx) * 2 ^ ex) in *.
    assert (HA : 0 < A)
      by (unfold A; pose proof (pow2_pos ex);
          pose proof (inject_Z_pos_pos mx); nra).
    assert (H1 : 1 <= A).
    { destruct Hone as [H0 | H]; [| exact H]. exfalso.
      cbn [Binary64.SFvalue] in H0. fold A in H0.
      destruct sx; [rewrite inject_Z_neg in H0 |];
        unfold A in HA; nra. }
    unfold SF64div, SFdiv in *. rewrite xorb_false_r in *.
    pose proof (div_core_10000 mx ex Hb H1) as Hcore.
    destruct (SFdiv_core_binary prec emax (Z.pos mx) ex 5497558138880000
                (-39)) as [[q e'] l].
    destruct Hcore as (Hq & He' & X & HX & EX).
    fold A in EX.
    set (Y := X * 2 ^ e') in *.
    assert (EY : Y == A / 10000) by (unfold Y in *; field_simplify_eq; lra).
    assert (HY : Y <= 2 ^ K) by (rewrite EY; lra).
    assert (HY0 : 0 <= Y) by (rewrite EY; lra).
    assert (Hv : Binary64.SFvalue (S754_finite sx mx ex) / 10000
                 == if sx then - Y else Y).
    { cbn [Binary64.SFvalue]. fold A.
      destruct sx; rewrite EY, ?inject_Z_neg; unfold A; field. }
    rewrite Hv, <- EY.
    destruct (binary_round_aux_error sx q e' l X K Hq HX He' HY HK' Hvalid)
      as [[-> Hz] | (p & e2 & -> & Herr)].
    + split; [reflexivity |]. cbn [Binary64.SFvalue].
      fold Y in Hz. unfold Binary64.eps, Binary64.tiny.
      assert (0 <= 2 ^ (-51) * Y)
        by (assert (0 < 2 ^ (-51)) by apply pow2_pos; nra).
      apply Qabs_Qle_condition. destruct sx; split; lra.
    + split; [reflexivity |].
      fold Y in Herr. exact (signed_error sx p e2 Y _ HY0 Herr).
Qed.

(** *** [Math.round] *)

(** An integer [n] between [(2 z - 1) * 2^(-e-1)] and [(2 z + 1) * 2^(-e-1)]
    is a number [n * 2^e] between [z - 1/2] and [z + 1/2]. *)
Lemma half_bounds (n z e : Z) :
  (e < 0)%Z ->
  ((2 * z - 1) * 2 ^ (- e - 1) <= n < (2 * z + 1) * 2 ^ (- e - 1))%Z ->
  inject_Z z - (1 # 2) <= inject_Z n * 2 ^ e
  /\ inject_Z n * 2 ^ e < inject_Z z + (1 # 2).
Proof.
  intros He [Hlo Hhi].
  assert (Hh : (0 < 2 ^ (- e - 1))%Z) by (apply Z.pow_pos_nonneg; lia).
  assert (E : 2 ^ e == / (2 * inject_Z (2 ^ (- e - 1)))).
  { rewrite inject_Z_pow2 by lia. rewrite <- pow2_succ.
    replace (- e - 1 + 1)%Z with (- e)%Z by lia.
    rewrite Qpower_opp, Qinv_involutive. reflexivity. }
  rewrite E. clear E.
  rewrite Zlt_Qlt in Hh. change (inject_Z 0) with 0 in Hh.
  set (hz := (2 ^ (- e - 1))%Z) in *.
  replace (2 * z - 1)%Z with (2 * z + -1)%Z in Hlo by lia.
  rewrite Zle_Qle in Hlo. rewrite Zlt_Qlt in Hhi.
  rewrite !inject_Z_mult, !inject_Z_plus, !inject_Z_mult in Hlo, Hhi.
  change (inject_Z 2) with 2 in *. change (inject_Z 1) with 1 in *.
  change (inject_Z (-1)) with (-1) in *.
  set (h := inject_Z hz) in *. clearbody h.
  assert (Ei : inject_Z n * / (2 * h) * (2 * h) == inject_Z n)
    by (field; lra).
  set (v := inject_Z n * / (2 * h)) in *. clearbody v.
  split; nra.
Qed.

(** [Math.round] of a finite double is the integer [z] with
    [z - 1/2 <= x < z + 1/2]. *)
Lemma Math_round_value (x : float) :
  Binary64.is_finite x = true ->
  Binary64.is_finite (Binary64.Math_round x) = true
  /\ exists z : Z,
       Binary64.to_Q (Binary64.Math_round x) == inject_Z z
       /\ inject_Z z - (1 # 2) <= Binary64.to_Q x
       /\ Binary64.to_Q x < inject_Z z + (1 # 2).
Proof.
  unfold Binary64.is_finite, Binary64.to_Q. intros Hf.
  destruct (Prim2SF x) as [sx | sx | | s m e] eqn:Ex; try discriminate.
  - unfold Binary64.Math_round. rewrite Ex. rewrite Ex.
    split; [reflexivity |]. exists 0%Z. cbn. repeat split; discriminate.
  - destruct (Z.le_gt_cases 0 e) as [He | He].
    + unfold Binary64.Math_round. rewrite Ex.
      replace (0 <=? e)%Z with true by (symmetry; apply Z.leb_le; exact He).
      rewrite Ex. split; [reflexivity |].
      exists ((if s then Z.neg m else Z.pos m) * 2 ^ e)%Z.
      cbn [Binary64.SFvalue].
      rewrite inject_Z_mult, inject_Z_pow2 by exact He.
      repeat split; lra.
    + destruct (Math_round_exact x s m e Ex He) as (z & Hb & Hz).
      set (n := if s then Z.neg m else Z.pos m) in *.
      assert (Hsign : if s then (z <= 0)%Z else (0 <= z)%Z).
      { assert (Hh : (0 < 2 ^ (- e - 1))%Z)
          by (apply Z.pow_pos_nonneg; lia).
        destruct s; unfold n in Hb; nia. }
      pose proof (half_bounds n z e He Hb) as Hval.
      change (inject_Z n * 2 ^ e)
        with (Binary64.SFvalue (S754_finite s m e)) in Hval.
      destruct z as [| p | p].
      * rewrite Hz. split; [reflexivity |].
        exists 0%Z. split; [reflexivity | exact Hval].
      * destruct Hz as (m' & e' & -> & He' & Hm').
        split; [reflexivity |]. exists (Z.pos p).
        split; [| exact Hval].
        destruct s; [lia |]. cbn [Binary64.SFvalue].
        rewrite Hm'. cbn [Z.abs]. rewrite inject_Z_mult, inject_Z_pow2 by lia.
        rewrite Qpower_opp. pose proof (pow2_pos e'). field. lra.
      * destruct Hz as (m' & e' & -> & He' & Hm').
        split; [reflexivity |]. exists (Z.neg p).
        split; [| exact Hval].
        destruct s; [| lia]. cbn [Binary64.SFvalue].
        rewrite (inject_Z_neg m'), Hm'. cbn [Z.abs].
        rewrite inject_Z_mult, inject_Z_pow2 by lia.
        rewrite Qpower_opp. pose proof (pow2_pos e'). 
        rewrite (inject_Z_neg p). field. lra.
Qed.

(** ** Units of the fourth decimal *)

Lemma eps_value : Binary64.eps == 1 # 2251799813685248.
Proof. reflexivity. Qed.

Lemma tiny_small : Binary64.tiny <= 1 # 1152921504606846976.
Proof. vm_compute. discriminate. Qed.

Lemma pow2_ge_1 (K : Z) : (0 <= K)%Z -> 1 <= 2 ^ K.
Proof. intros H. change 1 with (2 ^ 0). now apply pow2_le. Qed.

Lemma Qabs_triangle_sub (a b c : Q) :
  Qabs (a - c) <= Qabs (a - b) + Qabs (b - c).
Proof.
  assert (E : a - c == (a - b) + (b - c)) by ring.
  rewrite E. apply Qabs_triangle.
Qed.

Lemma Qabs_bound (a b d : Q) : Qabs (a - b) <= d -> Qabs a <= Qabs b + d.
Proof.
  intros H. apply Qabs_Qle_condition in H as [H1 H2].
  apply Qabs_Qle_condition.
  pose proof (Qle_Qabs b). pose proof (Qle_Qabs (- b)) as H4.
  rewrite Qabs_opp in H4. split; lra.
Qed.

Lemma Qabs_inject_Z (z : Z) : Qabs (inject_Z z) = inject_Z (Z.abs z).
Proof. reflexivity. Qed.

(** [units4 x] is an integer within 1/2 of the double [x * 10000]. *)
Lemma units4_value (x : float) (K : Z) :
  Binary64.is_finite x = true ->
  Qabs (Binary64.to_Q x) <= 2 ^ K -> (0 <= K <= 1000)%Z ->
  Binary64.is_finite (Binary64.units4 x) = true
  /\ exists z : Z,
       Binary64.to_Q (Binary64.units4 x) == inject_Z z
       /\ Qabs (inject_Z z - 10000 * Binary64.to_Q x)
          <= (1 # 2) + (1 # 100000000000) * 2 ^ K
       /\ Qabs (inject_Z z) <= 2 ^ (K + 15).
Proof.
  intros Hf HK HK'.
  destruct (mul_10000_error x K Hf HK ltac:(lia)) as [Hfm Hm].
  destruct (Math_round_value (x * 10000) Hfm) as (Hfr & z & Hz & Hlo & Hhi).
  split; [exact Hfr |]. exists z. split; [exact Hz |].
  rewrite eps_value in Hm. pose proof tiny_small as Ht.
  pose proof (pow2_ge_1 K ltac:(lia)) as H1.
  pose proof (Qabs_nonneg (Binary64.to_Q x)) as H0.
  pose proof (proj1 (Qabs_Qle_condition (Binary64.to_Q x) _)
                (Qle_refl (Qabs (Binary64.to_Q x)))) as Hv.
  set (a := Qabs (Binary64.to_Q x)) in *. clearbody a.
  set (P := 2 ^ K) in *.
  assert (HP : 2 ^ (K + 15) == 32768 * P)
    by (unfold P; rewrite pow2_plus; change (2 ^ 15) with 32768; ring).
  rewrite HP. clearbody P.
  apply Qabs_Qle_condition in Hm as [Hm1 Hm2].
  set (p := Binary64.to_Q (x * 10000)) in *. clearbody p.
  set (v := Binary64.to_Q x) in *. clearbody v.
  destruct Hv as [Hv1 Hv2].
  split; apply Qabs_Qle_condition; split; lra.
Qed.

(** [round4 x] is the double nearest to that integer over 10000. *)
Lemma round4_value (x : float) (K : Z) :
  Binary64.is_finite x = true ->
  Qabs (Binary64.to_Q x) <= 2 ^ K -> (0 <= K <= 1000)%Z ->
  Binary64.is_finite (Binary64.round4 x) = true
  /\ exists z : Z,
       Binary64.to_Q (Binary64.units4 x) == inject_Z z
       /\ Qabs (inject_Z z - 10000 * Binary64.to_Q x)
          <= (1 # 2) + (1 # 100000000000) * 2 ^ K
       /\ Qabs (Binary64.to_Q (Binary64.round4 x) - inject_Z z / 10000)
          <= (1 # 500000000000000) * 2 ^ K.
Proof.
  intros Hf HK HK'.
  destruct (units4_value x K Hf HK HK') as (Hfu & z & Hz & Hnear & Hbig).
  assert (Hint : Binary64.to_Q (Binary64.units4 x) == 0
                 \/ 1 <= Qabs (Binary64.to_Q (Binary64.units4 x))).
  { rewrite Hz. destruct (Z.eq_dec z 0) as [-> | Hnz]; [left; reflexivity |].
    right. rewrite Qabs_inject_Z. change 1 with (inject_Z 1).
    rewrite <- Zle_Qle. lia. }
  assert (Hbig' : Qabs (Binary64.to_Q (Binary64.units4 x)) <= 2 ^ (K + 15))
    by (rewrite Hz; exact Hbig).
  destruct (div_10000_error (Binary64.units4 x) (K + 15) Hfu Hint Hbig'
              ltac:(lia)) as [Hfd Hd].
  split; [exact Hfd |]. exists z. split; [exact Hz |].
  split; [exact Hnear |].
  change (Binary64.units4 x / 10000)%float with (Binary64.round4 x) in Hd.
  rewrite Hz in Hd. rewrite eps_value in Hd. pose proof tiny_small as Ht.
  pose proof (pow2_ge_1 K ltac:(lia)) as H1.
  assert (HP : 2 ^ (K + 15) == 32768 * 2 ^ K)
    by (rewrite pow2_plus; change (2 ^ 15) with 32768; ring).
  rewrite HP in Hbig. set (P := 2 ^ K) in *. clearbody P.
  set (a := Qabs (inject_Z z)) in *. clearbody a.
  eapply Qle_trans; [exact Hd |].
  unfold Qdiv. change (/ 10000) with (1 # 10000). lra.
Qed.

(** *** The stored total against the stored phases *)

Lemma Qabs_lt_2 (a b : Z) :
  Qabs (inject_Z a - inject_Z b) < 2 -> (Z.abs (a - b) <= 1)%Z.
Proof.
  intros H.
  assert (E : inject_Z a - inject_Z b == inject_Z (a - b)).
  { unfold Z.sub. rewrite inject_Z_plus, inject_Z_opp. reflexivity. }
  rewrite E, Qabs_inject_Z in H. change 2 with (inject_Z 2) in H.
  rewrite <- Zlt_Qlt in H. lia.
Qed.

Lemma stored_sum_units (four eol : float) :
  Binary64.is_finite four = true -> Binary64.is_finite eol = true ->
  Qabs (Binary64.to_Q four) <= 2 ^ 30 ->
  Qabs (Binary64.to_Q eol) <= 2 ^ 30 ->
  exists zT zS : Z,
    Binary64.to_Q (Binary64.units4 (four + eol)) == inject_Z zT
    /\ Binary64.to_Q (Binary64.units4 (four + Binary64.round4 eol))
       == inject_Z zS
    /\ (Z.abs (zT - zS) <= 1)%Z.
Proof.
  intros Hff Hfe Hs He.
  change (2 ^ 30) with 1073741824 in *.
  pose proof tiny_small as Ht.
  (* the total before rounding *)
  assert (Hse : Qabs (Binary64.to_Q four + Binary64.to_Q eol) <= 2 ^ 31).
  { eapply Qle_trans; [apply Qabs_triangle |].
    change (2 ^ 31) with 2147483648. lra. }
  destruct (add_error four eol 31 Hff Hfe Hse ltac:(lia)) as [Hfa Ha].
  rewrite eps_value in Ha.
  assert (Ha' : Qabs (Binary64.to_Q (four + eol)) <= 2 ^ 32).
  { eapply Qle_trans; [apply (Qabs_bound _ _ _ Ha) |].
    change (2 ^ 31) with 2147483648 in Hse.
    change (2 ^ 32) with 4294967296. lra. }
  destruct (units4_value (four + eol) 32 Hfa Ha' ltac:(lia))
    as (_ & zT & HzT & HnT & _).
  (* the stored end-of-life value *)
  destruct (round4_value eol 30 Hfe He ltac:(lia))
    as (Hfr & zE & _ & HnE & HdE).
  (* the sum of the stored values *)
  assert (HE : Qabs (Binary64.to_Q (Binary64.round4 eol)) <= 2 ^ 31).
  { apply Qabs_bound in HdE. apply Qabs_bound in HnE.
    change (2 ^ 30) with 1073741824 in *.
    change (2 ^ 31) with 2147483648.
    assert (E1 : Qabs (inject_Z zE / 10000)
                 == Qabs (inject_Z zE) * (1 # 10000)).
    { unfold Qdiv. rewrite Qabs_Qmult. reflexivity. }
    assert (E2 : Qabs (10000 * Binary64.to_Q eol)
                 == 10000 * Qabs (Binary64.to_Q eol)).
    { rewrite Qabs_Qmult. reflexivity. }
    rewrite E1 in HdE. rewrite E2 in HnE. lra. }
  assert (HsE : Qabs (Binary64.to_Q four
                      + Binary64.to_Q (Binary64.round4 eol)) <= 2 ^ 32).
  { eapply Qle_trans; [apply Qabs_triangle |].
    change (2 ^ 31) with 2147483648 in HE.
    change (2 ^ 32) with 4294967296. lra. }
  destruct (add_error four (Binary64.round4 eol) 32 Hff Hfr HsE ltac:(lia))
    as [Hfb Hb].
  rewrite eps_value in Hb.
  assert (Hb' : Qabs (Binary64.to_Q (four + Binary64.round4 eol)) <= 2 ^ 33).
  { eapply Qle_trans; [apply (Qabs_bound _ _ _ Hb) |].
    change (2 ^ 32) with 4294967296 in HsE.
    change (2 ^ 33) with 8589934592. lra. }
  destruct (units4_value (four + Binary64.round4 eol) 33 Hfb Hb' ltac:(lia))
    as (_ & zS & HzS & HnS & _).
  exists zT, zS. split; [exact HzT | split; [exact HzS |]].
  apply Qabs_lt_2.
  change (2 ^ 30) with 1073741824 in *.
  change (2 ^ 31) with 2147483648 in *.
  change (2 ^ 32) with 4294967296 in *.
  change (2 ^ 33) with 8589934592 in *.
  set (s := Binary64.to_Q four) in *.
  set (e := Binary64.to_Q eol) in *.
  set (a := Binary64.to_Q (four + eol)) in *.
  set (r := Binary64.to_Q (Binary64.round4 eol)) in *.
  clearbody s e a r.
  apply Qabs_Qle_condition in Ha as [Ha1 Ha2], Hb as [Hb1 Hb2],
    HnT as [HnT1 HnT2], HnE as [HnE1 HnE2], HnS as [HnS1 HnS2],
    HdE as [HdE1 HdE2].
  unfold Qdiv in *. change (/ 10000) with (1 # 10000) in *.
  apply Qabs_Qlt_condition. split; lra.
Qed.

(** *** [Math.round] next to a known integer *)

Lemma Math_round_near (x : float) (z : Z) :
  Binary64.is_finite x = true ->
  (0 < Z.abs z < 2 ^ 50)%Z ->
  inject_Z z - (1 # 2) <= Binary64.to_Q x ->
  Binary64.to_Q x < inject_Z z + (1 # 2) ->
  Binary64.Math_round x
  = if (z <? 0)%Z then (- Binary64.of_integer (- z))%float
    else Binary64.of_integer z.
Proof.
  unfold Binary64.is_finite, Binary64.to_Q. intros Hf Hz Hlo Hhi.
  assert (Hz1 : inject_Z z <= -1 \/ 1 <= inject_Z z).
  { destruct (Z.le_gt_cases z 0) as [H | H]; [left | right].
    - change (-1) with (inject_Z (-1)). rewrite <- Zle_Qle. lia.
    - change 1 with (inject_Z 1). rewrite <- Zle_Qle. lia. }
  assert (Hz2 : - 2 ^ 50 < inject_Z z < 2 ^ 50).
  { rewrite <- (inject_Z_pow2 50) by lia.
    rewrite <- inject_Z_opp, <- !Zlt_Qlt. lia. }
  destruct (Prim2SF x) as [sx | sx | | s m e] eqn:Ex; try discriminate.
  - cbn [Binary64.SFvalue] in *. lra.
  - destruct (Z.le_gt_cases 0 e) as [He | He].
    + exfalso.
      destruct (bounded_cases m e (Prim2SF_bounded x s m e Ex))
        as (_ & [[Hm _] | ->]); [| lia].
      pose proof (SFvalue_abs s m e) as Ha.
      pose proof (pow2_ge_1 e He) as H1.
      assert (Hbig : 2 ^ 52 <= Qabs (Binary64.SFvalue (S754_finite s m e))).
      { rewrite Ha. change (2 ^ 52) with 4503599627370496 in *. nra. }
      change (2 ^ 52) with 4503599627370496 in *.
      change (2 ^ 50) with 1125899906842624 in *.
      set (v := Binary64.SFvalue (S754_finite s m e)) in *. clearbody v.
      assert (Qabs v <= 1125899906842625)
        by (apply Qabs_Qle_condition; split; lra).
      lra.
    + set (n := if s then Z.neg m else Z.pos m).
      pose proof (nearest_bounds s m e He) as Hb. cbv zeta in Hb.
      pose proof (half_bounds n _ e He Hb) as [Hlo' Hhi'].
      change (inject_Z n * 2 ^ e)
        with (Binary64.SFvalue (S754_finite s m e)) in *.
      set (z' := Binary64.nearest s m e) in *.
      assert (Hzz : z' = z).
      { assert (H1 : inject_Z z' < inject_Z z + 1) by lra.
        assert (H2 : inject_Z z < inject_Z z' + 1) by lra.
        change 1 with (inject_Z 1) in H1, H2.
        rewrite <- inject_Z_plus, <- Zlt_Qlt in H1, H2. lia. }
      assert (Hsign : if s then (z' <= 0)%Z else (0 <= z')%Z).
      { destruct s; unfold n in Hb;
          assert (0 < 2 ^ (- e - 1))%Z by (apply Z.pow_pos_nonneg; lia); nia. }
      unfold Binary64.Math_round. rewrite Ex.
      replace (0 <=? e)%Z with false by (symmetry; apply Z.leb_gt; exact He).
      fold z'. rewrite Hzz in *.
      destruct s.
      * replace (z <? 0)%Z with true by (symmetry; apply Z.ltb_lt; lia).
        reflexivity.
      * replace (z <? 0)%Z with false by (symmetry; apply Z.ltb_ge; lia).
        reflexivity.
Qed.

(** *** The sum of weight times blended factor *)

Lemma exact_sum_nonneg (ws : list float) :
  Forall (fun w => Binary64.is_finite w = true /\ 0 <= Binary64.to_Q w) ws ->
  0 <= Binary64.exact_sum ws.
Proof.
  induction 1 as [| w ws [_ Hw] _ IH]; cbn [Binary64.exact_sum fold_right].
  - discriminate.
  - fold (Binary64.exact_sum ws). lra.
Qed.

Lemma Qabs_cases (v b : Q) : Qabs v <= b <-> - b <= v /\ v <= b.
Proof. apply Qabs_Qle_condition. Qed.

Section WeightedSum.

Local Open Scope float_scope.

(** A blended factor [bf] of magnitude at most 1 and weights that add up
    to at most [2^K]. *)
Variable bf : float.
Variables (sy : bool) (my : positive) (ey : Z).
Hypothesis bf_finite : Prim2SF bf = S754_finite sy my ey.
Hypothesis bf_exponent : (ey <= 0)%Z.
Hypothesis bf_small : (Qabs (Binary64.to_Q bf) <= 1)%Q.

Variable K : Z.
Hypothesis K_range : (0 <= K <= 1000)%Z.

(** One turn of the loop [sum + weight * blendedFactor]: the distance to
    the exact sum grows by at most [2^(K - 48)]. *)
Lemma weighted_sum_step (acc w : float) (k : Z) (W0 : Q) :
  Binary64.is_finite acc = true -> Binary64.is_finite w = true ->
  (0 <= W0)%Q -> (0 <= Binary64.to_Q w)%Q ->
  (W0 + Binary64.to_Q w <= 2 ^ K)%Q ->
  (0 <= k <= 1048576)%Z ->
  (Qabs (Binary64.to_Q acc - Binary64.to_Q bf * W0)
   <= inject_Z k * 2 ^ (-48) * 2 ^ K)%Q ->
  Binary64.is_finite (acc + w * bf) = true
  /\ (Qabs (Binary64.to_Q (acc + w * bf)
            - Binary64.to_Q bf * (W0 + Binary64.to_Q w))
      <= inject_Z (k + 1) * 2 ^ (-48) * 2 ^ K)%Q.
Proof.
  intros Hfa Hfw HW0 Hw HW Hk Hacc.
  pose proof tiny_small as Ht. pose proof tiny_pos as Ht0.
  pose proof (pow2_ge_1 K ltac:(lia)) as HP.
  assert (HP2 : (2 ^ (K + 1) == 2 * 2 ^ K)%Q) by apply pow2_succ.
  set (P := (2 ^ K)%Q) in *.
  set (beta := Binary64.to_Q bf) in *.
  apply Qabs_cases in bf_small as Hbeta. destruct Hbeta as [Hb1 Hb2].
  assert (Hq1 : (Qabs (Binary64.to_Q w * beta) <= P)%Q).
  { apply Qabs_cases. split; nra. }
  destruct (mul_error w bf sy my ey K Hfw bf_finite bf_exponent Hq1
              ltac:(lia)) as [Hft Ht1].
  fold beta in Ht1. rewrite eps_value in Ht1.
  assert (Hk1 : (0 <= inject_Z k * 2 ^ (-48) * P
                 <= (1 # 268435456) * P)%Q).
  { change (2 ^ (-48))%Q with (1 # 281474976710656)%Q.
    assert (H0 : (0 <= inject_Z k)%Q)
      by (change 0%Q with (inject_Z 0); rewrite <- Zle_Qle; lia).
    assert (H1 : (inject_Z k <= 1048576)%Q)
      by (change 1048576%Q with (inject_Z 1048576);
          rewrite <- Zle_Qle; lia).
    split; nra. }
  rewrite inject_Z_plus. change (inject_Z 1) with 1%Q.
  set (ek := (inject_Z k * 2 ^ (-48) * P)%Q) in *.
  assert (Eek : ((inject_Z k + 1) * 2 ^ (-48) * P
                 == ek + (1 # 281474976710656) * P)%Q).
  { unfold ek. change (2 ^ (-48))%Q with (1 # 281474976710656)%Q. ring. }
  rewrite Eek. clearbody ek. clear Eek.
  assert (Eq0 : (beta * (W0 + Binary64.to_Q w)
                 == beta * W0 + Binary64.to_Q w * beta)%Q) by ring.
  rewrite Eq0.
  assert (Hq : (- P <= beta * W0 + Binary64.to_Q w * beta <= P)%Q).
  { rewrite <- Eq0. split; nra. }
  set (q0 := (beta * W0)%Q) in *.
  set (q1 := (Binary64.to_Q w * beta)%Q) in *.
  set (t := Binary64.to_Q (w * bf)) in *.
  set (a := Binary64.to_Q acc) in *.
  apply Qabs_cases in Hacc as [Ha1 Ha2].
  assert (Ht1' : (Qabs (t - q1) <= (1 # 2000000000000000) * P)%Q).
  { eapply Qle_trans; [exact Ht1 |].
    set (A := Qabs q1) in *. clearbody A P. lra. }
  apply Qabs_cases in Ht1' as [Ht11 Ht12].
  assert (Hsum : (Qabs (a + t) <= 2 ^ (K + 1))%Q).
  { rewrite HP2. apply Qabs_cases.
    destruct Hq, Hk1. clearbody q0 q1 t a P. split; lra. }
  destruct (add_error acc (w * bf) (K + 1) Hfa Hft Hsum ltac:(lia))
    as [Hfr Hr].
  split; [exact Hfr |].
  fold a t in Hr. rewrite eps_value in Hr. rewrite HP2 in Hsum.
  set (r := Binary64.to_Q (acc + w * bf)) in *.
  assert (Hr' : (Qabs (r - (a + t)) <= (1 # 1000000000000000) * P)%Q).
  { eapply Qle_trans; [exact Hr |].
    set (A := Qabs (a + t)) in *. clearbody A P. lra. }
  apply Qabs_cases in Hr' as [Hr1 Hr2].
  destruct Hq, Hk1.
  clearbody q0 q1 t a r P. apply Qabs_cases. split; lra.
Qed.

(** The loop over all the weights. *)
Lemma weighted_sum_error (ws : list float) :
  forall (acc : float) (k : Z) (W0 : Q),
    Binary64.is_finite acc = true -> (0 <= W0)%Q ->
    Forall (fun w => Binary64.is_finite w = true
                     /\ (0 <= Binary64.to_Q w)%Q) ws ->
    (W0 + Binary64.exact_sum ws <= 2 ^ K)%Q ->
    (0 <= k)%Z -> (k + Z.of_nat (length ws) <= 1048576)%Z ->
    (Qabs (Binary64.to_Q acc - Binary64.to_Q bf * W0)
     <= inject_Z k * 2 ^ (-48) * 2 ^ K)%Q ->
    let r := fold_left (fun sum w => sum + w * bf) ws acc in
    Binary64.is_finite r = true
    /\ (Qabs (Binary64.to_Q r
              - Binary64.to_Q bf * (W0 + Binary64.exact_sum ws))
        <= inject_Z (k + Z.of_nat (length ws)) * 2 ^ (-48) * 2 ^ K)%Q.
Proof.
  induction ws as [| w ws IH]; intros acc k W0 Hfa HW0 Hall HW Hk HN Hacc.
  - cbn [fold_left Binary64.exact_sum fold_right length Z.of_nat].
    split; [exact Hfa |].
    rewrite Z.add_0_r.
    assert (E : (W0 + 0 == W0)%Q) by ring. rewrite E. exact Hacc.
  - inversion Hall as [| w' ws' [Hfw Hw] Hall' E]. subst w' ws'.
    pose proof (exact_sum_nonneg ws Hall') as Hs.
    cbn [Binary64.exact_sum fold_right] in HW.
    fold (Binary64.exact_sum ws) in HW.
    cbn [length] in HN. rewrite Nat2Z.inj_succ in HN.
    destruct (weighted_sum_step acc w k W0 Hfa Hfw HW0 Hw ltac:(lra)
                ltac:(lia) Hacc) as [Hf1 He1].
    destruct (IH (acc + w * bf) (k + 1)%Z (W0 + Binary64.to_Q w)%Q Hf1
                ltac:(lra) Hall' ltac:(lra) ltac:(lia) ltac:(lia) He1)
      as [Hf2 He2].
    cbn [fold_left Binary64.exact_sum fold_right length].
    fold (Binary64.exact_sum ws).
    split; [exact Hf2 |].
    rewrite Nat2Z.inj_succ.
    replace (k + Z.succ (Z.of_nat (length ws)))%Z
      with (k + 1 + Z.of_nat (length ws))%Z by lia.
    assert (E : (W0 + (Binary64.to_Q w + Binary64.exact_sum ws)
                 == W0 + Binary64.to_Q w + Binary64.exact_sum ws)%Q) by ring.
    rewrite E. exact He2.
Qed.

(** From [sum = 0]. *)
Lemma eol_impact_error (ws : list float) :
  Forall (fun w => Binary64.is_finite w = true
                   /\ (0 <= Binary64.to_Q w)%Q) ws ->
  (Binary64.exact_sum ws <= 2 ^ K)%Q ->
  (Z.of_nat (length ws) <= 1048576)%Z ->
  Binary64.is_finite (Spec64.eol_impact ws bf) = true
  /\ (Qabs (Binary64.to_Q (Spec64.eol_impact ws bf)
            - Binary64.to_Q bf * Binary64.exact_sum ws)
      <= inject_Z (Z.of_nat (length ws)) * 2 ^ (-48) * 2 ^ K)%Q.
Proof.
  intros Hall HW Hlen.
  assert (H0 : (Qabs (Binary64.to_Q 0 - Binary64.to_Q bf * 0)
                <= inject_Z 0 * 2 ^ (-48) * 2 ^ K)%Q).
  { change (Binary64.to_Q 0) with 0%Q.
    change (inject_Z 0) with 0%Q.
    change (2 ^ (-48))%Q with (1 # 281474976710656)%Q.
    pose proof (pow2_pos K).
    apply Qabs_cases. split; lra. }
  destruct (weighted_sum_error ws 0 0%Z 0%Q eq_refl ltac:(lra) Hall
              ltac:(lra) ltac:(lia) ltac:(lia) H0) as [Hf He].
  split; [exact Hf |].
  rewrite Z.add_0_l in He.
  assert (E : (Binary64.to_Q bf * (0 + Binary64.exact_sum ws)
               == Binary64.to_Q bf * Binary64.exact_sum ws)%Q) by ring.
  rewrite E in He. exact He.
Qed.

End WeightedSum.

(** *** The units of a stored value *)

Lemma finite_zero_value (x : float) :
  Binary64.is_finite x = true -> Binary64.to_Q x == 0 ->
  exists s : bool, Prim2SF x = S754_zero s.
Proof.
  unfold Binary64.is_finite, Binary64.to_Q.
  destruct (Prim2SF x) as [s | s | | s m e]; try discriminate.
  - intros _ _. now exists s.
  - intros _ H. exfalso. pose proof (SFvalue_abs s m e) as Ha.
    rewrite H in Ha. pose proof (pow2_pos e) as P.
    pose proof (inject_Z_pos_pos m) as M.
    change (Qabs 0) with 0 in Ha. nra.
Qed.

(** Dividing a rounded number by 10000 and multiplying the quotient by
    10000 again leads back to it under [Math.round]. *)
Lemma Math_round_stable (p : float) :
  Binary64.is_finite p = true -> Qabs (Binary64.to_Q p) <= 2 ^ 46 ->
  Binary64.Math_round (Binary64.Math_round p / 10000 * 10000)%float
  = Binary64.Math_round p.
Proof.
  intros Hf Hp.
  destruct (Math_round_value p Hf) as (Hfu & z & Hz & Hlo & Hhi).
  set (u := Binary64.Math_round p) in *.
  destruct (Z.eq_dec z 0) as [-> | Hnz].
  - destruct (finite_zero_value u Hfu Hz) as [s Hs].
    assert (Hy : Prim2SF (u / 10000 * 10000)%float = S754_zero s).
    { rewrite FloatAxioms.mul_spec, FloatAxioms.div_spec, Hs, Prim2SF_10000.
      cbn. now rewrite !xorb_false_r. }
    unfold Binary64.Math_round at 1. rewrite Hy.
    apply Prim2SF_inj. now rewrite Hy, Hs.
  - change (2 ^ 46) with 70368744177664 in Hp.
    apply Qabs_cases in Hp as [Hp1 Hp2].
    assert (Hzb : Qabs (inject_Z z) <= 2 ^ 47).
    { change (2 ^ 47) with 140737488355328. apply Qabs_cases. split; lra. }
    assert (Hz50 : (0 < Z.abs z < 2 ^ 50)%Z).
    { split; [lia |]. rewrite Qabs_inject_Z in Hzb.
      rewrite <- (inject_Z_pow2 47) in Hzb by lia.
      rewrite <- Zle_Qle in Hzb.
      apply Z.le_lt_trans with (2 ^ 47)%Z; [exact Hzb | reflexivity]. }
    assert (Hint : Binary64.to_Q u == 0 \/ 1 <= Qabs (Binary64.to_Q u)).
    { right. rewrite Hz, Qabs_inject_Z. change 1 with (inject_Z 1).
      rewrite <- Zle_Qle. lia. }
    assert (Hub : Qabs (Binary64.to_Q u) <= 2 ^ 47) by (now rewrite Hz).
    destruct (div_10000_error u 47 Hfu Hint Hub ltac:(lia)) as [Hfd Hd].
    rewrite Hz, eps_value in Hd.
    pose proof tiny_small as Ht. pose proof tiny_pos as Ht0.
    change (2 ^ 47) with 140737488355328 in Hzb.
    unfold Qdiv in Hd. change (/ 10000) with (1 # 10000) in Hd.
    assert (Hdb : Qabs (Binary64.to_Q (u / 10000)%float) <= 2 ^ 34).
    { apply Qabs_bound in Hd. eapply Qle_trans; [exact Hd |].
      rewrite Qabs_Qmult. change (Qabs (1 # 10000)) with (1 # 10000).
      change (2 ^ 34) with 17179869184. lra. }
    destruct (mul_10000_error (u / 10000)%float 34 Hfd Hdb ltac:(lia))
      as [Hfy Hy].
    rewrite eps_value in Hy.
    change (2 ^ 34) with 17179869184 in Hdb.
    assert (Hnear : Qabs (Binary64.to_Q (u / 10000 * 10000)%float
                          - inject_Z z) <= 1 # 4).
    { set (y := Binary64.to_Q (u / 10000 * 10000)%float) in *.
      set (d := Binary64.to_Q (u / 10000)%float) in *.
      set (a := Qabs (inject_Z z)) in *. set (b := Qabs d) in *.
      clearbody y d a b.
      apply Qabs_cases in Hd as [Hd1 Hd2], Hy as [Hy1 Hy2].
      apply Qabs_cases. split; lra. }
    apply Qabs_cases in Hnear as [Hn1 Hn2].
    rewrite (Math_round_near _ z Hfy Hz50) by lra.
    unfold u. rewrite (Math_round_near p z Hf Hz50 Hlo Hhi). reflexivity.
Qed.

Lemma units4_round4 (x : float) :
  Binary64.is_finite x = true -> Qabs (Binary64.to_Q x) <= 2 ^ 32 ->
  Binary64.units4 (Binary64.round4 x) = Binary64.units4 x.
Proof.
  intros Hf Hx.
  destruct (mul_10000_error x 32 Hf Hx ltac:(lia)) as [Hfm Hm].
  apply Math_round_stable; [exact Hfm |].
  apply Qabs_bound in Hm. eapply Qle_trans; [exact Hm |].
  rewrite eps_value. pose proof tiny_small as Ht.
  rewrite Qabs_Qmult. change (Qabs 10000) with 10000.
  change (2 ^ 32) with 4294967296 in Hx.
  change (2 ^ 46) with 70368744177664. lra.
Qed.

(** The stored total and the sum of the stored phases, in units of the
    fourth decimal. *)
Lemma stored_total_units (four eol : float) :
  Binary64.is_finite four = true -> Binary64.is_finite eol = true ->
  Qabs (Binary64.to_Q four) <= 2 ^ 30 ->
  Qabs (Binary64.to_Q eol) <= 2 ^ 30 ->
  exists zT zS : Z,
    Binary64.to_Q (Binary64.units4 (Binary64.round4 (four + eol)))
    == inject_Z zT
    /\ Binary64.to_Q (Binary64.units4 (four + Binary64.round4 eol))
       == inject_Z zS
    /\ (Z.abs (zT - zS) <= 1)%Z.
Proof.
  intros Hff Hfe Hs He.
  destruct (stored_sum_units four eol Hff Hfe Hs He)
    as (zT & zS & HzT & HzS & Hz).
  exists zT, zS. split; [| split; [exact HzS | exact Hz]].
  change (2 ^ 30) with 1073741824 in *.
  assert (Hse : Qabs (Binary64.to_Q four + Binary64.to_Q eol) <= 2 ^ 31).
  { eapply Qle_trans; [apply Qabs_triangle |].
    change (2 ^ 31) with 2147483648. lra. }
  destruct (add_error four eol 31 Hff Hfe Hse ltac:(lia)) as [Hfa Ha].
  rewrite units4_round4; [exact HzT | exact Hfa |].
  apply Qabs_bound in Ha. eapply Qle_trans; [exact Ha |].
  rewrite eps_value. pose proof tiny_small as Ht.
  change (2 ^ 31) with 2147483648 in Hse.
  change (2 ^ 32) with 4294967296. lra.
Qed.

(** *** Subtraction *)





(** *** [round4] next to a known number of units *)


(** *** Weights that sum to one kilogram *)


(** *** Two totals over the same four phases *)


(** ** Weights and totals of a recalculation *)

Lemma is_weight_spec (ws : list float) :
  forallb Binary64.is_weight ws = true ->
  Forall (fun w => Binary64.is_finite w = true /\ 0 <= Binary64.to_Q w) ws.
Proof.
  intros H. apply Forall_forall. intros w Hin.
  rewrite forallb_forall in H. specialize (H w Hin).
  unfold Binary64.is_weight in H. apply andb_prop in H as [Hf Hq].
  split; [exact Hf |]. now apply Qle_bool_iff.
Qed.

Lemma Prim2SF_baseline_factor :
  Prim2SF 0.44%float = S754_finite false 7926335344172073 (-54).
Proof. reflexivity. Qed.

Lemma Prim2SF_best_case_factor :
  Prim2SF (-0.08999999999999997)%float
  = S754_finite true 6485183463413512 (-56).
Proof. reflexivity. Qed.



(** *** The blended factors *)

Lemma Prim2SF_worst_case_factor :
  Prim2SF 0.6000000000000001%float
  = S754_finite false 5404319552844596 (-53).
Proof. reflexivity. Qed.

(** The blended factor of a selector is one of four doubles. *)
Lemma binary64_blended_cases (scenario : string) :
  let bf := Binary64.blendedFactor (Binary64.selected_mix scenario) in
  bf = 0.44%float \/ bf = (-0.08999999999999997)%float
  \/ bf = 0.6000000000000001%float \/ bf = 0%float.
Proof.
  cbv zeta.
  destruct (binary64_selected_mix_cases scenario)
    as [(mix & Hin & ->) | [-> | ->]].
  - simpl in Hin.
    destruct Hin as [[= _ <-] | [[= _ <-] | [[= _ <-] | []]]].
    + left. reflexivity.
    + right. left. reflexivity.
    + right. right. left. reflexivity.
  - right. right. right. reflexivity.
  - left. reflexivity.
Qed.

(** Without a factor nothing is added. *)
Lemma eol_impact_zero (ws : list float) :
  Forall (fun w => Binary64.is_finite w = true /\ 0 <= Binary64.to_Q w) ws ->
  Prim2SF (Spec64.eol_impact ws 0%float) = S754_zero false.
Proof.
  unfold Spec64.eol_impact.
  assert (H : forall acc : float,
             Prim2SF acc = S754_zero false ->
             Forall (fun w => Binary64.is_finite w = true
                              /\ 0 <= Binary64.to_Q w) ws ->
             Prim2SF (fold_left (fun sum w => (sum + w * 0)%float) ws acc)
             = S754_zero false).
  { induction ws as [| w ws IH]; intros acc Hacc Hall; [exact Hacc |].
    inversion Hall as [| w' ws' [Hfw _] Hall' E]. subst w' ws'.
    cbn [fold_left]. apply IH; [| exact Hall'].
    rewrite FloatAxioms.add_spec, FloatAxioms.mul_spec, Hacc.
    unfold Binary64.is_finite in Hfw.
    destruct (Prim2SF w) as [s | s | | s m e]; try discriminate;
      destruct s; reflexivity. }
  intros Hall. apply H; [reflexivity | exact Hall].
Qed.

(** *** The stored end-of-life value and the total weight *)

(** For at most 1024 weights of at most 2^20 kg in all, the end-of-life
    value counted in units of the fourth decimal is within 0.6 of the
    exact product of blended factor and total weight. *)
Lemma eol_units_near (bf : float) (ws : list float) :
  bf = 0.44%float \/ bf = (-0.08999999999999997)%float
  \/ bf = 0.6000000000000001%float \/ bf = 0%float ->
  forallb Binary64.is_weight ws = true ->
  (Z.of_nat (length ws) <= 1024)%Z ->
  Binary64.exact_sum ws <= 2 ^ 20 ->
  let e := Spec64.eol_impact ws bf in
  Binary64.is_finite e = true
  /\ Qabs (Binary64.to_Q e) <= 2 ^ 21
  /\ Binary64.is_finite (Binary64.round4 e) = true
  /\ Qabs (Binary64.to_Q (Binary64.round4 e)
           - Binary64.to_Q bf * Binary64.exact_sum ws) <= 6 # 100000
  /\ exists z : Z,
       Binary64.to_Q (Binary64.units4 e) == inject_Z z
       /\ Qabs (inject_Z z
                - 10000 * (Binary64.to_Q bf * Binary64.exact_sum ws))
          <= 6 # 10.
Proof.
  intros Hbf Hw Hlen HW e. apply is_weight_spec in Hw.
  pose proof (exact_sum_nonneg ws Hw) as HW0.
  assert (Hnear : Binary64.is_finite e = true
                  /\ Qabs (Binary64.to_Q e
                           - Binary64.to_Q bf * Binary64.exact_sum ws)
                     <= 1 # 262144
                  /\ Qabs (Binary64.to_Q bf) <= 1).
  { assert (Hgen : forall (sy : bool) (my : positive) (ey : Z),
               Prim2SF bf = S754_finite sy my ey -> (ey <= 0)%Z ->
               Qabs (Binary64.to_Q bf) <= 1 ->
               Binary64.is_finite e = true
               /\ Qabs (Binary64.to_Q e
                        - Binary64.to_Q bf * Binary64.exact_sum ws)
                  <= 1 # 262144
               /\ Qabs (Binary64.to_Q bf) <= 1).
    { intros sy my ey Hp Hey Hb.
      destruct (eol_impact_error bf sy my ey Hp Hey Hb 20 ltac:(lia) ws Hw
                  HW ltac:(lia)) as [Hf He].
      split; [exact Hf | split; [| exact Hb]].
      eapply Qle_trans; [exact He |].
      change (2 ^ (-48)) with (1 # 281474976710656).
      change (2 ^ 20) with 1048576.
      assert (inject_Z (Z.of_nat (length ws)) <= 1024)
        by (change 1024 with (inject_Z 1024); now rewrite <- Zle_Qle).
      lra. }
    destruct Hbf as [-> | [-> | [-> | ->]]].
    - apply (Hgen _ _ _ Prim2SF_baseline_factor); [lia |].
      vm_compute. discriminate.
    - apply (Hgen _ _ _ Prim2SF_best_case_factor); [lia |].
      vm_compute. discriminate.
    - apply (Hgen _ _ _ Prim2SF_worst_case_factor); [lia |].
      vm_compute. discriminate.
    - pose proof (eol_impact_zero ws Hw) as Hz. fold e in Hz.
      unfold Binary64.is_finite, Binary64.to_Q. rewrite Hz.
      split; [reflexivity |].
      change (Prim2SF 0%float) with (S754_zero false).
      cbn [Binary64.SFvalue]. split; apply Qabs_cases; split; lra. }
  destruct Hnear as (Hf & He & Hb).
  change (2 ^ 20) with 1048576 in HW.
  assert (Hp : Qabs (Binary64.to_Q bf * Binary64.exact_sum ws) <= 1048576).
  { apply Qabs_cases in Hb as [Hb1 Hb2]. apply Qabs_cases. split; nra. }
  assert (He21 : Qabs (Binary64.to_Q e) <= 2 ^ 21).
  { apply Qabs_bound in He. change (2 ^ 21) with 2097152. lra. }
  destruct (round4_value e 21 Hf He21 ltac:(lia))
    as (Hfr & z & Hz & Hn & Hd).
  split; [exact Hf | split; [exact He21 | split; [exact Hfr |]]].
  change (2 ^ 21) with 2097152 in *.
  unfold Qdiv in Hd. change (/ 10000) with (1 # 10000) in Hd.
  set (p := Binary64.to_Q bf * Binary64.exact_sum ws) in *.
  set (v := Binary64.to_Q e) in *.
  set (r := Binary64.to_Q (Binary64.round4 e)) in *.
  clearbody p v r.
  apply Qabs_cases in He as [He1 He2], Hn as [Hn1 Hn2], Hd as [Hd1 Hd2].
  split.
  - apply Qabs_cases. split; lra.
  - exists z. split; [exact Hz |]. apply Qabs_cases. split; lra.
Qed.

(** ** The claims on what is kept and what is looked up *)

(** C2.  The result has the materials, manufacturing, transport and use
    values, the material details, the per-material weights and the nodes
    of the input; weight, category, the number and the end points of the
    links, and every link other than an eol-to-total one are the input's
    too.  Only end_of_life, the total, the scenario name and the value of
    an eol-to-total link are written. *)
Theorem recalculateEOL_frame (original : SankeyData) (scenario : string) :
  let result := recalculateEOL original scenario in
  let b := breakdown (summary original) in
  let b' := breakdown (summary result) in
  materials b' = materials b
  /\ manufacturing b' = manufacturing b
  /\ transport b' = transport b
  /\ use b' = use b
  /\ material_details result = material_details original
  /\ per_material_weights result = per_material_weights original
  /\ nodes result = nodes original
  /\ weight_kg (summary result) = weight_kg (summary original)
  /\ category (summary result) = category (summary original)
  /\ Forall2
       (fun link link' =>
          source link' = source link
          /\ target link' = target link
          /\ (is_eol_edge link = false -> link' = link))
       (links original) (links result).
Proof.
  cbv zeta. repeat (split; [reflexivity |]).
  rewrite recalculateEOL_links.
  induction (links original) as [| link rest IH]; simpl; constructor.
  - destruct (is_eol_edge link); simpl; intuition congruence.
  - exact IH.
Qed.

(** C5.  Recalculating twice in a row with the same scenario gives the
    result of recalculating once, in every field. *)
Theorem recalculateEOL_idempotent (original : SankeyData) (scenario : string) :
  recalculateEOL (recalculateEOL original scenario) scenario
  = recalculateEOL original scenario.
Proof.
  unfold recalculateEOL.
  cbn [nodes links summary per_material_weights material_details
       breakdown materials manufacturing transport use weight_kg category].
  f_equal.
  rewrite map_map. apply map_ext. intros link.
  exact (patch_twice _ _ link).
Qed.

(** C9.  The client's tables are the specification's: the three scenarios
    with their fractions, the three method factors, and the fractions of
    each scenario add up to exactly 1.0. *)
Theorem constant_tables :
  EOL_SCENARIOS = Spec.predefined_scenarios
  /\ EOL_METHOD_FACTORS = Spec.method_factors
  /\ map fst EOL_SCENARIOS = Spec.scenario_names
  /\ Forall (fun scenario => Spec.sum (JS.values (snd scenario)) == 1.0)
            EOL_SCENARIOS.
Proof.
  repeat split.
  repeat constructor.
Qed.

(** C8.  A selector that is no property of the scenario table at all gives
    the end-of-life value, total and links of the baseline scenario.  A
    selector naming a member inherited from [Object.prototype] does not:
    with "toString" the mix has no entry, and [sample] gets an end-of-life
    of 0, a total of 2.9 and an edge of 0 where baseline gives 0.44, 3.34
    and 0.44. *)
Theorem unknown_scenario_fallback :
  (forall (original : SankeyData) (scenario : string),
      JS.get EOL_SCENARIOS scenario = None ->
      numeric_outcome (recalculateEOL original scenario)
      = numeric_outcome (recalculateEOL original "baseline"))
  /\ (let result := recalculateEOL sample "toString" in
      let base := recalculateEOL sample "baseline" in
      ~ In "toString" Spec.scenario_names
      /\ selected_mix "toString" = JS.Inherited
      /\ (end_of_life (breakdown (summary result)) == 0
          /\ total_co2e_kg (summary result) == 2.9
          /\ Forall2 Qeq (eol_edge_values result) [0])
      /\ (end_of_life (breakdown (summary base)) == 0.44
          /\ total_co2e_kg (summary base) == 3.34
          /\ Forall2 Qeq (eol_edge_values base) [0.44])).
Proof.
  split.
  - intros original scenario Hget.
    unfold numeric_outcome, recalculateEOL, selected_mix.
    rewrite Hget. reflexivity.
  - cbv zeta. split.
    + simpl. intros [H | [H | [H | []]]]; discriminate.
    + split; [reflexivity |]. split; repeat split; repeat constructor.
Qed.

(** C10.  The result records the selector it was given, whatever it is,
    and a selector outside the predefined names is no entry of the
    scenario table.  The values beside it come from the baseline mix
    unless the selector names an inherited member, as "toString" does:
    there the mix is empty and [sample] gets an end-of-life of 0 instead of
    the baseline's 0.44. *)
Theorem recorded_scenario_name :
  (forall (original : SankeyData) (scenario : string),
      eol_scenario (summary (recalculateEOL original scenario)) = scenario)
  /\ (forall scenario : string,
         ~ In scenario Spec.scenario_names ->
         JS.assoc scenario EOL_SCENARIOS = None
         /\ (selected_mix scenario = JS.Own EOL_SCENARIOS_baseline
             \/ (JS.is_prototype_key scenario = true
                 /\ selected_mix scenario = JS.Inherited)))
  /\ (let result := summary (recalculateEOL sample "toString") in
      let base := summary (recalculateEOL sample "baseline") in
      ~ In "toString" Spec.scenario_names
      /\ eol_scenario result = "toString"
      /\ end_of_life (breakdown result) == 0
      /\ end_of_life (breakdown base) == 0.44).
Proof.
  split; [reflexivity | split].
  - intros scenario Hnot.
    pose proof (not_predefined scenario Hnot) as Hassoc.
    split; [assumption |].
    unfold selected_mix, JS.get. rewrite Hassoc.
    destruct (JS.is_prototype_key scenario); simpl; auto.
  - cbv zeta. split.
    + simpl. intros [H | [H | [H | []]]]; discriminate.
    + repeat split.
Qed.

(** ** The claims on the emitted numbers *)

Section ClaimsInDoubles.

Local Open Scope float_scope.




(** The conditions of C1 on the weights and on the four phases are needed.
    The weights of [Binary64.cancelling_sample] add up to 1.0 kg, one of
    them being negative, and baseline stores an end-of-life of 0; with the
    four phases of [Binary64.absorbing_sample], 1e16 in all, baseline
    and best_case store the same total. *)
Lemma unit_weights_conditions :
  (let weights :=
     JS.values (Binary64.per_material_weights Binary64.cancelling_sample) in
   (Binary64.exact_sum weights == 1)%Q
   /\ forallb Binary64.is_weight weights = false
   /\ Binary64.end_of_life
        (Binary64.breakdown
           (Binary64.summary
              (Binary64.recalculateEOL Binary64.cancelling_sample
                 "baseline")))
      = 0)
  /\ (let base :=
        Binary64.recalculateEOL Binary64.absorbing_sample "baseline" in
      let best := Binary64.recalculateEOL base "best_case" in
      Binary64.total_co2e_kg (Binary64.summary base) = 1e16
      /\ Binary64.total_co2e_kg (Binary64.summary best) = 1e16).
Proof.
  cbv zeta. repeat split.
Qed.




(** C6, counterexample.  0.035 kg with phases 2, 0.3, 0.5 and 0.1 under
    best_case: [newTotal] is the double 2.8968499999999997 and the stored
    total 2.8968, while the stored end_of_life is -0.0031 and the five
    stored phase values add up to 2.8969, a whole unit of the fourth
    decimal away. *)
Lemma total_not_sum_of_stored :
  let result :=
    Binary64.summary
      (Binary64.recalculateEOL Binary64.light_sample "best_case") in
  let b := Binary64.breakdown result in
  let stored_sum :=
    Binary64.materials b + Binary64.manufacturing b + Binary64.transport b
    + Binary64.use b + Binary64.end_of_life b in
  Binary64.local_newTotal Binary64.light_sample "best_case"
  = 2.8968499999999997
  /\ Binary64.total_co2e_kg result = 2.8968
  /\ Binary64.end_of_life b = -0.0031
  /\ Binary64.round4 stored_sum = 2.8969
  /\ Binary64.Math_round (Binary64.total_co2e_kg result * 10000) = 28968
  /\ Binary64.Math_round (stored_sum * 10000) = 28969
  /\ Binary64.total_co2e_kg result <> Binary64.round4 stored_sum.
Proof.
  cbv zeta. repeat split. floats_differ.
Qed.

(** C6, amended.  The stored total is the rounding to 4 decimals of
    materials + manufacturing + transport + use, as stored, plus the
    end-of-life value before its own rounding, added in doubles from left
    to right; the stored end_of_life is the rounding of that same value.
    Where the four phases add up to a finite double of at most 2^30 and the
    end-of-life value is one too, the stored total and the sum of the five
    stored phase values, both counted in units of the fourth decimal, are
    integers at most one unit apart.  Where the rounding leaves the
    end-of-life value as it is, the stored total is the rounded sum of the
    five stored phase values. *)
Theorem total_consistency
  (original : Binary64.SankeyData) (scenario : string) :
  let result :=
    Binary64.summary (Binary64.recalculateEOL original scenario) in
  let b := Binary64.breakdown result in
  let four :=
    Binary64.materials b + Binary64.manufacturing b
    + Binary64.transport b + Binary64.use b in
  let newEol := Binary64.local_newEol original scenario in
  let stored_sum := four + Binary64.end_of_life b in
  (Binary64.total_co2e_kg result = Binary64.round4 (four + newEol)
   /\ Binary64.end_of_life b = Binary64.round4 newEol)
  /\ (Binary64.is_finite four = true ->
      Binary64.is_finite newEol = true ->
      (Qabs (Binary64.to_Q four) <= 2 ^ 30)%Q ->
      (Qabs (Binary64.to_Q newEol) <= 2 ^ 30)%Q ->
      exists zT zS : Z,
        (Binary64.to_Q (Binary64.units4 (Binary64.total_co2e_kg result))
         == inject_Z zT)%Q
        /\ (Binary64.to_Q (Binary64.units4 stored_sum) == inject_Z zS)%Q
        /\ (Z.abs (zT - zS) <= 1)%Z)
  /\ (Binary64.round4 newEol = newEol ->
      Binary64.total_co2e_kg result = Binary64.round4 stored_sum).
Proof.
  cbv zeta. split; [split; reflexivity | split].
  - intros Hff Hfe Hfour Heol.
    exact (stored_total_units _ _ Hff Hfe Hfour Heol).
  - intros Hfix. rewrite binary64_end_of_life, Hfix. reflexivity.
Qed.

(** 0.035 kg with phases 2, 0.3, 0.5 and 0.1 under best_case, an instance
    of C6 as amended: there the two counts are 28968 and 28969. *)
Lemma total_consistency_witness :
  let original := Binary64.light_sample in
  let result :=
    Binary64.summary (Binary64.recalculateEOL original "best_case") in
  let b := Binary64.breakdown result in
  let four :=
    Binary64.materials b + Binary64.manufacturing b
    + Binary64.transport b + Binary64.use b in
  let newEol := Binary64.local_newEol original "best_case" in
  let stored_sum := four + Binary64.end_of_life b in
  Binary64.is_finite four = true
  /\ Binary64.is_finite newEol = true
  /\ (Qabs (Binary64.to_Q four) <= 2 ^ 30)%Q
  /\ (Qabs (Binary64.to_Q newEol) <= 2 ^ 30)%Q
  /\ exists zT zS : Z,
       (Binary64.to_Q (Binary64.units4 (Binary64.total_co2e_kg result))
        == inject_Z zT)%Q
       /\ (Binary64.to_Q (Binary64.units4 stored_sum) == inject_Z zS)%Q
       /\ (Z.abs (zT - zS) <= 1)%Z.
Proof.
  cbv zeta.
  pose proof (proj1 (proj2 (total_consistency Binary64.light_sample
                              "best_case"))) as H.
  cbv zeta in H.
  assert (Hff : Binary64.is_finite
                  (Binary64.materials
                     (Binary64.breakdown
                        (Binary64.summary
                           (Binary64.recalculateEOL Binary64.light_sample
                              "best_case")))
                   + Binary64.manufacturing
                       (Binary64.breakdown
                          (Binary64.summary
                             (Binary64.recalculateEOL Binary64.light_sample
                                "best_case")))
                   + Binary64.transport
                       (Binary64.breakdown
                          (Binary64.summary
                             (Binary64.recalculateEOL Binary64.light_sample
                                "best_case")))
                   + Binary64.use
                       (Binary64.breakdown
                          (Binary64.summary
                             (Binary64.recalculateEOL Binary64.light_sample
                                "best_case")))) = true) by reflexivity.
  assert (Hfe : Binary64.is_finite
                  (Binary64.local_newEol Binary64.light_sample "best_case")
                = true) by reflexivity.
  split; [exact Hff | split; [exact Hfe |]].
  split; [vm_compute; discriminate | split; [vm_compute; discriminate |]].
  apply (H Hff Hfe); vm_compute; discriminate.
Defined.

(** The condition of C6 on the magnitude is needed: with the materials of
    [Binary64.coarse_sample], about 10^12, the stored total and the sum
    of the five stored phase values are two units of the fourth decimal
    apart under best_case. *)
Lemma total_consistency_condition :
  let result :=
    Binary64.summary
      (Binary64.recalculateEOL Binary64.coarse_sample "best_case") in
  let b := Binary64.breakdown result in
  let stored_sum :=
    Binary64.materials b + Binary64.manufacturing b + Binary64.transport b
    + Binary64.use b + Binary64.end_of_life b in
  Binary64.units4 (Binary64.total_co2e_kg result) = 10000000000396268
  /\ Binary64.units4 stored_sum = 10000000000396270.
Proof.
  cbv zeta. split; reflexivity.
Qed.

(** C7.  The value of an eol-to-total link is the magnitude of the stored
    end_of_life unless the product [newEol * 10000], a double, is negative
    and half-way between two integers, [-(j + 1/2)]: there the summary
    stores [-j / 10000] and the link carries [(j + 1) / 10000].
    [Binary64.tie_sample] under best_case is such a case, with the product
    -5215.5: the link carries 0.5216 and the summary -0.5215. *)
Theorem eol_edge_magnitude :
  (forall (original : Binary64.SankeyData) (scenario : string)
          (link : Binary64.SankeyLink),
      let result := Binary64.recalculateEOL original scenario in
      let stored :=
        Binary64.end_of_life
          (Binary64.breakdown (Binary64.summary result)) in
      let product := Binary64.local_newEol original scenario * 10000 in
      In link (Binary64.links result) ->
      Binary64.is_eol_edge link = true ->
      (Binary64.is_negative product && Binary64.half_way product = false ->
       Binary64.value link = abs stored)
      /\ (Binary64.is_negative product = true ->
          Binary64.half_way product = true ->
          exists j : Z,
            (0 <= j)%Z
            /\ stored = - (Binary64.of_integer j / 10000)
            /\ Binary64.value link = Binary64.of_integer (j + 1) / 10000))
  /\ (let result :=
        Binary64.recalculateEOL Binary64.tie_sample "best_case" in
      let stored :=
        Binary64.end_of_life
          (Binary64.breakdown (Binary64.summary result)) in
      Binary64.local_newEol Binary64.tie_sample "best_case" * 10000
      = -5215.5
      /\ Binary64.eol_edge_values result = [ 0.5216 ]
      /\ stored = -0.5215
      /\ abs stored = 0.5215
      /\ abs stored <> 0.5216).
Proof.
  split.
  - intros original scenario link result stored product Hin Hedge.
    pose proof (binary64_edge_written original scenario) as Hall.
    rewrite Forall_forall in Hall.
    unfold stored, result.
    rewrite (Hall link Hin Hedge), binary64_end_of_life.
    set (eol := Binary64.local_newEol original scenario) in *.
    assert (Hsign : Binary64.is_negative product = Binary64.is_negative eol)
      by apply is_negative_mul_10000.
    split.
    + intros H. apply binary64_round4_abs. now rewrite <- Hsign.
    + intros N H. rewrite Hsign in N.
      destruct (binary64_round4_negative_tie eol N H) as (j & Hj & Hr & Ha & _).
      exists j. auto.
  - cbv zeta. repeat split. floats_differ.
Qed.


End ClaimsInDoubles.

(** * Further properties *)

(** ** More on [recalculateEOL] *)




(** X1.  A chain of scenario switches ends where its last switch alone
    would: nothing accumulates from one recalculation to the next. *)
Theorem scenario_switches_do_not_accumulate
  (original : SankeyData) (earlier : list string) (scenario : string) :
  fold_left recalculateEOL (earlier ++ [scenario])%list original
  = recalculateEOL original scenario.
Proof.
  rewrite fold_left_app. simpl.
  revert original. induction earlier as [| s rest IH]; intros original.
  - reflexivity.
  - simpl. rewrite IH. apply recalculateEOL_absorb.
Qed.





(** ** [SankeyChart] *)

(** [round4 x] exceeds the chart's threshold exactly from 0.00105 on. *)
Section NodeIndexing.

(** What [index_nodes] leaves in the map for a key: the index of the last
    node with that id, or what the map held before. *)
Lemma index_nodes_get (ns : list SankeyNode) :
  forall (i : nat) (m : list (string * nat)) (k : string),
    match SankeyChart.Map_get (snd (SankeyChart.index_nodes i ns m)) k with
    | Some v =>
        (exists j n,
            v = (i + j)%nat /\ nth_error ns j = Some n /\ id n = k
            /\ forall j' n', (j < j')%nat -> nth_error ns j' = Some n' ->
                             id n' <> k)
        \/ (SankeyChart.Map_get m k = Some v /\ ~ In k (map id ns))
    | None => SankeyChart.Map_get m k = None /\ ~ In k (map id ns)
    end.
Proof.
  induction ns as [| n rest IH]; intros i m k.
  - simpl. destruct (SankeyChart.Map_get m k); [right |]; auto.
  - simpl.
    destruct (SankeyChart.index_nodes (S i) rest
                (SankeyChart.Map_set (id n) i m)) as [out m'] eqn:E.
    specialize (IH (S i) (SankeyChart.Map_set (id n) i m) k).
    rewrite E in IH. simpl in *. unfold SankeyChart.Map_get in *.
    destruct (JS.assoc k m') as [v |].
    + destruct IH as [(j & n' & -> & Hnth & Hid & Hlast) | [Hget Hnot]].
      * left. exists (S j), n'. repeat split; [lia | assumption .. |].
        intros [| j'] n'' Hlt Hn''; [lia |].
        apply (Hlast j' n''); [lia | assumption].
      * unfold SankeyChart.Map_set in Hget. simpl in Hget.
        destruct (id n =? k)%string eqn:Ek.
        -- apply String.eqb_eq in Ek. injection Hget as <-.
           left. exists 0%nat, n. repeat split; [lia | assumption |].
           intros [| j'] n'' Hlt Hn''; [lia |].
           intros Hid. apply Hnot. rewrite <- Hid.
           apply in_map. eapply nth_error_In. exact Hn''.
        -- right. split; [assumption |].
           apply String.eqb_neq in Ek. intros [Hk | Hk]; auto.
    + destruct IH as [Hget Hnot].
      unfold SankeyChart.Map_set in Hget. simpl in Hget.
      destruct (id n =? k)%string eqn:Ek; [discriminate |].
      split; [assumption |].
      apply String.eqb_neq in Ek. intros [Hk | Hk]; auto.
Qed.

Lemma index_nodes_out (ns : list SankeyNode) :
  forall (i : nat) (m : list (string * nat)),
    map SankeyChart.node (fst (SankeyChart.index_nodes i ns m)) = ns
    /\ map SankeyChart.nodeIndex (fst (SankeyChart.index_nodes i ns m))
       = seq i (length ns).
Proof.
  induction ns as [| n rest IH]; intros i m; simpl; [auto |].
  destruct (SankeyChart.index_nodes (S i) rest
              (SankeyChart.Map_set (id n) i m)) as [out m'] eqn:E.
  specialize (IH (S i) (SankeyChart.Map_set (id n) i m)).
  rewrite E in IH. destruct IH as [IH1 IH2]. simpl in *.
  now rewrite IH1, IH2.
Qed.

Variable data : SankeyData.

Lemma nodeMap_some (k : string) (i : nat) :
  SankeyChart.Map_get (SankeyChart.nodeMap data) k = Some i ->
  exists n,
    nth_error (nodes data) i = Some n /\ id n = k
    /\ forall j n', (i < j)%nat -> nth_error (nodes data) j = Some n' ->
                    id n' <> k.
Proof.
  intros H. unfold SankeyChart.nodeMap in H.
  pose proof (index_nodes_get (nodes data) 0 [] k) as Hspec.
  rewrite H in Hspec.
  destruct Hspec as [(j & n & -> & Hnth & Hid & Hlast) | [Hget _]].
  - exists n. simpl. auto.
  - discriminate.
Qed.

Lemma nodeMap_none (k : string) :
  SankeyChart.Map_get (SankeyChart.nodeMap data) k = None
  <-> ~ In k (map id (nodes data)).
Proof.
  unfold SankeyChart.nodeMap.
  pose proof (index_nodes_get (nodes data) 0 [] k) as Hspec.
  destruct (SankeyChart.Map_get
              (snd (SankeyChart.index_nodes 0 (nodes data) [])) k) as [v |].
  - split; [discriminate |]. intros Hnot. exfalso.
    destruct Hspec as [(j & n & _ & Hnth & Hid & _) | [Hget _]].
    + apply Hnot. rewrite <- Hid. apply in_map.
      eapply nth_error_In. exact Hnth.
    + discriminate.
  - split; [intros _; apply Hspec | reflexivity].
Qed.

Lemma index_or_zero_bound (k : string) :
  nodes data <> [] ->
  (SankeyChart.index_or_zero (SankeyChart.nodeMap data) k
   < length (nodes data))%nat.
Proof.
  intros Hne. unfold SankeyChart.index_or_zero.
  destruct (SankeyChart.Map_get (SankeyChart.nodeMap data) k) as [i |] eqn:E.
  - destruct (nodeMap_some k i E) as (n & Hnth & _).
    apply nth_error_Some. congruence.
  - destruct (nodes data); [congruence | simpl; lia].
Qed.

End NodeIndexing.

(** X7.  When the data has at least one node, both ends of every link
    handed to the layout are indices of nodes, whatever ids the links
    name. *)
Theorem chart_endpoints_in_range (data : SankeyData) :
  nodes data <> [] ->
  Forall (fun l =>
            (SankeyChart.source l < length (nodes data))%nat
            /\ (SankeyChart.target l < length (nodes data))%nat)
         (SankeyChart.links data).
Proof.
  intros Hne. unfold SankeyChart.links.
  apply Forall_forall. intros l Hl.
  apply in_map_iff in Hl as ([s t v] & <- & _). simpl.
  split; now apply index_or_zero_bound.
Qed.

Lemma chart_endpoints_in_range_witness :
  nodes tie_sample <> []
  /\ Forall (fun l =>
               (SankeyChart.source l < length (nodes tie_sample))%nat
               /\ (SankeyChart.target l < length (nodes tie_sample))%nat)
            (SankeyChart.links tie_sample).
Proof.
  assert (H : nodes tie_sample <> []) by discriminate.
  split; [exact H | exact (chart_endpoints_in_range tie_sample H)].
Defined.

(** X8.  The node map sends an id to the index of the last node carrying
    it, and knows exactly the ids of the nodes; with distinct ids every
    node is found at its own index.  An id that names no node resolves to
    index 0, so a link end that dangles is attached to the first node.
    The nodes handed to the layout are the input nodes, numbered from 0
    in order. *)
Theorem nodeMap_lookup (data : SankeyData) :
  (forall k i,
      SankeyChart.Map_get (SankeyChart.nodeMap data) k = Some i ->
      exists n,
        nth_error (nodes data) i = Some n /\ id n = k
        /\ forall j n', (i < j)%nat -> nth_error (nodes data) j = Some n' ->
                        id n' <> k)
  /\ (forall k,
         SankeyChart.Map_get (SankeyChart.nodeMap data) k = None
         <-> ~ In k (map id (nodes data)))
  /\ (NoDup (map id (nodes data)) ->
      forall i n,
        nth_error (nodes data) i = Some n ->
        SankeyChart.Map_get (SankeyChart.nodeMap data) (id n) = Some i)
  /\ (forall k,
         ~ In k (map id (nodes data)) ->
         SankeyChart.index_or_zero (SankeyChart.nodeMap data) k = 0%nat)
  /\ map SankeyChart.node (SankeyChart.nodes data) = nodes data
  /\ map SankeyChart.nodeIndex (SankeyChart.nodes data)
     = seq 0 (length (nodes data)).
Proof.
  split; [exact (nodeMap_some data) |].
  split; [exact (nodeMap_none data) |].
  split; [| split; [| exact (index_nodes_out (nodes data) 0 [])]].
  - intros Hnodup i n Hnth.
    destruct (SankeyChart.Map_get (SankeyChart.nodeMap data) (id n))
      as [i' |] eqn:E.
    + destruct (nodeMap_some data (id n) i' E) as (n' & Hnth' & Hid & _).
      f_equal.
      apply (proj1 (NoDup_nth_error (map id (nodes data))) Hnodup).
      * rewrite length_map. apply nth_error_Some. congruence.
      * rewrite !nth_error_map, Hnth, Hnth'. simpl. now rewrite Hid.
    + apply nodeMap_none in E. exfalso. apply E.
      apply in_map. eapply nth_error_In. exact Hnth.
  - intros k Hk. unfold SankeyChart.index_or_zero.
    now rewrite (proj2 (nodeMap_none data k) Hk).
Qed.

Lemma nodeMap_lookup_witness :
  NoDup (map id (nodes tie_sample))
  /\ SankeyChart.Map_get (SankeyChart.nodeMap tie_sample) "eol" = Some 3%nat
  /\ SankeyChart.index_or_zero (SankeyChart.nodeMap tie_sample) "use" = 0%nat.
Proof.
  assert (Hnodup : NoDup (map id (nodes tie_sample))).
  { simpl. repeat constructor; simpl; intuition discriminate. }
  assert (Hnot : ~ In "use" (map id (nodes tie_sample)))
    by (simpl; intuition discriminate).
  destruct (nodeMap_lookup tie_sample) as (_ & _ & Hfind & Hzero & _).
  split; [exact Hnodup | split].
  - exact (Hfind Hnodup 3%nat _ eq_refl).
  - exact (Hzero "use" Hnot).
Defined.

(** ** [SummaryCard] *)

(** [Array_sort] with a comparator [(a, b) => key(b) - key(a)]: the
    largest key first. *)
Section SortByKey.

Context {A : Type}.
Variable key : A -> Q.

Let compare (x y : A) : Q := key y - key x.
Let before (x y : A) : Prop := key y <= key x.

Lemma insert_perm (x : A) (l : list A) :
  Permutation (x :: l) (JSLib.insert compare x l).
Proof.
  induction l as [| y l IH]; simpl; [reflexivity |].
  destruct (Qle_bool (compare x y) 0); [reflexivity |].
  rewrite perm_swap. now apply perm_skip.
Qed.

Lemma sort_perm (l : list A) : Permutation l (JSLib.Array_sort compare l).
Proof.
  induction l as [| x l IH]; simpl; [reflexivity |].
  rewrite <- insert_perm. now apply perm_skip.
Qed.

Lemma insert_sorted (x : A) (l : list A) :
  StronglySorted before l -> StronglySorted before (JSLib.insert compare x l).
Proof.
  induction 1 as [| y l Hsorted IH Hall]; simpl.
  - repeat constructor.
  - destruct (Qle_bool (compare x y) 0) eqn:E.
    + apply Qle_bool_iff in E. unfold compare in E.
      constructor; [now constructor |].
      constructor; [unfold before; lra |].
      eapply Forall_impl; [| exact Hall].
      unfold before. intros z Hz. lra.
    + assert (Hlt : key x < key y).
      { apply Qnot_le_lt. intros H.
        assert (Qle_bool (compare x y) 0 = true)
          by (apply Qle_bool_iff; unfold compare; lra).
        congruence. }
      constructor; [exact IH |].
      eapply Permutation_Forall; [apply insert_perm |].
      constructor; [unfold before; lra | exact Hall].
Qed.

Lemma sort_sorted (l : list A) :
  StronglySorted before (JSLib.Array_sort compare l).
Proof.
  induction l as [| x l IH]; simpl; [constructor | now apply insert_sorted].
Qed.

(** Elements of one key keep their order. *)
Lemma insert_stable (c : Q) (x : A) (l : list A) :
  filter (fun a => Qeq_bool (key a) c) (JSLib.insert compare x l)
  = filter (fun a => Qeq_bool (key a) c) (x :: l).
Proof.
  induction l as [| y l IH]; simpl; [reflexivity |].
  destruct (Qle_bool (compare x y) 0) eqn:E; [reflexivity |].
  simpl in *. rewrite IH.
  destruct (Qeq_bool (key x) c) eqn:Ex; [| reflexivity].
  destruct (Qeq_bool (key y) c) eqn:Ey; [| reflexivity].
  apply Qeq_bool_iff in Ex, Ey.
  assert (Qle_bool (compare x y) 0 = true)
    by (apply Qle_bool_iff; unfold compare; lra).
  congruence.
Qed.

Lemma sort_stable (c : Q) (l : list A) :
  filter (fun a => Qeq_bool (key a) c) (JSLib.Array_sort compare l)
  = filter (fun a => Qeq_bool (key a) c) l.
Proof.
  induction l as [| x l IH]; simpl; [reflexivity |].
  rewrite insert_stable. simpl. now rewrite IH.
Qed.

(** A list already in order is left as it is. *)
Lemma sort_fixes_sorted (l : list A) :
  StronglySorted before l -> JSLib.Array_sort compare l = l.
Proof.
  induction 1 as [| x l Hsorted IH Hall]; simpl; [reflexivity |].
  rewrite IH. destruct l as [| y l]; [reflexivity |]. simpl.
  inversion Hall as [| ? ? Hxy _]; subst.
  assert (E : Qle_bool (compare x y) 0 = true)
    by (apply Qle_bool_iff; unfold compare, before in *; lra).
  now rewrite E.
Qed.

Lemma sort_idempotent (l : list A) :
  JSLib.Array_sort compare (JSLib.Array_sort compare l)
  = JSLib.Array_sort compare l.
Proof.
  apply sort_fixes_sorted, sort_sorted.
Qed.

End SortByKey.

(** [Math.max(...xs, last)] bounds its arguments and is one of them. *)
Lemma Math_max_ge_last (xs : list Q) (last : Q) :
  last <= JSLib.Math_max xs last.
Proof.
  induction xs as [| x xs IH]; simpl.
  - apply Qle_refl.
  - fold (JSLib.Math_max xs last).
    eapply Qle_trans; [exact IH | apply Q.le_max_r].
Qed.

Lemma Math_max_ge_each (xs : list Q) (last : Q) :
  Forall (fun x => x <= JSLib.Math_max xs last) xs.
Proof.
  induction xs as [| x xs IH]; simpl; constructor.
  - apply Q.le_max_l.
  - fold (JSLib.Math_max xs last).
    eapply Forall_impl; [| exact IH]. simpl. intros y Hy.
    eapply Qle_trans; [exact Hy | apply Q.le_max_r].
Qed.



(** X9.  The phase bars come in the order of falling magnitude: the
    sorted list holds the entries of the breakdown, each once, a value of
    larger magnitude before one of smaller, and entries of equal
    magnitude in the order they had. *)
Theorem phases_sorted (entries : list (string * Q)) :
  Permutation entries (SummaryCard.phases entries)
  /\ StronglySorted (fun p q => Qabs (snd q) <= Qabs (snd p))
                    (SummaryCard.phases entries)
  /\ forall c : Q,
       filter (fun p => Qeq_bool (Qabs (snd p)) c)
              (SummaryCard.phases entries)
       = filter (fun p => Qeq_bool (Qabs (snd p)) c) entries.
Proof.
  unfold SummaryCard.phases.
  split; [apply (sort_perm (fun p => Qabs (snd p))) |].
  split; [apply (sort_sorted (fun p => Qabs (snd p))) |].
  intros c. apply (sort_stable (fun p => Qabs (snd p))).
Qed.

Lemma maxPhaseValue_bounds (phases : list (string * Q)) :
  0.01 <= SummaryCard.maxPhaseValue phases
  /\ Forall (fun p => Qabs (snd p) <= SummaryCard.maxPhaseValue phases)
            phases.
Proof.
  unfold SummaryCard.maxPhaseValue. split.
  - apply Math_max_ge_last.
  - pose proof (Math_max_ge_each
                  (map (fun p => JS.Math_abs (snd p)) phases) 0.01) as H.
    rewrite Forall_map in H. exact H.
Qed.

Lemma bar_pct (maxPhaseValue : Q) (p : string * Q) :
  SummaryCard.pct (SummaryCard.bar maxPhaseValue p)
  = Qabs (snd p) / maxPhaseValue * 100
  /\ SummaryCard.width (SummaryCard.bar maxPhaseValue p)
     = Qmax (Qabs (snd p) / maxPhaseValue * 100) 2
  /\ SummaryCard.value (SummaryCard.bar maxPhaseValue p) = snd p.
Proof. destruct p. repeat split. Qed.

(** X10.  The widest-bar reference is never below 0.01, so no bar divides
    by zero; every bar's share lies between 0 and 100 and its drawn width
    between 2 and 100 percent. *)
Theorem bar_bounds (entries : list (string * Q)) :
  0.01 <= SummaryCard.maxPhaseValue (SummaryCard.phases entries)
  /\ Forall (fun b =>
               0 <= SummaryCard.pct b /\ SummaryCard.pct b <= 100
               /\ 2 <= SummaryCard.width b /\ SummaryCard.width b <= 100)
            (SummaryCard.bars entries).
Proof.
  destruct (maxPhaseValue_bounds (SummaryCard.phases entries)) as [Hmin Hall].
  split; [exact Hmin |].
  unfold SummaryCard.bars. cbv zeta. rewrite Forall_map.
  eapply Forall_impl; [| exact Hall]. cbv beta.
  set (M := SummaryCard.maxPhaseValue (SummaryCard.phases entries)) in *.
  intros p Hp.
  destruct (bar_pct M p) as (-> & -> & _).
  pose proof (Qabs_nonneg (snd p)) as Habs.
  assert (H0 : 0 <= Qabs (snd p) / M * 100).
  { apply Qmult_le_0_compat; [| discriminate].
    apply Qle_shift_div_l; lra. }
  assert (H100 : Qabs (snd p) / M * 100 <= 100).
  { assert (Qabs (snd p) / M <= 1) by (apply Qle_shift_div_r; lra).
    lra. }
  repeat split; try assumption.
  - apply Q.le_max_r.
  - apply Q.max_lub; [assumption | discriminate].
Qed.



(** X12.  The material rows are the material details, each once, in the
    order of falling impact magnitude, details of equal magnitude in the
    order they had; sorting the sorted rows again, as every further render
    does, changes nothing. *)
Theorem materials_sorted (details : list MaterialDetail) :
  let rows := SummaryCard.sorted_materials details in
  Permutation details rows
  /\ StronglySorted
       (fun a b => Qabs (impact_kg_co2e b) <= Qabs (impact_kg_co2e a)) rows
  /\ (forall c : Q,
         filter (fun m => Qeq_bool (Qabs (impact_kg_co2e m)) c) rows
         = filter (fun m => Qeq_bool (Qabs (impact_kg_co2e m)) c) details)
  /\ SummaryCard.sorted_materials rows = rows.
Proof.
  cbv zeta. unfold SummaryCard.sorted_materials.
  split; [apply (sort_perm (fun m => Qabs (impact_kg_co2e m))) |].
  split; [apply (sort_sorted (fun m => Qabs (impact_kg_co2e m))) |].
  split; [intros c; apply (sort_stable (fun m => Qabs (impact_kg_co2e m))) |].
  apply (sort_idempotent (fun m => Qabs (impact_kg_co2e m))).
Qed.

Lemma replace_underscores_get (s : string) :
  forall n : nat,
    String.get n (JSLib.replace_underscores s)
    = option_map (fun c => if Ascii.eqb c "_"%char then " "%char else c)
                 (String.get n s).
Proof.
  induction s as [| c s IH]; intros n; simpl; [reflexivity |].
  destruct n; [reflexivity | apply IH].
Qed.

(** X13.  The name printed for a material has the length of the stored
    name and the same character at every place, except that each
    underscore has become a space; so no underscore is ever printed, and a
    name without one is printed as it is. *)
Theorem shown_name_has_no_underscore (m : MaterialDetail) :
  String.length (SummaryCard.shown_name m) = String.length (name m)
  /\ (forall n : nat,
         String.get n (SummaryCard.shown_name m)
         = option_map (fun c => if Ascii.eqb c "_"%char then " "%char else c)
                      (String.get n (name m)))
  /\ (forall n : nat,
         String.get n (SummaryCard.shown_name m) <> Some "_"%char)
  /\ ((forall n : nat, String.get n (name m) <> Some "_"%char) ->
      SummaryCard.shown_name m = name m).
Proof.
  unfold SummaryCard.shown_name.
  split; [| split; [apply replace_underscores_get | split]].
  - induction (name m) as [| c s IH]; simpl; [reflexivity | now rewrite IH].
  - intros n. rewrite replace_underscores_get.
    destruct (String.get n (name m)) as [c |]; simpl; [| discriminate].
    destruct (Ascii.eqb c "_"%char) eqn:E; [discriminate |].
    apply Ascii.eqb_neq in E. congruence.
  - induction (name m) as [| c s IH]; intros Hno; simpl; [reflexivity |].
    rewrite IH by (intros n; apply (Hno (S n))).
    destruct (Ascii.eqb c "_"%char) eqn:E; [| reflexivity].
    apply Ascii.eqb_eq in E. subst c. now specialize (Hno 0%nat).
Qed.

(** ** [WhatIfSlider] *)

Lemma sum_map_ext {A : Type} (f g : A -> Q) (l : list A) :
  (forall a, f a == g a) -> Spec.sum (map f l) == Spec.sum (map g l).
Proof.
  intros H. induction l as [| a l IH]; simpl; [reflexivity |].
  fold (Spec.sum (map f l)) (Spec.sum (map g l)). now rewrite H, IH.
Qed.

(** The method loop adds up fraction times factor. *)
Lemma method_loop_sum (mix : list (string * Q)) :
  fold_left method_step mix 0
  == Spec.sum
       (map (fun entry =>
               snd entry
               * JS.operand
                   (JS.nullish (JS.get EOL_METHOD_FACTORS (fst entry))
                               (JS.Own 0)))
            mix).
Proof.
  induction mix as [| [method fraction] mix IH]; [reflexivity |].
  cbn [fold_left map]. rewrite method_loop_acc, IH.
  unfold Spec.sum, method_step. cbn [fold_right fst snd]. ring.
Qed.

(** X14.  The panel shows the mix the recalculation uses: for every
    selector, the shares and factors of the rows shown add up (share times
    factor, over 100) to the blended factor [recalculateEOL] applies for
    the same selector, and every factor shown is a number of the table.
    Unless the selector names an inherited member, the shares add up to
    100. *)
Theorem slider_shows_mix_used (activeScenario : string) :
  let rows := WhatIfSlider.rows activeScenario in
  WhatIfSlider.currentMix activeScenario = selected_mix activeScenario
  /\ Spec.sum
       (map (fun r =>
               WhatIfSlider.pct r / 100 * JS.operand (WhatIfSlider.factor r))
            rows)
     == blendedFactor (selected_mix activeScenario)
  /\ Forall (fun r =>
               exists f,
                 JS.assoc (WhatIfSlider.method r) EOL_METHOD_FACTORS = Some f
                 /\ WhatIfSlider.factor r = JS.Own f)
            rows
  /\ (JS.get EOL_SCENARIOS activeScenario <> Some JS.Inherited ->
      Spec.sum (map WhatIfSlider.pct rows) == 100).
Proof.
  cbv zeta. split; [reflexivity |].
  unfold WhatIfSlider.rows.
  change (WhatIfSlider.currentMix activeScenario)
    with (selected_mix activeScenario).
  split; [| split].
  - unfold blendedFactor. rewrite method_loop_sum, map_map.
    apply sum_map_ext. intros [method fraction]. simpl. field.
  - rewrite Forall_map.
    eapply Forall_impl; [| apply scenario_methods_own].
    intros [method fraction] (f & Hf). cbn [fst] in Hf.
    cbn [WhatIfSlider.method WhatIfSlider.factor].
    rewrite Hf. exists f. split; [| reflexivity].
    unfold JS.get in Hf.
    destruct (JS.assoc method EOL_METHOD_FACTORS) as [g |].
    + now injection Hf as <-.
    + destruct (JS.is_prototype_key method); discriminate.
  - intros Hnot. rewrite map_map.
    destruct (selected_mix_cases activeScenario)
      as [(mix & Hin & ->) | [(Hassoc & Hkey & _) | (_ & ->)]].
    + simpl in Hin.
      destruct Hin as [[= _ <-] | [[= _ <-] | [[= _ <-] | []]]];
        reflexivity.
    + exfalso. apply Hnot. unfold JS.get. now rewrite Hassoc, Hkey.
    + reflexivity.
Qed.

Lemma slider_shows_mix_used_witness :
  JS.get EOL_SCENARIOS "best_case" <> Some JS.Inherited
  /\ Spec.sum (map WhatIfSlider.pct (WhatIfSlider.rows "best_case")) == 100.
Proof.
  assert (H : JS.get EOL_SCENARIOS "best_case" <> Some JS.Inherited)
    by discriminate.
  split; [exact H |].
  exact (proj2 (proj2 (proj2 (slider_shows_mix_used "best_case"))) H).
Defined.

(** X15.  For a predefined selector exactly one button is pressed, the
    one of that selector; for any other selector none is, although a mix
    is still shown for it. *)
Theorem pressed_buttons (activeScenario : string) :
  map WhatIfSlider.key (WhatIfSlider.buttons activeScenario)
  = Spec.scenario_names
  /\ (In activeScenario Spec.scenario_names ->
      map WhatIfSlider.key
          (filter WhatIfSlider.isActive (WhatIfSlider.buttons activeScenario))
      = [activeScenario])
  /\ (~ In activeScenario Spec.scenario_names ->
      filter WhatIfSlider.isActive (WhatIfSlider.buttons activeScenario) = []
      /\ (WhatIfSlider.rows activeScenario = WhatIfSlider.rows "baseline"
          \/ WhatIfSlider.rows activeScenario = [])).
Proof.
  split; [reflexivity | split].
  - simpl. intros [<- | [<- | [<- | []]]]; reflexivity.
  - intros Hnot. split.
    + unfold WhatIfSlider.buttons, SCENARIO_LABELS. simpl.
      destruct (activeScenario =? "baseline")%string eqn:E1;
        [apply String.eqb_eq in E1; subst; exfalso; apply Hnot; simpl; tauto |].
      destruct (activeScenario =? "best_case")%string eqn:E2;
        [apply String.eqb_eq in E2; subst; exfalso; apply Hnot; simpl; tauto |].
      destruct (activeScenario =? "worst_case")%string eqn:E3;
        [apply String.eqb_eq in E3; subst; exfalso; apply Hnot; simpl; tauto |].
      reflexivity.
    + unfold WhatIfSlider.rows.
      change (WhatIfSlider.currentMix activeScenario)
        with (selected_mix activeScenario).
      pose proof (not_predefined activeScenario Hnot) as Hassoc.
      unfold selected_mix, JS.get. rewrite Hassoc.
      destruct (JS.is_prototype_key activeScenario); [right | left];
        reflexivity.
Qed.

Lemma pressed_buttons_witness :
  In "worst_case" Spec.scenario_names
  /\ map WhatIfSlider.key
         (filter WhatIfSlider.isActive (WhatIfSlider.buttons "worst_case"))
     = ["worst_case"].
Proof.
  assert (H : In "worst_case" Spec.scenario_names) by (simpl; tauto).
  split; [exact H |].
  exact (proj1 (proj2 (pressed_buttons "worst_case")) H).
Defined.

(** ** [Home] *)

Lemma handleScenarioChange_twice (st : Home.State) (s1 s2 : string) :
  Home.handleScenarioChange (Home.handleScenarioChange st s1) s2
  = Home.handleScenarioChange st s2.
Proof.
  unfold Home.handleScenarioChange.
  destruct (Home.originalData st) as [o |] eqn:E; simpl; rewrite ?E;
    reflexivity.
Qed.

(** What every reachable state satisfies: results are shown exactly when
    the fetched data is kept, the active selector is a predefined name,
    and what is shown is the fetched data or its recalculation for the
    active selector. *)
Lemma reachable_shape (st : Home.State) :
  Home.reachable st ->
  (Home.displayData st = None <-> Home.originalData st = None)
  /\ In (Home.activeScenario st) Spec.scenario_names
  /\ (Home.displayData st = Home.originalData st
      \/ exists o,
           Home.originalData st = Some o
           /\ Home.displayData st
              = Some (recalculateEOL o (Home.activeScenario st))).
Proof.
  induction 1 as [| st e Hreach (Hnone & Hname & Hshape) Hen].
  - simpl. intuition.
  - destruct e as [text | text | blank | outcome | key]; simpl.
    + auto.
    + auto.
    + destruct blank; simpl; [auto |]. intuition.
    + destruct outcome as [data | message]; simpl; [| auto].
      repeat split; try discriminate; auto.
    + destruct Hen as [Hkey _].
      unfold Home.handleScenarioChange.
      destruct (Home.originalData st) as [o |] eqn:E; simpl.
      * repeat split; try discriminate.
        -- exact Hkey.
        -- right. exists o. auto.
      * rewrite E. auto.
Qed.

(** A state reached by fetching [sample] and pressing the best_case
    button. *)
Lemma reachable_best_case :
  Home.reachable
    (Home.step
       (Home.step (Home.step Home.initial (Home.AnalyzeBegin false))
                  (Home.AnalyzeEnd (Home.Succeeded sample)))
       (Home.ScenarioButton "best_case")).
Proof.
  apply Home.reachable_step;
    [apply Home.reachable_step;
       [apply Home.reachable_step; [apply Home.reachable_initial | exact I]
       | exact I]
    |].
  split; [simpl; tauto | discriminate].
Defined.

(** X16.  A chain of scenario changes leaves the page where its last
    change alone would, and never touches the fetched data: each change is
    computed from [originalData], not from what is displayed. *)
Theorem scenario_changes_do_not_accumulate
  (st : Home.State) (earlier : list string) (scenario : string) :
  fold_left Home.handleScenarioChange (earlier ++ [scenario])%list st
  = Home.handleScenarioChange st scenario
  /\ Home.originalData (fold_left Home.handleScenarioChange earlier st)
     = Home.originalData st.
Proof.
  split.
  - rewrite fold_left_app. simpl.
    revert st. induction earlier as [| s rest IH]; intros st; simpl.
    + reflexivity.
    + rewrite IH. apply handleScenarioChange_twice.
  - revert st. induction earlier as [| s rest IH]; intros st; simpl.
    + reflexivity.
    + rewrite IH. unfold Home.handleScenarioChange.
      destruct (Home.originalData st) eqn:E; simpl; now rewrite ?E.
Qed.

(** X17.  In every state the page can reach, results are displayed
    exactly when fetched data is kept, and what is displayed is either the
    fetched data itself or its recalculation for the active selector. *)
Theorem displayed_data_shape (st : Home.State) :
  Home.reachable st ->
  (Home.displayData st = None <-> Home.originalData st = None)
  /\ (Home.displayData st = Home.originalData st
      \/ exists o,
           Home.originalData st = Some o
           /\ Home.displayData st
              = Some (recalculateEOL o (Home.activeScenario st))).
Proof.
  intros H. destruct (reachable_shape st H) as (Hnone & _ & Hshape).
  split; assumption.
Qed.

Lemma displayed_data_shape_witness :
  let st :=
    Home.step
      (Home.step (Home.step Home.initial (Home.AnalyzeBegin false))
                 (Home.AnalyzeEnd (Home.Succeeded sample)))
      (Home.ScenarioButton "best_case") in
  Home.reachable st
  /\ (Home.displayData st = None <-> Home.originalData st = None).
Proof.
  cbv zeta. split; [exact reachable_best_case |].
  exact (proj1 (displayed_data_shape _ reachable_best_case)).
Defined.

(** X18.  In every state the page can reach, the active selector is one
    of the three predefined names: the mix in use is an own entry of the
    scenario table, never the baseline taken by default nor an inherited
    member, and exactly one button is pressed. *)
Theorem page_selector_is_predefined (st : Home.State) :
  Home.reachable st ->
  let active := Home.activeScenario st in
  In active Spec.scenario_names
  /\ (exists mix,
         JS.assoc active EOL_SCENARIOS = Some mix
         /\ selected_mix active = JS.Own mix
         /\ WhatIfSlider.currentMix active = JS.Own mix)
  /\ map WhatIfSlider.key
         (filter WhatIfSlider.isActive (WhatIfSlider.buttons active))
     = [active].
Proof.
  intros H. cbv zeta.
  destruct (reachable_shape st H) as (_ & Hname & _).
  split; [exact Hname | split].
  - destruct (predefined_own _ Hname) as (mix & Hassoc & Hsel).
    exists mix. auto.
  - revert Hname. generalize (Home.activeScenario st). simpl.
    intros s [<- | [<- | [<- | []]]]; reflexivity.
Qed.

Lemma page_selector_is_predefined_witness :
  let st :=
    Home.step
      (Home.step (Home.step Home.initial (Home.AnalyzeBegin false))
                 (Home.AnalyzeEnd (Home.Succeeded sample)))
      (Home.ScenarioButton "best_case") in
  Home.reachable st /\ In (Home.activeScenario st) Spec.scenario_names.
Proof.
  cbv zeta. split; [exact reachable_best_case |].
  exact (proj1 (page_selector_is_predefined _ reachable_best_case)).
Defined.

(** X19.  In every state the page can reach, the displayed data has the
    nodes, the four phases other than end-of-life, the material details,
    the weights, the product weight and the category of the fetched data,
    and as many links with the same end points: the What-If buttons only
    change the end-of-life value, the total, the scenario name and the
    value of eol-to-total links. *)
Theorem displayed_data_frame (st : Home.State) (o d : SankeyData) :
  Home.reachable st ->
  Home.originalData st = Some o -> Home.displayData st = Some d ->
  let b := breakdown (summary o) in
  let b' := breakdown (summary d) in
  nodes d = nodes o
  /\ material_details d = material_details o
  /\ per_material_weights d = per_material_weights o
  /\ (materials b', manufacturing b', transport b', use b')
     = (materials b, manufacturing b, transport b, use b)
  /\ (weight_kg (summary d), category (summary d))
     = (weight_kg (summary o), category (summary o))
  /\ map (fun l => (source l, target l)) (links d)
     = map (fun l => (source l, target l)) (links o)
  /\ SankeyChart.nodeMap d = SankeyChart.nodeMap o.
Proof.
  intros H Ho Hd. cbv zeta.
  destruct (reachable_shape st H) as (_ & _ & [Hsame | (o' & Ho' & Hd')]).
  - assert (d = o) by congruence. subst d. repeat split.
  - assert (o' = o) by congruence. subst o'.
    assert (d = recalculateEOL o (Home.activeScenario st)) by congruence.
    subst d. repeat split.
    rewrite recalculateEOL_links, map_map. apply map_ext.
    intros l. destruct (is_eol_edge l); reflexivity.
Qed.

Lemma displayed_data_frame_witness :
  let st :=
    Home.step
      (Home.step (Home.step Home.initial (Home.AnalyzeBegin false))
                 (Home.AnalyzeEnd (Home.Succeeded sample)))
      (Home.ScenarioButton "best_case") in
  Home.reachable st
  /\ Home.originalData st = Some sample
  /\ Home.displayData st = Some (recalculateEOL sample "best_case")
  /\ nodes (recalculateEOL sample "best_case") = nodes sample.
Proof.
  cbv zeta.
  split; [exact reachable_best_case | split; [reflexivity |]].
  split; [reflexivity |].
  exact (proj1 (displayed_data_frame _ sample _ reachable_best_case
                  eq_refl eq_refl)).
Defined.

(** ** The rounding expression and the weight loop, once more *)


(** ** The emitted numbers and the total weight *)

Section TotalWeight.

Local Open Scope float_scope.

(** X3.  With at most 1024 weights, none negative, of at most 2^20 kg in
    all, the stored end-of-life value is, for every selector, within
    0.0001 of the blended factor of the mix in use times the total weight;
    so it lies between -0.09 times the total weight less 0.0001 and 0.6
    times the total weight plus 0.0001. *)
Theorem end_of_life_range
  (original : Binary64.SankeyData) (scenario : string) :
  let weights := JS.values (Binary64.per_material_weights original) in
  forallb Binary64.is_weight weights = true ->
  (Z.of_nat (length weights) <= 1024)%Z ->
  (Binary64.exact_sum weights <= 2 ^ 20)%Q ->
  let stored :=
    Binary64.end_of_life
      (Binary64.breakdown
         (Binary64.summary (Binary64.recalculateEOL original scenario))) in
  let blended := Binary64.blendedFactor (Binary64.selected_mix scenario) in
  Binary64.is_finite stored = true
  /\ (Qabs (Binary64.to_Q stored
            - Binary64.to_Q blended * Binary64.exact_sum weights)
      <= 1 # 10000)%Q
  /\ (- (9 # 100) * Binary64.exact_sum weights - (1 # 10000)
      <= Binary64.to_Q stored
      <= (6 # 10) * Binary64.exact_sum weights + (1 # 10000))%Q.
Proof.
  intros weights Hw Hlen HW stored blended.
  pose proof (binary64_blended_cases scenario) as Hbf. cbv zeta in Hbf.
  fold blended in Hbf.
  destruct (eol_units_near blended weights Hbf Hw Hlen HW)
    as (_ & _ & Hfr & Hnear & _).
  change (Binary64.round4 (Spec64.eol_impact weights blended))
    with stored in Hfr, Hnear.
  split; [exact Hfr | split; [eapply Qle_trans; [exact Hnear | lra] |]].
  pose proof (exact_sum_nonneg weights (is_weight_spec weights Hw)) as HW0.
  change (2 ^ 20)%Q with 1048576%Q in HW.
  apply Qabs_cases in Hnear as [H1 H2].
  set (W := Binary64.exact_sum weights) in *.
  set (v := Binary64.to_Q stored) in *.
  assert (Hb : (- (9 # 100) * W <= Binary64.to_Q blended * W <= (6 # 10) * W
                + (1 # 100000000))%Q).
  { destruct Hbf as [-> | [-> | [-> | ->]]].
    - assert (E : (Binary64.to_Q 0.44
                   == 7926335344172073 # 18014398509481984)%Q)
        by reflexivity.
      rewrite E. clearbody W. split; lra.
    - assert (E : (Binary64.to_Q (-0.08999999999999997)
                   == - (6485183463413512 # 72057594037927936))%Q)
        by reflexivity.
      rewrite E. clearbody W. split; lra.
    - assert (E : (Binary64.to_Q 0.6000000000000001
                   == 5404319552844596 # 9007199254740992)%Q)
        by reflexivity.
      rewrite E. clearbody W. split; lra.
    - change (Binary64.to_Q 0) with 0%Q. clearbody W. split; lra. }
  destruct Hb as [Hb1 Hb2].
  set (p := (Binary64.to_Q blended * W)%Q) in *.
  clearbody p v W. split; lra.
Qed.

(** 5.795 kg in two materials under best_case, an instance of X3: the
    stored -0.5215 is within 0.0001 of -0.09 times 5.795. *)
Lemma end_of_life_range_witness :
  let original := Binary64.tie_sample in
  let weights := JS.values (Binary64.per_material_weights original) in
  let stored :=
    Binary64.end_of_life
      (Binary64.breakdown
         (Binary64.summary (Binary64.recalculateEOL original "best_case"))) in
  forallb Binary64.is_weight weights = true
  /\ (Z.of_nat (length weights) <= 1024)%Z
  /\ (Binary64.exact_sum weights <= 2 ^ 20)%Q
  /\ stored = -0.5215
  /\ (- (9 # 100) * Binary64.exact_sum weights - (1 # 10000)
      <= Binary64.to_Q stored
      <= (6 # 10) * Binary64.exact_sum weights + (1 # 10000))%Q.
Proof.
  cbv zeta.
  assert (Hw : forallb Binary64.is_weight
                 (JS.values
                    (Binary64.per_material_weights Binary64.tie_sample))
               = true) by reflexivity.
  assert (Hlen : (Z.of_nat
                    (length
                       (JS.values
                          (Binary64.per_material_weights
                             Binary64.tie_sample))) <= 1024)%Z)
    by (vm_compute; discriminate).
  assert (HW : (Binary64.exact_sum
                  (JS.values
                     (Binary64.per_material_weights Binary64.tie_sample))
                <= 2 ^ 20)%Q)
    by (vm_compute; discriminate).
  split; [exact Hw | split; [exact Hlen | split; [exact HW |]]].
  split; [reflexivity |].
  exact (proj2 (proj2 (end_of_life_range Binary64.tie_sample "best_case"
                         Hw Hlen HW))).
Defined.

(** X21.  The stored end-of-life value depends on the materials through
    their total weight, up to one unit of the fourth decimal: two results
    whose per-material weights, at most 1024 each and none negative, add
    up to the same total of at most 2^20 kg get, under the same selector,
    stored end-of-life values that, counted in units of the fourth
    decimal, are integers at most one unit apart.  The same weights
    enumerated in another order can be a whole unit apart: 0.7111 and
    0.7112 for [Binary64.three_materials] under baseline. *)
Theorem end_of_life_by_total_weight
  (first second : Binary64.SankeyData) (scenario : string) :
  let stored (original : Binary64.SankeyData) :=
    Binary64.end_of_life
      (Binary64.breakdown
         (Binary64.summary (Binary64.recalculateEOL original scenario))) in
  let weights (original : Binary64.SankeyData) :=
    JS.values (Binary64.per_material_weights original) in
  forallb Binary64.is_weight (weights first) = true ->
  forallb Binary64.is_weight (weights second) = true ->
  (Z.of_nat (length (weights first)) <= 1024)%Z ->
  (Z.of_nat (length (weights second)) <= 1024)%Z ->
  (Binary64.exact_sum (weights first) <= 2 ^ 20)%Q ->
  (Binary64.exact_sum (weights first)
   == Binary64.exact_sum (weights second))%Q ->
  exists z1 z2 : Z,
    (Binary64.to_Q (Binary64.units4 (stored first)) == inject_Z z1)%Q
    /\ (Binary64.to_Q (Binary64.units4 (stored second)) == inject_Z z2)%Q
    /\ (Z.abs (z1 - z2) <= 1)%Z.
Proof.
  intros stored weights Hw1 Hw2 Hl1 Hl2 HW Heq.
  pose proof (binary64_blended_cases scenario) as Hbf. cbv zeta in Hbf.
  set (blended := Binary64.blendedFactor (Binary64.selected_mix scenario))
    in *.
  assert (HW2 : (Binary64.exact_sum (weights second) <= 2 ^ 20)%Q)
    by (now rewrite <- Heq).
  destruct (eol_units_near blended _ Hbf Hw1 Hl1 HW)
    as (Hf1 & Hb1 & _ & _ & z1 & Hz1 & Hn1).
  destruct (eol_units_near blended _ Hbf Hw2 Hl2 HW2)
    as (Hf2 & Hb2 & _ & _ & z2 & Hz2 & Hn2).
  exists z1, z2.
  assert (Hbig : (2 ^ 21 <= 2 ^ 32)%Q) by (apply pow2_le; lia).
  split; [| split].
  - unfold stored. rewrite binary64_end_of_life.
    change (Binary64.local_newEol first scenario)
      with (Spec64.eol_impact (weights first) blended).
    rewrite units4_round4; [exact Hz1 | exact Hf1 |].
    eapply Qle_trans; [exact Hb1 | exact Hbig].
  - unfold stored. rewrite binary64_end_of_life.
    change (Binary64.local_newEol second scenario)
      with (Spec64.eol_impact (weights second) blended).
    rewrite units4_round4; [exact Hz2 | exact Hf2 |].
    eapply Qle_trans; [exact Hb2 | exact Hbig].
  - apply Qabs_lt_2. rewrite <- Heq in Hn2.
    set (p := (10000 * (Binary64.to_Q blended
                        * Binary64.exact_sum (weights first)))%Q) in *.
    clearbody p.
    apply Qabs_cases in Hn1 as [A1 A2], Hn2 as [B1 B2].
    apply Qabs_Qlt_condition. split; lra.
Qed.

(** The three materials in two orders under baseline, an instance of
    X21: 7111 and 7112 units. *)
Lemma end_of_life_by_total_weight_witness :
  let stored (original : Binary64.SankeyData) :=
    Binary64.end_of_life
      (Binary64.breakdown
         (Binary64.summary (Binary64.recalculateEOL original "baseline"))) in
  let weights (original : Binary64.SankeyData) :=
    JS.values (Binary64.per_material_weights original) in
  (Binary64.exact_sum (weights Binary64.three_materials)
   == Binary64.exact_sum (weights Binary64.three_materials_reordered))%Q
  /\ stored Binary64.three_materials = 0.7111
  /\ stored Binary64.three_materials_reordered = 0.7112
  /\ exists z1 z2 : Z,
       (Binary64.to_Q (Binary64.units4 (stored Binary64.three_materials))
        == inject_Z z1)%Q
       /\ (Binary64.to_Q
             (Binary64.units4 (stored Binary64.three_materials_reordered))
           == inject_Z z2)%Q
       /\ (Z.abs (z1 - z2) <= 1)%Z.
Proof.
  cbv zeta.
  assert (Heq : (Binary64.exact_sum
                   (JS.values
                      (Binary64.per_material_weights
                         Binary64.three_materials))
                 == Binary64.exact_sum
                      (JS.values
                         (Binary64.per_material_weights
                            Binary64.three_materials_reordered)))%Q)
    by reflexivity.
  split; [exact Heq | split; [reflexivity | split; [reflexivity |]]].
  apply (end_of_life_by_total_weight Binary64.three_materials
           Binary64.three_materials_reordered "baseline");
    try reflexivity; try exact Heq; vm_compute; discriminate.
Defined.

(** X22.  Rounding a rounded value changes nothing, in doubles: for a
    finite double of magnitude at most 2^32,
    [Math.round(x * 10000) / 10000] applied twice gives what it gives
    when applied once, and the number of units of the fourth decimal it
    reads off the rounded value is the one it read off the value. *)
Theorem round4_idempotent_in_doubles (x : float) :
  Binary64.is_finite x = true ->
  (Qabs (Binary64.to_Q x) <= 2 ^ 32)%Q ->
  Binary64.units4 (Binary64.round4 x) = Binary64.units4 x
  /\ Binary64.round4 (Binary64.round4 x) = Binary64.round4 x.
Proof.
  intros Hf Hx.
  pose proof (units4_round4 x Hf Hx) as H.
  split; [exact H |].
  change (Binary64.round4 (Binary64.round4 x))
    with (Binary64.units4 (Binary64.round4 x) / 10000).
  now rewrite H.
Qed.

(** The end-of-life value -0.52155 of [Binary64.tie_sample], an instance
    of X22: -0.5215 stays -0.5215. *)
Lemma round4_idempotent_in_doubles_witness :
  Binary64.is_finite (-0.52155) = true
  /\ (Qabs (Binary64.to_Q (-0.52155)) <= 2 ^ 32)%Q
  /\ Binary64.round4 (-0.52155) = -0.5215
  /\ Binary64.round4 (Binary64.round4 (-0.52155))
     = Binary64.round4 (-0.52155).
Proof.
  assert (Hf : Binary64.is_finite (-0.52155) = true) by reflexivity.
  assert (Hx : (Qabs (Binary64.to_Q (-0.52155)) <= 2 ^ 32)%Q)
    by (vm_compute; discriminate).
  split; [exact Hf | split; [exact Hx | split; [reflexivity |]]].
  exact (proj2 (round4_idempotent_in_doubles (-0.52155) Hf Hx)).
Defined.

End TotalWeight.
